(** * BLISS private key: key generation and signing (bliss_private_key.c)

    A shallow embedding of strongSwan's BLISS private-key code and the
    properties its specification states about it.  Machine integers are
    integers of [Z] with the C conversions written out; arrays are lists
    read with [rd] and written with stdpp's [<[i:=x]>]; the objects the
    code reaches through method tables (random generator, hasher, MGF1
    bit-spender, Gaussian sampler, FFT, utilities) form the class [Lib].
    Loops that may run for ever take fuel and report [Timeout]; a run that
    C leaves undefined reports [Fault]. *)

From Stdlib Require Import ZArith List Lia Znumtheory Permutation Sorted Bool.
From Stdlib Require Import Orders Mergesort.
From Stdlib Require Strings.Byte.
From Stdlib Require Import Zmod.
From stdpp Require Import list.
Import ListNotations.
Open Scope Z_scope.

(** ** Machine integers *)

Module CInt.

(** Conversion to an unsigned type of [w] bits. *)
Definition to_unsigned (w z : Z) : Z := z mod 2 ^ w.

(** Conversion to a signed type of [w] bits (two's complement). *)
Definition to_signed (w z : Z) : Z := (z + 2 ^ (w - 1)) mod 2 ^ w - 2 ^ (w - 1).

Definition to_uint16 := to_unsigned 16.
Definition to_uint32 := to_unsigned 32.
Definition to_int8 := to_signed 8.
Definition to_int16 := to_signed 16.
Definition to_int32 := to_signed 32.

End CInt.
Import CInt.

(** ** Arrays and loops *)

(** [a[i]] for an array held as a list.  A cell outside the list reads 0
    and, with stdpp's insert, a write outside it is dropped; where the code
    can reach such an access on the inputs considered, the model checks the
    index first and reports [Fault]. *)
Definition rd (a : list Z) (i : nat) : Z := default 0 (a !! i).

(** [a[z]] for an index computed in [int]. *)
Definition rdz (a : list Z) (z : Z) : Z := if z <? 0 then 0 else rd a (Z.to_nat z).

(** [for (i = lo; i < lo + k; i++) body], on a state [S]. *)
Fixpoint for_loop {S : Type} (k : nat) (lo : nat) (body : nat -> S -> S) (s : S) : S :=
  match k with
  | O => s
  | Datatypes.S k' => for_loop k' (Datatypes.S lo) body (body lo s)
  end.

(** How a call ends. *)
Inductive outcome (A : Type) : Type :=
| Ret (a : A)   (* the call returns [a] *)
| Fault         (* null dereference, access out of bounds, division by zero *)
| Timeout.      (* the fuel ran out before the loop ended *)
Arguments Ret {A} a.
Arguments Fault {A}.
Arguments Timeout {A}.

#[export] Instance outcome_ret : MRet outcome := fun A a => Ret a.

#[export] Instance outcome_bind : MBind outcome := fun A B f o =>
  match o with
  | Ret a => f a
  | Fault => Fault
  | Timeout => Timeout
  end.

(** ** Modular inverse *)

(** [while ((q2 & (1 << i_max)) == 0) i_max--;]  With no bit of [q2] set the
    counter passes zero and the shift count turns negative, which C leaves
    undefined: [None]. *)
Fixpoint invert_i_max (q2 : Z) (i_max : nat) : option nat :=
  if Z.land q2 (Z.shiftl 1 (Z.of_nat i_max)) =? 0 then
    match i_max with
    | O => None
    | Datatypes.S i => invert_i_max q2 i
    end
  else Some i_max.

(** The body of [for (i = 1; i <= i_max; i++)], run [count] times from [i]. *)
Fixpoint invert_loop (q q2 : Z) (count : nat) (i : Z) (x1 x2 : Z) : Z :=
  match count with
  | O => x1
  | Datatypes.S c =>
      let x2' := to_uint32 (x2 * x2) mod q in
      let x1' := if Z.land q2 (Z.shiftl 1 i) =? 0 then x1
                 else to_uint32 (x1 * x2') mod q in
      invert_loop q q2 c (i + 1) x1' x2'
  end.

(** [static uint32_t invert(uint32_t x, uint16_t q)]; [None] where C leaves
    the run undefined (no bit set in [q - 2], or a remainder by zero). *)
Definition invert (x q : Z) : option Z :=
  let q2 := to_uint16 (q - 2) in
  let x1 := if Z.land q2 1 =? 0 then 1 else x in
  let x2 := x in
  match invert_i_max q2 15 with
  | None => None
  | Some i_max =>
      if (q =? 0) && (0 <? Z.of_nat i_max) then None
      else Some (invert_loop q q2 i_max 1 x1 x2)
  end.

(** ** The Nk(S) norm *)

(** [static int16_t wrapped_product(int8_t *x, int8_t *y, int n, int shift)],
    called with [0 <= shift <= n] only. *)
Definition wrapped_product (x y : list Z) (n shift : nat) : Z :=
  let product := 0 in
  let product :=
    for_loop (n - shift) 0
      (fun i product => to_int16 (product + rd x i * rd y (i + shift))) product in
  for_loop (n - (n - shift)) (n - shift)
    (fun i product => to_int16 (product - rd x i * rd y (i + shift - n))) product.

(** [static void wrap(int16_t *x, int n, int shift, int16_t *x_wrapped)];
    the result is the content of [x_wrapped] afterwards. *)
Definition wrap (x : list Z) (n shift : nat) (x_wrapped : list Z) : list Z :=
  let x_wrapped :=
    for_loop (n - shift) 0
      (fun i w => <[(i + shift)%nat := rd x i]> w) x_wrapped in
  for_loop (n - (n - shift)) (n - shift)
    (fun i w => <[(i + shift - n)%nat := to_int16 (- rd x i)]> w) x_wrapped.

(** [static int compare(const int16_t *a, const int16_t *b)]: the difference
    is stored in an [int16_t] before its sign is taken. *)
Definition compare (a b : Z) : Z :=
  let temp := to_int16 (a - b) in
  if 0 <? temp then 1 else if temp <? 0 then -1 else 0.

(** [qsort] of the C library, on a whole array.  The library fixes no
    algorithm; the model inserts each element in turn, placing [x] before the
    first [y] with [cmp x y <= 0].  Under a comparator that orders the
    elements totally every algorithm yields this same array of integers. *)
Fixpoint qsort_insert (cmp : Z -> Z -> Z) (x : Z) (l : list Z) : list Z :=
  match l with
  | [] => [x]
  | y :: l' => if cmp x y <=? 0 then x :: y :: l' else y :: qsort_insert cmp x l'
  end.

Definition qsort (cmp : Z -> Z -> Z) (l : list Z) : list Z :=
  fold_right (qsort_insert cmp) [] l.

(** [static uint32_t nks_norm(int8_t *s1, int8_t *s2, int n, uint16_t kappa)],
    called with [kappa <= n].  The three arrays of [n] cells live on the
    stack; each cell is written before it is read. *)
Definition nks_norm (s1 s2 : list Z) (n kappa : nat) : Z :=
  let t :=
    for_loop n 0
      (fun i t => <[i := to_int16 (wrapped_product s1 s1 n i +
                                   wrapped_product s2 s2 n i)]> t)
      (replicate n 0) in
  let '(_, max_kappa) :=
    for_loop n 0
      (fun i '(t_wrapped, max_kappa) =>
         let t_wrapped := wrap t n i t_wrapped in
         let t_wrapped := qsort compare t_wrapped in
         let max_kappa := <[i := 0]> max_kappa in
         let max_kappa :=
           for_loop kappa 1
             (fun j mk => <[i := to_int16 (rd mk i + rd t_wrapped (n - j))]> mk)
             max_kappa in
         (t_wrapped, max_kappa))
      (replicate n 0, replicate n 0) in
  let max_kappa := qsort compare max_kappa in
  for_loop kappa 1 (fun i nks => to_uint32 (nks + rd max_kappa (n - i))) 0.

(** ** Types declared in headers outside this file *)

Definition chunk_t := list Byte.byte.
Definition chunk_empty : chunk_t := [].

Inductive hash_algorithm_t := HASH_SHA1 | HASH_SHA256 | HASH_SHA512.

Definition HASH_SIZE_SHA1 : nat := 20.
Definition HASH_SIZE_SHA256 : nat := 32.

(** [signature_scheme_t] has one member this file names; every other member
    is [SIGN_OTHER] with its number. *)
Inductive signature_scheme_t := SIGN_BLISS_WITH_SHA512 | SIGN_OTHER (code : Z).

Definition encryption_scheme_t := Z.

(** The arguments [bliss_private_key_gen] reads from its [va_list]. *)
Inductive builder_part_t := BUILD_KEY_SIZE (key_size : Z) | BUILD_END | BUILD_OTHER.

Definition SECRET_KEY_TRIALS_MAX : Z := 50.

(** [bliss_fft_params_t] and [bliss_param_set_t], with the fields this file
    reads.  Counts and lengths are natural numbers, the other fields are the
    unsigned integers of the structure. *)
Module FFTParams.
Record bliss_fft_params_t := { q : Z; n : nat }.
End FFTParams.
Abbreviation bliss_fft_params_t := FFTParams.bliss_fft_params_t.

Module ParamSet.
Record bliss_param_set_t := {
  oid : Z;
  strength : Z;
  q : Z;
  q2_inv : Z;
  n : nat;
  n_bits : nat;
  fft_params : bliss_fft_params_t;
  non_zero1 : nat;
  non_zero2 : nat;
  kappa : nat;
  nks_max : Z;
  p : Z;
  M : Z
}.
End ParamSet.
Abbreviation bliss_param_set_t := ParamSet.bliss_param_set_t.

(** [private_bliss_private_key_t] without its method table and its reference
    count: the parameter set and the three arrays. *)
Module Key.
Record private_bliss_private_key_t := {
  set : bliss_param_set_t;
  s1 : list Z;
  s2 : list Z;
  a : list Z
}.
End Key.
Abbreviation private_bliss_private_key_t := Key.private_bliss_private_key_t.

(** ** The random generator

    [rng_t] is the bytes the generator will still hand out; [get_bytes]
    fails once fewer are left than asked for.  [lib->crypto->create_rng] may
    return NULL, so the callers below receive an [option rng_t]. *)
Definition rng_t := list Byte.byte.

Definition rng_get_bytes (rng : rng_t) (len : nat) : option (chunk_t * rng_t) :=
  if (len <=? length rng)%nat then Some (take len rng, drop len rng) else None.

(** ** The objects behind method tables *)

Class Lib := {
  (* mgf1_bitspender_t: create, get_bits *)
  bitspender_t : Type;
  mgf1_bitspender_create : hash_algorithm_t -> chunk_t -> option bitspender_t;
  get_bits : bitspender_t -> nat -> option (Z * bitspender_t);
  (* bliss_fft_t: transform(src, inverse), returning dst; the transform
     fills as many cells as it reads *)
  fft_transform : bliss_fft_params_t -> list Z -> bool -> list Z;
  fft_transform_length :
    forall params src inverse, length (fft_transform params src inverse) = length src;
  (* hasher_t: create_hasher, get_hash *)
  hasher_t : Type;
  create_hasher : hash_algorithm_t -> option hasher_t;
  get_hash : hasher_t -> chunk_t -> option chunk_t;
  (* bliss_sampler_t: create, gaussian, bernoulli_exp, bernoulli_cosh, sign *)
  bliss_sampler_t : Type;
  bliss_sampler_create :
    hash_algorithm_t -> chunk_t -> bliss_param_set_t -> option bliss_sampler_t;
  gaussian : bliss_sampler_t -> option (Z * bliss_sampler_t);
  bernoulli_exp : bliss_sampler_t -> Z -> option (bool * bliss_sampler_t);
  bernoulli_cosh : bliss_sampler_t -> Z -> option (bool * bliss_sampler_t);
  sampler_sign : bliss_sampler_t -> option (bool * bliss_sampler_t);
  (* bliss_utils *)
  bliss_utils_round_and_drop : bliss_param_set_t -> list Z -> list Z;
  bliss_utils_generate_c :
    hasher_t -> chunk_t -> list Z -> nat -> nat -> option (list Z);
  bliss_utils_scalar_product : list Z -> list Z -> nat -> Z;
  bliss_utils_check_norms : bliss_param_set_t -> list Z -> list Z -> bool;
  (* bliss_signature_t: get_encoding of (z1, z2d, c_indices) *)
  bliss_signature_get_encoding :
    bliss_param_set_t -> list Z -> list Z -> list Z -> chunk_t;
  (* bliss_param_set *)
  bliss_param_set_get_by_id : Z -> option bliss_param_set_t
}.

Section KeyGen.
Context `{Lib}.

(** ** Sparse vectors from a seed *)

(** One of the two [while (non_zero)] loops of [create_vector_from_seed];
    they differ in the magnitude [value] they store.  [Ret None] is the
    [return NULL] after a failed [get_bits].  An index past the vector is an
    access out of bounds. *)
Fixpoint fill_non_zero (fuel : nat) (n_bits : nat) (value : Z) (non_zero : nat)
    (bitspender : bitspender_t) (vector : list Z)
    : outcome (option (bitspender_t * list Z)) :=
  match non_zero with
  | O => Ret (Some (bitspender, vector))
  | Datatypes.S non_zero' =>
      match fuel with
      | O => Timeout
      | Datatypes.S fuel' =>
          match get_bits bitspender n_bits with
          | None => Ret None
          | Some (index, bitspender) =>
              if (length vector <=? Z.to_nat index)%nat || (index <? 0) then Fault
              else if negb (rd vector (Z.to_nat index) =? 0) then
                fill_non_zero fuel' n_bits value non_zero bitspender vector
              else
                match get_bits bitspender 1 with
                | None => Ret None
                | Some (sign, bitspender) =>
                    let vector :=
                      <[Z.to_nat index := if sign =? 0 then - value else value]> vector in
                    fill_non_zero fuel' n_bits value non_zero' bitspender vector
                end
          end
      end
  end.

(** [static int8_t* create_vector_from_seed(this, alg, seed)] *)
Definition create_vector_from_seed (fuel : nat) (set : bliss_param_set_t)
    (alg : hash_algorithm_t) (seed : chunk_t) : outcome (option (list Z)) :=
  match mgf1_bitspender_create alg seed with
  | None => Ret None
  | Some bitspender =>
      let vector := replicate (ParamSet.n set) 0 in
      r ← fill_non_zero fuel (ParamSet.n_bits set) 1 (ParamSet.non_zero1 set)
            bitspender vector;
      match r with
      | None => Ret None
      | Some (bitspender, vector) =>
          r ← fill_non_zero fuel (ParamSet.n_bits set) 2 (ParamSet.non_zero2 set)
                bitspender vector;
          match r with
          | None => Ret None
          | Some (_, vector) => Ret (Some vector)
          end
      end
  end.

(** ** The secret key *)

(** What [create_secret] leaves behind: its return value, the vectors and
    the trial count it stores through its pointer arguments, and the
    generator. *)
Record secret_result := {
  secret_ok : bool;
  secret_s1 : list Z;
  secret_s2 : list Z;
  secret_trials : Z;
  secret_rng : option rng_t
}.

(** The MGF1 hash and the seed length chosen from the security strength. *)
Definition mgf1_alg (set : bliss_param_set_t) : hash_algorithm_t * nat :=
  if 160 <? ParamSet.strength set then (HASH_SHA256, HASH_SIZE_SHA256)
  else (HASH_SHA1, HASH_SIZE_SHA1).

(** The [while] loop of [create_secret], which runs as long as the trial
    count is below [SECRET_KEY_TRIALS_MAX].  [k] bounds the iterations
    still to run; the loop condition is tested as in the source.  [rng] is
    the result of [create_rng], used unchecked.  The loop doubles [g]
    through a [uint8_t] pointer and hands it on as [int8_t]: each cell ends
    with the low eight bits of the result, read as signed. *)
Fixpoint create_secret_loop (fuel : nat) (k : nat) (set : bliss_param_set_t)
    (rng : option rng_t) (trials : Z) : outcome secret_result :=
  let n := ParamSet.n set in
  let '(alg, seed_len) := mgf1_alg set in
  let failed rng trials :=
    Ret {| secret_ok := false; secret_s1 := []; secret_s2 := [];
           secret_trials := trials; secret_rng := rng |} in
  if trials <? SECRET_KEY_TRIALS_MAX then
    match k with
    | O => Timeout
    | Datatypes.S k' =>
        let trials := trials + 1 in
        match rng with
        | None => Fault
        | Some rng =>
            match rng_get_bytes rng seed_len with
            | None => failed (Some rng) trials
            | Some (seed, rng) =>
                f ← create_vector_from_seed fuel set alg seed;
                match f with
                | None => failed (Some rng) trials
                | Some f =>
                    match rng_get_bytes rng seed_len with
                    | None => failed (Some rng) trials
                    | Some (seed, rng) =>
                        g ← create_vector_from_seed fuel set alg seed;
                        match g with
                        | None => failed (Some rng) trials
                        | Some g =>
                            (* Compute 2g + 1 *)
                            let g := for_loop n 0
                                       (fun i g => <[i := to_int8 (rd g i * 2)]> g) g in
                            let g := <[0%nat := to_int8 (rd g 0 + 1)]> g in
                            let nks := nks_norm f g n (ParamSet.kappa set) in
                            if nks <? ParamSet.nks_max set then
                              Ret {| secret_ok := true; secret_s1 := f; secret_s2 := g;
                                     secret_trials := trials; secret_rng := Some rng |}
                            else
                              create_secret_loop fuel k' set (Some rng) trials
                        end
                    end
                end
            end
        end
    end
  else failed rng trials.

(** [static bool create_secret(this, rng, s1, s2, trials)] *)
Definition create_secret (fuel : nat) (set : bliss_param_set_t)
    (rng : option rng_t) (trials : Z) : outcome secret_result :=
  create_secret_loop fuel (Z.to_nat (SECRET_KEY_TRIALS_MAX - trials)) set rng trials.

(** ** Key generation *)

(** The loop of [bliss_private_key_gen] over its [va_list]: [Ret None] is
    the [return NULL] of the default case; reading past the last argument
    is undefined. *)
Fixpoint gen_args (args : list builder_part_t) (key_size : Z) : outcome (option Z) :=
  match args with
  | [] => Fault
  | BUILD_KEY_SIZE key_size :: args => gen_args args key_size
  | BUILD_END :: _ => Ret (Some key_size)
  | BUILD_OTHER :: _ => Ret None
  end.

(** "Convert signed arrays to unsigned arrays before FFT": both stores of
    the loop body, on the pair [(S1, S2)] of [uint32_t] arrays. *)
Definition to_unsigned_arrays (q : Z) (n : nat) (s1 s2 : list Z)
    (S : list Z * list Z) : list Z * list Z :=
  for_loop n 0
    (fun i '(S1, S2) =>
       (<[i := to_uint32 (if rd s1 i <? 0 then rd s1 i + q else rd s1 i)]> S1,
        <[i := to_uint32 (if 0 <? rd s2 i then q - rd s2 i else - rd s2 i)]> S2))
    S.

(** The loop that tests [S1] for a zero and fills [A], run [count] times
    from [i]; the flag is [success]. *)
Fixpoint derive_A (count : nat) (i : nat) (q : Z) (S1 S2 A : list Z)
    : outcome (bool * list Z) :=
  match count with
  | O => Ret (true, A)
  | Datatypes.S c =>
      if rd S1 i =? 0 then Ret (false, A)
      else
        match invert (rd S1 i) q with
        | None => Fault
        | Some x =>
            let A := <[i := x]> A in
            let A := <[i := to_uint32 (rd S2 i * rd A i) mod q]> A in
            derive_A c (Datatypes.S i) q S1 S2 A
        end
  end.

(** What the [do ... while] loop leaves behind. *)
Record derived := {
  d_success : bool;
  d_s1 : list Z;
  d_s2 : list Z;
  d_A : list Z;
  d_trials : Z;
  d_rng : option rng_t
}.

(** [do { ... } while (!success && trials < SECRET_KEY_TRIALS_MAX)]; [k]
    bounds the iterations still to run.  When [create_secret] fails the
    loop is left with [success] still false. *)
Fixpoint gen_loop (fuel : nat) (k : nat) (set : bliss_param_set_t)
    (rng : option rng_t) (trials : Z) (S1 S2 A : list Z) : outcome derived :=
  let n := ParamSet.n set in
  let q := ParamSet.q set in
  match k with
  | O => Timeout
  | Datatypes.S k' =>
      r ← create_secret fuel set rng trials;
      let trials := secret_trials r in
      let rng := secret_rng r in
      if negb (secret_ok r) then
        Ret {| d_success := false; d_s1 := []; d_s2 := []; d_A := A;
               d_trials := trials; d_rng := rng |}
      else
        let '(S1, S2) :=
          to_unsigned_arrays q n (secret_s1 r) (secret_s2 r) (S1, S2) in
        let S1 := fft_transform (ParamSet.fft_params set) S1 false in
        let S2 := fft_transform (ParamSet.fft_params set) S2 false in
        '(success, A) ← derive_A n 0 q S1 S2 A;
        if negb success && (trials <? SECRET_KEY_TRIALS_MAX) then
          gen_loop fuel k' set rng trials S1 S2 A
        else
          Ret {| d_success := success;
                 d_s1 := if success then secret_s1 r else [];
                 d_s2 := if success then secret_s2 r else [];
                 d_A := A; d_trials := trials; d_rng := rng |}
  end.

(** What [bliss_private_key_gen] returns, with the trial count of its log
    line and the generator as the call leaves it. *)
Record gen_result := {
  gen_key : option private_bliss_private_key_t;
  gen_trials : Z;
  gen_rng : option rng_t
}.

(** [bliss_private_key_t *bliss_private_key_gen(key_type_t type, va_list args)];
    [rng] is what [create_rng] returns for [RNG_TRUE]. *)
Definition bliss_private_key_gen (fuel : nat) (args : list builder_part_t)
    (rng : option rng_t) : outcome gen_result :=
  let trials := 0 in
  key_size ← gen_args args 1;
  match key_size with
  | None => Ret {| gen_key := None; gen_trials := trials; gen_rng := rng |}
  | Some key_size =>
      match bliss_param_set_get_by_id key_size with
      | None => Ret {| gen_key := None; gen_trials := trials; gen_rng := rng |}
      | Some set =>
          let n := ParamSet.n set in
          let q := ParamSet.q set in
          if negb (FFTParams.n (ParamSet.fft_params set) =? n)%nat
             || negb (FFTParams.q (ParamSet.fft_params set) =? q)
          then Ret {| gen_key := None; gen_trials := trials; gen_rng := rng |}
          else
            let S1 := replicate n 0 in
            let S2 := replicate n 0 in
            let A := replicate n 0 in
            d ← gen_loop fuel (Z.to_nat SECRET_KEY_TRIALS_MAX) set rng trials S1 S2 A;
            if d_success d then
              let a := fft_transform (ParamSet.fft_params set) (d_A d) true in
              Ret {| gen_key := Some {| Key.set := set; Key.s1 := d_s1 d;
                                        Key.s2 := d_s2 d; Key.a := a |};
                     gen_trials := d_trials d; gen_rng := d_rng d |}
            else Ret {| gen_key := None; gen_trials := d_trials d; gen_rng := d_rng d |}
      end
  end.
End KeyGen.

(** ** Signing *)

Module Sign.

(** The arrays [sign_bliss_with_sha512] works on, by the pointer that the
    code holds to each: the three arrays of the key, the seven it
    allocates, and the three that belong to the signature object. *)
Inductive buffer :=
| s1 | s2 | a
| A | ay | z2 | s1c | s2c | u | uz2d
| z1 | z2d | c_indices.

(** [y1 = z1; y2 = z2; ud = z2d;]: three more names for arrays above. *)
Definition y1 : buffer := z1.
Definition y2 : buffer := z2.
Definition ud : buffer := z2d.

#[export] Instance buffer_eq_dec : EqDecision buffer.
Proof. solve_decision. Defined.

Definition memory := buffer -> list Z.

(** The whole array behind [b] is replaced (by a callee that fills it). *)
Definition store (b : buffer) (v : list Z) (m : memory) : memory :=
  fun b' => if decide (b = b') then v else m b'.

(** [b[i]] and [b[i] = v]. *)
Definition load (m : memory) (b : buffer) (i : nat) : Z := rd (m b) i.
Definition write (b : buffer) (i : nat) (v : Z) (m : memory) : memory :=
  store b (<[i := v]> (m b)) m.

(** [static void multiply_by_c(int8_t *s, int n, uint16_t *c_indices,
    uint16_t kappa, int32_t *product)], on the arrays its pointers name. *)
Definition multiply_by_c (s : buffer) (n : nat) (c_indices : buffer) (kappa : nat)
    (product : buffer) (m : memory) : memory :=
  for_loop n 0
    (fun i m =>
       let m := write product i 0 m in
       for_loop kappa 0
         (fun j m =>
            let index := load m c_indices j in
            if Z.of_nat i - index <? 0 then
              write product i
                (to_int32 (load m product i - rdz (m s) (Z.of_nat i - index + Z.of_nat n))) m
            else
              write product i
                (to_int32 (load m product i + rdz (m s) (Z.of_nat i - index))) m)
         m)
    m.

(** One coefficient of "Compute z2 with dropped bits": [value] from
    [ud[i]] and [uz2d[i]]. *)
Definition z2d_value (p p2 : Z) (ud_i uz2d_i : Z) : Z :=
  let value := to_int16 (ud_i - uz2d_i) in
  if value <=? - p2 then to_int16 (value + p)
  else if p2 <? value then to_int16 (value - p)
  else value.

(** The loop storing [z2d[i] = value] for [i < n]. *)
Definition derive_z2d (p p2 : Z) (n : nat) (m : memory) : memory :=
  for_loop n 0
    (fun i m => write z2d i (z2d_value p p2 (load m ud i) (load m uz2d i)) m) m.

Section WithLib.
Context `{Lib}.

(** The state the signing loop carries from one round to the next. *)
Record state := {
  st_mem : memory;
  st_rng : rng_t;
  st_sampler : option bliss_sampler_t
}.

(** How a round of [while (true)] ends. *)
Inductive flow := Continue | Break | GotoEnd.

(** "Gaussian sampling for vectors y1 and y2", run [count] times from
    [i]; the flag is false when a draw fails ([goto end]).  The running
    minimum, maximum, mean and variance only feed the debug log. *)
Fixpoint gaussian_loop (count : nat) (i : nat) (q : Z)
    (sampler : bliss_sampler_t) (m : memory) : bool * bliss_sampler_t * memory :=
  match count with
  | O => (true, sampler, m)
  | Datatypes.S c =>
      match gaussian sampler with
      | None => (false, sampler, m)
      | Some (y1i, sampler) =>
          match gaussian sampler with
          | None => (false, sampler, m)
          | Some (y2i, sampler) =>
              let m := write y1 i y1i m in
              let m := write y2 i y2i m in
              let m := write ay i (to_uint32 (if y1i <? 0 then q + y1i else y1i)) m in
              gaussian_loop c (Datatypes.S i) q sampler m
          end
      end
  end.

(** One round of [while (true)] from the creation of the sampler on,
    given the seed just drawn: how the round ends, the arrays, and the
    sampler pointer. *)
Definition sign_round_seeded (set : bliss_param_set_t) (alg : hash_algorithm_t)
    (hasher : hasher_t) (data_hash : chunk_t) (seed : chunk_t) (m : memory)
    : outcome (flow * memory * option bliss_sampler_t) :=
  let n := ParamSet.n set in
  let q := ParamSet.q set in
  let p := ParamSet.p set in
  let q2 := to_uint16 (2 * q) in
  let p2 := to_uint16 (p / 2) in
  let kappa := ParamSet.kappa set in
  let fft := ParamSet.fft_params set in
  match bliss_sampler_create alg seed set with
  | None => Ret (GotoEnd, m, None)
  | Some sampler =>
      let '(ok, sampler, m) := gaussian_loop n 0 q sampler m in
      let leave (fl : flow) (m : memory) (sampler : bliss_sampler_t) :=
        Ret (fl, m, Some sampler) in
      if negb ok then leave GotoEnd m sampler
      else
        let m := store ay (fft_transform fft (m ay) false) m in
        if ((q =? 0) || (q2 =? 0)) && (0 <? n)%nat then Fault
        else
          let m := for_loop n 0
                     (fun i m =>
                        write ay i (to_uint32 (load m A i * load m ay i) mod q) m) m in
          let m := store ay (fft_transform fft (m ay) true) m in
          let m := for_loop n 0
                     (fun i m =>
                        let ui := to_int32 (2 * ParamSet.q2_inv set
                                            * to_int32 (load m ay i) + load m y2 i) in
                        write u i (Z.rem (if ui <? 0 then q2 + ui else ui) q2) m) m in
          let m := store ud (bliss_utils_round_and_drop set (m u)) m in
          match bliss_utils_generate_c hasher data_hash (m ud) n kappa with
          | None => leave GotoEnd m sampler
          | Some c =>
              let m := store c_indices c m in
              (* Compute s*c *)
              let m := multiply_by_c s1 n c_indices kappa s1c m in
              let m := multiply_by_c s2 n c_indices kappa s2c m in
              let norm := to_int32 (bliss_utils_scalar_product (m s1c) (m s1c) n +
                                    bliss_utils_scalar_product (m s2c) (m s2c) n) in
              match bernoulli_exp sampler (to_uint32 (ParamSet.M set - norm)) with
              | None => leave GotoEnd m sampler
              | Some (accepted, sampler) =>
                  if negb accepted then leave Continue m sampler
                  else
                    (* Compute z *)
                    match sampler_sign sampler with
                    | None => leave GotoEnd m sampler
                    | Some (positive, sampler) =>
                        let m := for_loop n 0
                          (fun i m =>
                             if positive then
                               let m := write z1 i (to_int32 (load m y1 i + load m s1c i)) m in
                               write z2 i (to_int32 (load m y2 i + load m s2c i)) m
                             else
                               let m := write z1 i (to_int32 (load m y1 i - load m s1c i)) m in
                               write z2 i (to_int32 (load m y2 i - load m s2c i)) m) m in
                        let scalar :=
                          to_int32 (bliss_utils_scalar_product (m z1) (m s1c) n +
                                    bliss_utils_scalar_product (m z2) (m s2c) n) in
                        match bernoulli_cosh sampler scalar with
                        | None => leave GotoEnd m sampler
                        | Some (accepted, sampler) =>
                            if negb accepted then leave Continue m sampler
                            else
                              (* Compute z2 with dropped bits *)
                              let m := for_loop n 0
                                (fun i m =>
                                   let m := write u i (to_int32 (load m u i - load m z2 i)) m in
                                   if load m u i <? 0 then
                                     write u i (to_int32 (load m u i + q2)) m
                                   else if q2 <=? load m u i then
                                     write u i (to_int32 (load m u i - q2)) m
                                   else m) m in
                              let m := store uz2d (bliss_utils_round_and_drop set (m u)) m in
                              let m := derive_z2d p p2 n m in
                              if negb (bliss_utils_check_norms set (m z1) (m z2d))
                              then leave Continue m sampler
                              else leave Break m sampler
                        end
                    end
              end
          end
  end.

(** One round of [while (true)]: a seed is drawn first; without one the
    round goes to [end] with the sampler of the round before. *)
Definition sign_round (set : bliss_param_set_t) (alg : hash_algorithm_t)
    (seed_len : nat) (hasher : hasher_t) (data_hash : chunk_t)
    (st : state) : outcome (flow * state) :=
  match rng_get_bytes (st_rng st) seed_len with
  | None => Ret (GotoEnd, st)
  | Some (seed, rng) =>
      r ← sign_round_seeded set alg hasher data_hash seed (st_mem st);
      let '(fl, m, sampler) := r in
      Ret (fl, {| st_mem := m; st_rng := rng; st_sampler := sampler |})
  end.

(** [while (true)], with fuel; the flag tells whether it was left by
    [break] (true) or by [goto end] (false). *)
Fixpoint sign_loop (fuel : nat) (set : bliss_param_set_t) (alg : hash_algorithm_t)
    (seed_len : nat) (hasher : hasher_t) (data_hash : chunk_t)
    (st : state) : outcome (bool * state) :=
  match fuel with
  | O => Timeout
  | Datatypes.S fuel' =>
      '(fl, st) ← sign_round set alg seed_len hasher data_hash st;
      match fl with
      | Continue => sign_loop fuel' set alg seed_len hasher data_hash st
      | Break => Ret (true, st)
      | GotoEnd => Ret (false, st)
      end
  end.

(** What a call of [sign] or [decrypt] leaves behind: the return value,
    the chunk behind the output pointer, the key, and the generator. *)
Record result := {
  r_success : bool;
  r_out : chunk_t;
  r_this : private_bliss_private_key_t;
  r_rng : option rng_t
}.

(** The arrays at the start of the loop: the key's own, and fresh ones of
    [n] cells (modelled as zeroed; each is filled before it is read). *)
Definition initial_memory (this : private_bliss_private_key_t) : memory :=
  fun b =>
    match b with
    | s1 => Key.s1 this
    | s2 => Key.s2 this
    | a => Key.a this
    | c_indices => replicate (ParamSet.kappa (Key.set this)) 0
    | _ => replicate (ParamSet.n (Key.set this)) 0
    end.

(** The key as the arrays hold it. *)
Definition key_in (set : bliss_param_set_t) (m : memory)
    : private_bliss_private_key_t :=
  {| Key.set := set; Key.s1 := m s1; Key.s2 := m s2; Key.a := m a |}.

(** [static bool sign_bliss_with_sha512(this, data, signature)];
    [signature] is the chunk behind the output pointer at the call, [rng]
    what [create_rng] returns for [RNG_STRONG].  The cleanup calls
    [sampler->destroy(sampler)] unguarded: with no sampler, a null
    dereference. *)
Definition sign_bliss_with_sha512 (fuel : nat) (this : private_bliss_private_key_t)
    (data : chunk_t) (signature : chunk_t) (rng : option rng_t) : outcome result :=
  let set := Key.set this in
  (* Initialize signature *)
  let signature := chunk_empty in
  let return_false :=
    Ret {| r_success := false; r_out := signature; r_this := this; r_rng := rng |} in
  (* Create data hash *)
  match create_hasher HASH_SHA512 with
  | None => return_false
  | Some hasher =>
      match get_hash hasher data with
      | None => return_false
      | Some data_hash =>
          let '(alg, seed_len) := mgf1_alg set in
          match rng with
          | None => return_false
          | Some rng =>
              let m := initial_memory this in
              let m := store A (fft_transform (ParamSet.fft_params set) (m a) false) m in
              r ← sign_loop fuel set alg seed_len hasher data_hash
                    {| st_mem := m; st_rng := rng; st_sampler := None |};
              let success : bool := fst r in
              let st := snd r in
              let m := st_mem st in
              let signature :=
                if success
                then bliss_signature_get_encoding set (m z1) (m z2d) (m c_indices)
                else signature in
              match st_sampler st with
              | None => Fault
              | Some _ =>
                  Ret {| r_success := success; r_out := signature;
                         r_this := key_in set m; r_rng := Some (st_rng st) |}
              end
          end
      end
  end.

(** [METHOD(private_key_t, sign, bool, this, scheme, data, signature)] *)
Definition sign (fuel : nat) (this : private_bliss_private_key_t)
    (scheme : signature_scheme_t) (data : chunk_t) (signature : chunk_t)
    (rng : option rng_t) : outcome result :=
  match scheme with
  | SIGN_BLISS_WITH_SHA512 => sign_bliss_with_sha512 fuel this data signature rng
  | _ => Ret {| r_success := false; r_out := signature; r_this := this; r_rng := rng |}
  end.

(** [METHOD(private_key_t, decrypt, bool, this, scheme, crypto, plain)] *)
Definition decrypt (this : private_bliss_private_key_t)
    (scheme : encryption_scheme_t) (crypto : chunk_t) (plain : chunk_t)
    : bool * chunk_t * private_bliss_private_key_t :=
  (false, plain, this).

End WithLib.
End Sign.

(** ** The notions the statements are worded in

    The norm and the lifts as the specification words them, and the
    quantities of the code that the theorems speak of. *)

Module ZOrder <: TotalLeBool.
Definition t := Z.
Definition leb (x y : Z) : bool := x <=? y.
Theorem leb_total : forall x y, leb x y = true \/ leb y x = true.
Proof. intros x y. unfold leb. rewrite !Z.leb_le. lia. Qed.
End ZOrder.

Module ZSort := Sort ZOrder.

Module NkSpec.

(** Negative-wrapped rotation by [s]: the last [s] entries come first,
    negated; the others follow, moved up by [s]. *)
Definition rho (s : nat) (t : list Z) : list Z :=
  map Z.opp (drop (length t - s) t) ++ take (length t - s) t.

(** Inner product. *)
Definition inner (x y : list Z) : Z := foldr Z.add 0 (zip_with Z.mul x y).

(** [t[i] = <s1, rho^i s1> + <s2, rho^i s2>] for [i] in [[0, n)]. *)
Definition autocorrelation (n : nat) (s1 s2 : list Z) : list Z :=
  map (fun i => inner s1 (rho i s1) + inner s2 (rho i s2)) (seq 0 n).

(** The sum of the top [kappa] entries of [l] sorted ascending. *)
Definition sum_top (kappa : nat) (l : list Z) : Z :=
  foldr Z.add 0 (drop (length l - kappa) (ZSort.sort l)).

(** [max_kappa[i]]: the sum of the top [kappa] entries of [t] rotated by [i]. *)
Definition max_kappa (n kappa : nat) (t : list Z) : list Z :=
  map (fun i => sum_top kappa (rho i t)) (seq 0 n).

Definition Nk (s1 s2 : list Z) (n kappa : nat) : Z :=
  sum_top kappa (max_kappa n kappa (autocorrelation n s1 s2)).

End NkSpec.

Module KeySpec.

(** The lift of [s] to residues modulo [q]. *)
Definition lift (q : Z) (s : list Z) : list Z :=
  map (fun x => if x <? 0 then x + q else x) s.

(** The lift of the negated [s] to residues modulo [q]. *)
Definition lift_neg (q : Z) (s : list Z) : list Z :=
  map (fun x => if 0 <? x then q - x else - x) s.

(** The number of entries of [v] of magnitude [k]. *)
Definition entries_of_magnitude (k : Z) (v : list Z) : nat :=
  length (List.filter (fun x => Z.abs x =? k) v).

End KeySpec.

(** What the code computes on the way to the norm, without its loops. *)
Module NkCode.
Import NkSpec.

(** Every entry of [l] lies in [[-b, b]]. *)
Definition fits (b : Z) (l : list Z) : Prop := Forall (fun x => - b <= x <= b) l.

(** [f lo + f (lo + 1) + ... + f (lo + k - 1)] *)
Fixpoint sum_range (f : nat -> Z) (lo k : nat) : Z :=
  match k with
  | O => 0
  | Datatypes.S k' => f lo + sum_range f (Datatypes.S lo) k'
  end.

(** The sum of the top [kappa] cells of [l] as the code takes it: after
    [qsort] with [compare]. *)
Definition sum_top_qsort (kappa : nat) (l : list Z) : Z :=
  foldr Z.add 0 (drop (length l - kappa) (qsort compare l)).

(** The array [max_kappa] as the code fills it. *)
Definition max_kappa_qsort (kappa : nat) (t : list Z) : list Z :=
  map (fun i => to_int16 (sum_top_qsort kappa (rho i t))) (seq 0 (length t)).

End NkCode.

(** Trial division: no number from 2 up to [k - 1] divides [p]. *)
Definition no_divisor_below (p : Z) (k : nat) : bool :=
  forallb (fun d => negb (p mod (Z.of_nat d) =? 0)) (seq 2 (k - 2)).

Module KeyGenSpec.

(** The arrays [S1] and [S2] before the transform, as the code stores
    them in [uint32_t] cells. *)
Definition unsigned_s1 (q : Z) (s1 : list Z) : list Z :=
  map (fun x => to_uint32 (if x <? 0 then x + q else x)) s1.

Definition unsigned_s2 (q : Z) (s2 : list Z) : list Z :=
  map (fun x => to_uint32 (if 0 <? x then q - x else - x)) s2.

(** Between two states a generator has handed out at most [bound]
    bytes. *)
Definition drawn_within (rng rng' : option rng_t) (bound : Z) : Prop :=
  match rng, rng' with
  | Some r, Some r' => 0 <= Z.of_nat (length r) - Z.of_nat (length r') <= bound
  | None, None => 0 <= bound
  | _, _ => False
  end.

Section WithLib.
Context `{Lib}.

(** The states a bit-spender passes through as bits are drawn from it. *)
Inductive spent : bitspender_t -> bitspender_t -> Prop :=
| spent_here b : spent b b
| spent_more b b1 b2 k x :
    spent b b1 -> get_bits b1 k = Some (x, b2) -> spent b b2.

(** Drawing from [b], the bit-spender reaches a state in which it cannot
    supply the bits asked of it. *)
Definition exhausted (n_bits : nat) (b : bitspender_t) : Prop :=
  exists b', spent b b' /\ (get_bits b' n_bits = None \/ get_bits b' 1%nat = None).

(** A secret that [create_secret] accepts. *)
Definition good_secret (set : bliss_param_set_t) (s1 s2 : list Z) : Prop :=
  length s1 = ParamSet.n set /\ length s2 = ParamSet.n set /\
  Forall (fun x => - 2 <= x <= 2) s1 /\ Forall (fun x => - 4 <= x <= 5) s2 /\
  nks_norm s1 s2 (ParamSet.n set) (ParamSet.kappa set) < ParamSet.nks_max set.

(** What holds of a secret the [do ... while] loop succeeds with. *)
Definition derived_ok (set : bliss_param_set_t) (d : derived) : Prop :=
  let q := ParamSet.q set in
  let S1 := fft_transform (ParamSet.fft_params set) (unsigned_s1 q (d_s1 d)) false in
  let S2 := fft_transform (ParamSet.fft_params set) (unsigned_s2 q (d_s2 d)) false in
  good_secret set (d_s1 d) (d_s2 d) /\
  length (d_A d) = ParamSet.n set /\
  forall j, (j < ParamSet.n set)%nat ->
    rd S1 j <> 0 /\
    exists x, invert (rd S1 j) q = Some x /\
              rd (d_A d) j = to_uint32 (rd S2 j * x) mod q.

End WithLib.

End KeyGenSpec.

Module SignSpec.
Import Sign.

(** What the specification asks of [z2d[i]]: congruent to
    [ud[i] - uz2d[i]] modulo [p], and in the half-open interval
    [(-p/2, p/2]]. *)
Definition dropped_bits_ok (p : Z) (ud_i uz2d_i z2d_i : Z) : Prop :=
  (z2d_i - (ud_i - uz2d_i)) mod p = 0 /\ - p < 2 * z2d_i <= p.

(** The three arrays of the key hold in [m'] what they hold in [m]. *)
Definition key_untouched (m m' : memory) : Prop :=
  m' s1 = m s1 /\ m' s2 = m s2 /\ m' a = m a.

(** An array that is not one of the key's. *)
Definition scratch (b : buffer) : Prop := b <> s1 /\ b <> s2 /\ b <> a.

(** The bytes a run drew: what the generator held at the call without what
    it still holds afterwards. *)
Definition consumed (rng_in rng_out : rng_t) : list Byte.byte :=
  take (length rng_in - length rng_out) rng_in.

Section WithLib.
Context `{Lib}.

(** The bytes a call of [sign] drew from the generator [rng]. *)
Definition bytes_drawn (rng : rng_t) (r : result) : list Byte.byte :=
  match r_rng r with
  | Some rng_out => consumed rng rng_out
  | None => []
  end.

End WithLib.

End SignSpec.

(** ** A small instance of the library

    A ring of degree 2 modulo 5 with an exact transform, and stand-ins for
    the hash, the bit-spender and the sampler that are driven by the seed
    bytes.  It serves to run the definitions on concrete inputs. *)

Module Toy.

Definition fft_params : bliss_fft_params_t := {| FFTParams.q := 5; FFTParams.n := 2 |}.

Definition set : bliss_param_set_t :=
  {| ParamSet.oid := 1; ParamSet.strength := 128; ParamSet.q := 5;
     ParamSet.q2_inv := 3; ParamSet.n := 2; ParamSet.n_bits := 1;
     ParamSet.fft_params := fft_params;
     ParamSet.non_zero1 := 1; ParamSet.non_zero2 := 0; ParamSet.kappa := 1;
     ParamSet.nks_max := 100; ParamSet.p := 4; ParamSet.M := 10 |}.

(** Bits of a chunk, least significant bit of each byte first. *)
Definition bits_of_byte (b : Byte.byte) : list bool :=
  let '(b0, (b1, (b2, (b3, (b4, (b5, (b6, b7))))))) := Byte.to_bits b in
  [b0; b1; b2; b3; b4; b5; b6; b7].

Definition bits_of_chunk (c : chunk_t) : list bool := concat (map bits_of_byte c).

(** The number a list of bits spells, first bit lowest. *)
Fixpoint number_of_bits (bits : list bool) : Z :=
  match bits with
  | [] => 0
  | b :: bits => Z.b2z b + 2 * number_of_bits bits
  end.

Definition spend (bits : list bool) (k : nat) : option (Z * list bool) :=
  if (k <=? length bits)%nat then Some (number_of_bits (take k bits), drop k bits)
  else None.

(** The transform of [Z5[x]/(x^2+1)]: evaluation at the roots 2 and 3 of
    [x^2 + 1], and its inverse. *)
Definition transform (_ : bliss_fft_params_t) (v : list Z) (inverse : bool) : list Z :=
  match v with
  | [v0; v1] =>
      if inverse then [(3 * (v0 + v1)) mod 5; (4 * (v0 - v1)) mod 5]
      else [(v0 + 2 * v1) mod 5; (v0 + 3 * v1) mod 5]
  | _ => v
  end.

(** A sampler that spends the bits of its seed: two bits for a value in
    [{-1, 0, 1, 2}], one bit for each decision. *)
Definition draw_value (bits : list bool) : option (Z * list bool) :=
  match spend bits 2 with
  | Some (x, bits) => Some (x - 1, bits)
  | None => None
  end.

Definition draw_bool (bits : list bool) : option (bool * list bool) :=
  match bits with
  | b :: bits => Some (b, bits)
  | [] => None
  end.

Definition scalar_product (x y : list Z) (n : nat) : Z :=
  for_loop n 0 (fun i acc => acc + rd x i * rd y i) 0.

Definition byte_of_Z (z : Z) : Byte.byte :=
  match Byte.of_N (Z.to_N (z mod 256)) with
  | Some b => b
  | None => Byte.x00
  end.

Lemma transform_length params src inverse :
  length (transform params src inverse) = length src.
Proof.
  unfold transform. destruct src as [|v0 [|v1 [|v2 src]]]; try reflexivity.
  destruct inverse; reflexivity.
Qed.

#[global] Instance lib : Lib :=
  {| bitspender_t := list bool;
     mgf1_bitspender_create := fun _ seed => Some (bits_of_chunk seed);
     get_bits := spend;
     fft_transform := transform;
     fft_transform_length := transform_length;
     hasher_t := unit;
     create_hasher := fun _ => Some tt;
     get_hash := fun _ data => Some data;
     bliss_sampler_t := list bool;
     bliss_sampler_create := fun _ seed _ => Some (bits_of_chunk seed);
     gaussian := draw_value;
     bernoulli_exp := fun s _ => draw_bool s;
     bernoulli_cosh := fun s _ => draw_bool s;
     sampler_sign := draw_bool;
     bliss_utils_round_and_drop :=
       fun set u => map (fun x => ((x + 1) / 2) mod ParamSet.p set) u;
     bliss_utils_generate_c :=
       fun _ _ _ _ kappa => Some (map Z.of_nat (seq 0 kappa));
     bliss_utils_scalar_product := scalar_product;
     bliss_utils_check_norms := fun _ _ _ => true;
     bliss_signature_get_encoding :=
       fun _ z1 z2d c_indices => map byte_of_Z (z1 ++ z2d ++ c_indices);
     bliss_param_set_get_by_id := fun id => if id =? 1 then Some set else None |}.

(** A generator that hands out [k] copies of the byte [b]. *)
Definition constant_rng (b : Byte.byte) (k : nat) : rng_t := replicate k b.

Definition key : private_bliss_private_key_t :=
  {| Key.set := set; Key.s1 := [0; -1]; Key.s2 := [1; -2]; Key.a := [3; 4] |}.

(** What [bliss_private_key_gen] returns when every byte of the generator
    is [03], and the key in it. *)
Definition generated_key : private_bliss_private_key_t :=
  {| Key.set := set; Key.s1 := [0; 1]; Key.s2 := [1; 2]; Key.a := [3; 1] |}.

Definition generated : gen_result :=
  {| gen_key := Some generated_key; gen_trials := 1;
     gen_rng := Some (constant_rng Byte.x03 160) |}.

(** The vector [create_vector_from_seed] draws from the seed [01]. *)
Definition vector : list Z := [0; -1].

(** The claim at the cell [i] of the key of the small instance. *)
Definition relation_at (i : nat) : Prop :=
  let S1 := transform fft_params (KeySpec.lift 5 [0; 1]) false in
  let S2 := transform fft_params (KeySpec.lift_neg 5 [1; 2]) false in
  let A := transform fft_params [3; 1] false in
  rd S1 i <> 0 /\
  (exists x, invert (rd S1 i) 5 = Some x /\ rd A i = (rd S2 i * x) mod 5) /\
  (rd S1 i * rd A i) mod 5 = rd S2 i mod 5.

(** Arrays for the examples: [ud] (which is [z2d]) and [uz2d]. *)
Definition z2d_arrays (ud uz2d : list Z) : Sign.memory :=
  Sign.store Sign.uz2d uz2d (Sign.store Sign.ud ud (fun _ => [])).

(** The claim at the cell [i] of the example arrays, for [p = 24]. *)
Definition z2d_ok (i : nat) : Prop :=
  let m := z2d_arrays [0; 23; 12] [23; 0; 0] in
  SignSpec.dropped_bits_ok 24 (Sign.load m Sign.ud i) (Sign.load m Sign.uz2d i)
    (Sign.load (Sign.derive_z2d 24 (to_uint16 (24 / 2)) 3 m) Sign.z2d i).

End Toy.

(** ** More notions for the statements *)

Module ChallengeSpec.
Import NkSpec NkCode.

(** Coefficient [i] of the product of [s] with the challenge polynomial,
    the sum of [x ^ c_indices[j]] over [j < kappa], in the ring of
    polynomials modulo [x^n + 1]: multiplying by [x^k] is the negative-wrapped
    rotation by [k]. *)
Definition times_challenge (s c_indices : list Z) (kappa i : nat) : Z :=
  sum_range (fun j => rd (rho (Z.to_nat (rd c_indices j)) s) i) 0 kappa.

End ChallengeSpec.

Module SecretSpec.
Import KeySpec.

(** A vector with the densities of the parameter set: [n] entries,
    [non_zero1] of them +1 or -1, [non_zero2] of them +2 or -2, the others
    zero. *)
Definition sparse (set : bliss_param_set_t) (v : list Z) : Prop :=
  length v = ParamSet.n set /\
  entries_of_magnitude 1 v = ParamSet.non_zero1 set /\
  entries_of_magnitude 2 v = ParamSet.non_zero2 set /\
  (entries_of_magnitude 0 v + ParamSet.non_zero1 set + ParamSet.non_zero2 set
   = ParamSet.n set)%nat.

(** The polynomial [2g + 1]: every coefficient doubled, and one added to
    the constant term. *)
Definition two_g_plus_one (g : list Z) : list Z :=
  match map (Z.mul 2) g with
  | [] => []
  | c0 :: cs => (c0 + 1) :: cs
  end.

(** A secret [(s1, s2)] as key generation builds it: [s1 = f] and
    [s2 = 2g + 1] for two vectors [f], [g] with the densities of the set. *)
Definition secret_shape (set : bliss_param_set_t) (s1 s2 : list Z) : Prop :=
  sparse set s1 /\ exists g, sparse set g /\ s2 = two_g_plus_one g.


End SecretSpec.

(** Data for the examples. *)
Module Examples.

(** A generator with two seeds of 20 bytes and five bytes more. *)
Definition two_seeds : rng_t :=
  replicate 20 Byte.x00 ++ replicate 20 Byte.xff ++ replicate 5 Byte.x00.

(** Arrays for [multiply_by_c]: a secret of four coefficients and the
    challenge [x + x^3]. *)
Definition challenge_memory : Sign.memory :=
  Sign.store Sign.s1 [1; -1; 0; 2]
    (Sign.store Sign.c_indices [1; 3] (fun _ => replicate 4 0)).

End Examples.

(** ** Loading a key from its ASN.1 encoding *)

Module Load.

(** The parts [bliss_private_key_load] tells apart in its [va_list]; every
    part other than the two it names is [BUILD_OTHER]. *)
Inductive part_t := BUILD_BLOB_ASN1_DER (blob : chunk_t) | BUILD_END | BUILD_OTHER.

(** [privkeyObjects]: the numbers of the four objects of a
    [BLISSPrivateKey]. *)
Definition PRIV_KEY_TYPE : Z := 1.
Definition PRIV_KEY_PUBLIC : Z := 2.
Definition PRIV_KEY_SECRET1 : Z := 3.
Definition PRIV_KEY_SECRET2 : Z := 4.

(** The ASN.1 parser and the helpers of other files.  [asn1_parse key] is
    the run of an [asn1_parser_t] over [privkeyObjects] on [key]: the
    objects [iterate] yields in turn, each with its [objectID], and what
    [success] reports once [iterate] has returned FALSE. *)
Class Asn1 := {
  asn1_parse : chunk_t -> list (Z * chunk_t) * bool;
  asn1_known_oid : chunk_t -> Z;
  OID_UNKNOWN : Z;
  bliss_param_set_get_by_oid : Z -> option bliss_param_set_t;
  bliss_public_key_from_asn1 : chunk_t -> nat -> list Z
}.

(** The object under construction: [set], [s1], [s2] and [a] are pointers
    that [bliss_private_key_create_empty] leaves NULL. *)
Record object_t := {
  set : option bliss_param_set_t;
  s1 : option (list Z);
  s2 : option (list Z);
  a : option (list Z)
}.

Definition bliss_private_key_create_empty : object_t :=
  {| set := None; s1 := None; s2 := None; a := None |}.

(** [memcpy] of a chunk into an [int8_t] array. *)
Definition int8_of_bytes (object : chunk_t) : list Z :=
  map (fun b => to_int8 (Z.of_N (Byte.to_N b))) object.

(** The loop over its [va_list]: the last blob given, [Ret None] for the
    [return NULL] of the default case; reading past the last argument is
    undefined. *)
Fixpoint load_args (args : list part_t) (key : chunk_t) : outcome (option chunk_t) :=
  match args with
  | [] => Fault
  | BUILD_BLOB_ASN1_DER blob :: args => load_args args blob
  | BUILD_END :: _ => Ret (Some key)
  | BUILD_OTHER :: _ => Ret None
  end.

Section WithAsn1.
Context `{Asn1}.

(** [while (parser->iterate(parser, &objectID, &object))] over the objects
    the parser yields; [Ret None] is [goto end].  [this->set->n] with no
    set is a null dereference. *)
Fixpoint load_objects (objects : list (Z * chunk_t)) (this : object_t)
    : outcome (option object_t) :=
  match objects with
  | [] => Ret (Some this)
  | (objectID, object) :: objects =>
      if objectID =? PRIV_KEY_TYPE then
        let oid := asn1_known_oid object in
        if oid =? OID_UNKNOWN then Ret None
        else
          match bliss_param_set_get_by_oid oid with
          | None => Ret None
          | Some set' =>
              load_objects objects
                {| set := Some set'; s1 := s1 this; s2 := s2 this; a := a this |}
          end
      else if objectID =? PRIV_KEY_PUBLIC then
        match set this with
        | None => Fault
        | Some set' =>
            if negb (length object =? 2 * ParamSet.n set')%nat then Ret None
            else
              load_objects objects
                {| set := set this; s1 := s1 this; s2 := s2 this;
                   a := Some (bliss_public_key_from_asn1 object (ParamSet.n set')) |}
        end
      else if objectID =? PRIV_KEY_SECRET1 then
        match set this with
        | None => Fault
        | Some set' =>
            if negb (length object =? ParamSet.n set')%nat then Ret None
            else
              load_objects objects
                {| set := set this; s1 := Some (int8_of_bytes object);
                   s2 := s2 this; a := a this |}
        end
      else if objectID =? PRIV_KEY_SECRET2 then
        match set this with
        | None => Fault
        | Some set' =>
            if negb (length object =? ParamSet.n set')%nat then Ret None
            else
              load_objects objects
                {| set := set this; s1 := s1 this;
                   s2 := Some (int8_of_bytes object); a := a this |}
        end
      else load_objects objects this
  end.

(** [bliss_private_key_t *bliss_private_key_load(key_type_t type, va_list args)];
    [Ret None] is NULL. *)
Definition bliss_private_key_load (args : list part_t) : outcome (option object_t) :=
  key ← load_args args chunk_empty;
  match key with
  | None => Ret None
  | Some key =>
      if (length key =? 0)%nat then Ret None
      else
        let this := bliss_private_key_create_empty in
        let '(objects, parser_success) := asn1_parse key in
        r ← load_objects objects this;
        match r with
        | None => Ret None
        | Some this => if parser_success then Ret (Some this) else Ret None
        end
  end.

(** The key the four objects describe, when they fit together. *)
Definition described (o1 o2 o3 o4 : chunk_t) (this : object_t) : Prop :=
  asn1_known_oid o1 <> OID_UNKNOWN /\
  exists set',
    bliss_param_set_get_by_oid (asn1_known_oid o1) = Some set' /\
    length o2 = (2 * ParamSet.n set')%nat /\
    length o3 = ParamSet.n set' /\ length o4 = ParamSet.n set' /\
    this = {| set := Some set'; s1 := Some (int8_of_bytes o3);
              s2 := Some (int8_of_bytes o4);
              a := Some (bliss_public_key_from_asn1 o2 (ParamSet.n set')) |}.

End WithAsn1.

(** Of the objects the parser yields, the four the loop acts on. *)
Definition acted_on (objects : list (Z * chunk_t)) : list (Z * chunk_t) :=
  List.filter (fun o => (1 <=? fst o) && (fst o <=? 4)) objects.

(** A small instance for the examples: a blob of nine bytes holds one
    byte for the key type, four for the public key (two coefficients of 16
    bits) and two for each secret. *)
Module ToyAsn1.

Definition parse (key : chunk_t) : list (Z * chunk_t) * bool :=
  ([(0, key); (PRIV_KEY_TYPE, take 1 key); (PRIV_KEY_PUBLIC, take 4 (drop 1 key));
    (PRIV_KEY_SECRET1, take 2 (drop 5 key)); (PRIV_KEY_SECRET2, take 2 (drop 7 key))],
   (length key =? 9)%nat).

Definition known_oid (object : chunk_t) : Z :=
  match object with
  | [b] => Z.of_N (Byte.to_N b)
  | _ => -1
  end.

Fixpoint from_asn1 (object : chunk_t) (n : nat) : list Z :=
  match n, object with
  | Datatypes.S n', hi :: lo :: object' =>
      (256 * Z.of_N (Byte.to_N hi) + Z.of_N (Byte.to_N lo)) :: from_asn1 object' n'
  | _, _ => []
  end.

#[global] Instance asn1 : Asn1 :=
  {| asn1_parse := parse;
     asn1_known_oid := known_oid;
     OID_UNKNOWN := -1;
     bliss_param_set_get_by_oid := fun oid => if oid =? 1 then Some Toy.set else None;
     bliss_public_key_from_asn1 := from_asn1 |}.

(** The blob of the key [(s1, s2, a) = ([0; -1], [1; -2], [3; 4])]. *)
Definition blob : chunk_t :=
  [Byte.x01; Byte.x00; Byte.x03; Byte.x00; Byte.x04;
   Byte.x00; Byte.xff; Byte.x01; Byte.xfe].

Definition loaded : object_t :=
  {| set := Some Toy.set; s1 := Some [0; -1]; s2 := Some [1; -2]; a := Some [3; 4] |}.

End ToyAsn1.

End Load.

(** ** Two more instances of the library, for runs of key generation *)

(** The small instance with a norm bound of 5, which some of its secrets
    pass and some do not. *)
Module Strict.

Definition set : bliss_param_set_t :=
  {| ParamSet.oid := 1; ParamSet.strength := 128; ParamSet.q := 5;
     ParamSet.q2_inv := 3; ParamSet.n := 2; ParamSet.n_bits := 1;
     ParamSet.fft_params := Toy.fft_params;
     ParamSet.non_zero1 := 1; ParamSet.non_zero2 := 0; ParamSet.kappa := 1;
     ParamSet.nks_max := 5; ParamSet.p := 4; ParamSet.M := 10 |}.

Definition lib : Lib :=
  {| bitspender_t := list bool;
     mgf1_bitspender_create := fun _ seed => Some (Toy.bits_of_chunk seed);
     get_bits := Toy.spend;
     fft_transform := Toy.transform;
     fft_transform_length := Toy.transform_length;
     hasher_t := unit;
     create_hasher := fun _ => Some tt;
     get_hash := fun _ data => Some data;
     bliss_sampler_t := list bool;
     bliss_sampler_create := fun _ seed _ => Some (Toy.bits_of_chunk seed);
     gaussian := Toy.draw_value;
     bernoulli_exp := fun s _ => Toy.draw_bool s;
     bernoulli_cosh := fun s _ => Toy.draw_bool s;
     sampler_sign := Toy.draw_bool;
     bliss_utils_round_and_drop :=
       fun set u => map (fun x => ((x + 1) / 2) mod ParamSet.p set) u;
     bliss_utils_generate_c :=
       fun _ _ _ _ kappa => Some (map Z.of_nat (seq 0 kappa));
     bliss_utils_scalar_product := Toy.scalar_product;
     bliss_utils_check_norms := fun _ _ _ => true;
     bliss_signature_get_encoding :=
       fun _ z1 z2d c_indices => map Toy.byte_of_Z (z1 ++ z2d ++ c_indices);
     bliss_param_set_get_by_id := fun id => if id =? 1 then Some set else None |}.


Definition generated_key : private_bliss_private_key_t :=
  {| Key.set := set; Key.s1 := [0; 1]; Key.s2 := [-1; 0]; Key.a := [0; 4] |}.

Definition generated : gen_result :=
  {| gen_key := Some generated_key; gen_trials := 2;
     gen_rng := Some (replicate 7 Byte.x00) |}.



End Strict.

(** An instance with dense secrets: a ring of degree 128 in which all 128
    coefficients of a vector are +2 or -2, a bit-spender that hands out the
    positions 0, 1, 2, ... in turn with the sign bit always 1, and a
    transform that leaves its vector as it is. *)
Module Dense.

Definition fft_params : bliss_fft_params_t :=
  {| FFTParams.q := 12289; FFTParams.n := 128 |}.

Definition set : bliss_param_set_t :=
  {| ParamSet.oid := 1; ParamSet.strength := 128; ParamSet.q := 12289;
     ParamSet.q2_inv := 6145; ParamSet.n := 128; ParamSet.n_bits := 7;
     ParamSet.fft_params := fft_params;
     ParamSet.non_zero1 := 0; ParamSet.non_zero2 := 128; ParamSet.kappa := 128;
     ParamSet.nks_max := 2000000; ParamSet.p := 24; ParamSet.M := 10 |}.

Definition count (b : nat) (k : nat) : option (Z * nat) :=
  if (k =? 1)%nat then Some (1, b)
  else Some (Z.of_nat b mod 2 ^ Z.of_nat k, Datatypes.S b).

Definition lib : Lib :=
  {| bitspender_t := nat;
     mgf1_bitspender_create := fun _ _ => Some 0%nat;
     get_bits := count;
     fft_transform := fun _ v _ => v;
     fft_transform_length := fun _ _ _ => eq_refl;
     hasher_t := unit;
     create_hasher := fun _ => Some tt;
     get_hash := fun _ data => Some data;
     bliss_sampler_t := list bool;
     bliss_sampler_create := fun _ seed _ => Some (Toy.bits_of_chunk seed);
     gaussian := Toy.draw_value;
     bernoulli_exp := fun s _ => Toy.draw_bool s;
     bernoulli_cosh := fun s _ => Toy.draw_bool s;
     sampler_sign := Toy.draw_bool;
     bliss_utils_round_and_drop :=
       fun set u => map (fun x => ((x + 1) / 2) mod ParamSet.p set) u;
     bliss_utils_generate_c :=
       fun _ _ _ _ kappa => Some (map Z.of_nat (seq 0 kappa));
     bliss_utils_scalar_product := Toy.scalar_product;
     bliss_utils_check_norms := fun _ _ _ => true;
     bliss_signature_get_encoding :=
       fun _ z1 z2d c_indices => map Toy.byte_of_Z (z1 ++ z2d ++ c_indices);
     bliss_param_set_get_by_id := fun id => if id =? 1 then Some set else None |}.

(** The secret of its one trial: [f] with every coefficient 2, and
    [2g + 1] for the same [g]. *)
Definition s1 : list Z := replicate 128 2.
Definition s2 : list Z := 5 :: replicate 127 4.

End Dense.

(** * Properties *)

(** ** Conversions, arrays and loops *)

Lemma to_uint16_small z : 0 <= z < 2 ^ 16 -> to_uint16 z = z.
Proof. intros Hz. apply Z.mod_small. exact Hz. Qed.

Lemma to_uint32_small z : 0 <= z < 2 ^ 32 -> to_uint32 z = z.
Proof. intros Hz. apply Z.mod_small. exact Hz. Qed.

Lemma to_int16_small z : - 2 ^ 15 <= z < 2 ^ 15 -> to_int16 z = z.
Proof.
  intros Hz. unfold to_int16, to_signed.
  change (16 - 1) with 15. rewrite Z.mod_small; lia.
Qed.

Lemma to_int8_small z : - 2 ^ 7 <= z < 2 ^ 7 -> to_int8 z = z.
Proof.
  intros Hz. unfold to_int8, to_signed.
  change (8 - 1) with 7. rewrite Z.mod_small; lia.
Qed.

Lemma to_int16_range z : - 2 ^ 15 <= to_int16 z < 2 ^ 15.
Proof.
  unfold to_int16, to_signed. change (16 - 1) with 15.
  pose proof (Z.mod_pos_bound (z + 2 ^ 15) (2 ^ 16) ltac:(lia)). lia.
Qed.

(** Storing into an [int16_t] commutes with addition: of a chain of
    additions only the last conversion matters. *)
Lemma to_int16_add_l x y : to_int16 (to_int16 x + y) = to_int16 (x + y).
Proof.
  unfold to_int16, to_signed. change (16 - 1) with 15. f_equal.
  replace ((x + 2 ^ 15) mod 2 ^ 16 - 2 ^ 15 + y + 2 ^ 15)
    with ((x + 2 ^ 15) mod 2 ^ 16 + y) by lia.
  rewrite Zplus_mod_idemp_l. f_equal. lia.
Qed.

Lemma rd_insert_eq (v : list Z) i x : (i < length v)%nat -> rd (<[i:=x]> v) i = x.
Proof. intros Hi. unfold rd. rewrite list_lookup_insert_eq; auto. Qed.

Lemma rd_insert_ne (v : list Z) i j x : i <> j -> rd (<[i:=x]> v) j = rd v j.
Proof. intros Hij. unfold rd. rewrite list_lookup_insert_ne; auto. Qed.

Lemma rd_nth (v : list Z) i : rd v i = nth i v 0.
Proof. unfold rd. rewrite nth_lookup. reflexivity. Qed.

Lemma rd_cons_S (x : Z) v i : rd (x :: v) (Datatypes.S i) = rd v i.
Proof. reflexivity. Qed.

Lemma rd_ext (v w : list Z) :
  length v = length w -> (forall i, (i < length v)%nat -> rd v i = rd w i) -> v = w.
Proof.
  intros Hl Hrd. apply (nth_ext v w 0 0 Hl).
  intros i Hi. rewrite <- !rd_nth. apply Hrd, Hi.
Qed.

Lemma rd_In (v : list Z) i : (i < length v)%nat -> In (rd v i) v.
Proof. intros Hi. rewrite rd_nth. apply nth_In, Hi. Qed.

Lemma rd_map (f : Z -> Z) (v : list Z) i :
  (i < length v)%nat -> rd (map f v) i = f (rd v i).
Proof.
  intros Hi. rewrite !rd_nth.
  rewrite (nth_indep (map f v) 0 (f 0)) by (rewrite length_map; exact Hi).
  apply map_nth.
Qed.

Lemma rd_map_seq (f : nat -> Z) n i :
  (i < n)%nat -> rd (map f (seq 0 n)) i = f i.
Proof.
  intros Hi. rewrite rd_nth.
  rewrite (nth_indep _ 0 (f 0%nat)) by (rewrite length_map, length_seq; exact Hi).
  rewrite map_nth, seq_nth by exact Hi. reflexivity.
Qed.

Lemma for_loop_inv {S : Type} (P : nat -> S -> Prop) k lo (body : nat -> S -> S) s :
  P lo s ->
  (forall i s, (lo <= i < lo + k)%nat -> P i s -> P (Datatypes.S i) (body i s)) ->
  P (lo + k)%nat (for_loop k lo body s).
Proof.
  revert lo s. induction k as [|k IH]; intros lo s H0 Hstep.
  - rewrite Nat.add_0_r. exact H0.
  - simpl. replace (lo + Datatypes.S k)%nat with (Datatypes.S lo + k)%nat by lia.
    apply IH.
    + apply Hstep; [lia | exact H0].
    + intros i s' Hi. apply Hstep. lia.
Qed.

Lemma for_loop_ext {S : Type} k lo (f g : nat -> S -> S) s :
  (forall i s, (lo <= i < lo + k)%nat -> f i s = g i s) ->
  for_loop k lo f s = for_loop k lo g s.
Proof.
  revert lo s. induction k as [|k IH]; intros lo s Hfg; [reflexivity|].
  simpl. rewrite Hfg by lia. apply IH. intros i s' Hi. apply Hfg. lia.
Qed.

(** A loop that stores [f i] at cell [i] of an array of [n] cells builds
    the array of the [f i]. *)
Lemma for_loop_fill (f : nat -> Z) n (v : list Z) :
  length v = n ->
  for_loop n 0 (fun i v => <[i := f i]> v) v = map f (seq 0 n).
Proof.
  intros Hv.
  assert (Hinv : length (for_loop n 0 (fun i v => <[i := f i]> v) v) = n /\
                 forall j, (j < 0 + n)%nat ->
                   rd (for_loop n 0 (fun i v => <[i := f i]> v) v) j = f j).
  { apply (for_loop_inv
             (fun i w => length w = n /\ forall j, (j < i)%nat -> rd w j = f j)).
    - split; [exact Hv | intros j Hj; lia].
    - intros i w Hi [Hl Hw]. split.
      + rewrite length_insert. exact Hl.
      + intros j Hj. destruct (Nat.eq_dec i j) as [->|Hne].
        * apply rd_insert_eq. lia.
        * rewrite rd_insert_ne by exact Hne. apply Hw. lia. }
  destruct Hinv as [Hl Hrd]. apply rd_ext.
  - rewrite Hl, length_map, length_seq. reflexivity.
  - intros i Hi. rewrite Hl in Hi. rewrite Hrd by lia.
    rewrite rd_map_seq by exact Hi. reflexivity.
Qed.

(** ** Primality by trial division, for concrete moduli *)

(** No divisor from 2 up to a bound past the square root: a prime. *)
Lemma no_divisor_below_prime p k :
  1 < p -> p < Z.of_nat k * Z.of_nat k -> no_divisor_below p k = true -> Z.prime p.
Proof.
  intros Hp Hk Hchk. split; [exact Hp|].
  intros d Hd [c Hc].
  unfold no_divisor_below in Hchk. rewrite forallb_forall in Hchk.
  assert (Hc1 : 1 < c < p) by nia.
  assert (Hno : forall e, 1 < e < Z.of_nat k -> p mod e <> 0).
  { intros e He. specialize (Hchk (Z.to_nat e)).
    assert (Hin : In (Z.to_nat e) (seq 2 (k - 2))) by (apply in_seq; lia).
    apply Hchk in Hin. rewrite Z2Nat.id in Hin by lia.
    apply negb_true_iff, Z.eqb_neq in Hin. exact Hin. }
  destruct (Z_lt_le_dec d (Z.of_nat k)) as [Hdk|Hdk].
  - apply (Hno d); [lia|]. rewrite Hc. apply Z.mod_mul. lia.
  - assert (Hck : c < Z.of_nat k) by nia.
    apply (Hno c); [lia|]. rewrite Hc, Z.mul_comm. apply Z.mod_mul. lia.
Qed.

(** ** [invert] *)

Lemma land_pow2 x i :
  0 <= i -> Z.land x (2 ^ i) = if Z.testbit x i then 2 ^ i else 0.
Proof.
  intros Hi. apply Z.bits_inj'. intros k Hk.
  rewrite Z.land_spec, Z.pow2_bits_eqb by exact Hi.
  destruct (Z.eqb_spec i k) as [->|Hne].
  - rewrite andb_true_r. destruct (Z.testbit x k) eqn:E.
    + rewrite Z.pow2_bits_eqb, Z.eqb_refl by exact Hk. reflexivity.
    + rewrite Z.bits_0. reflexivity.
  - rewrite andb_false_r. destruct (Z.testbit x i).
    + rewrite Z.pow2_bits_eqb by exact Hi.
      symmetry. apply Z.eqb_neq. exact Hne.
    + rewrite Z.bits_0. reflexivity.
Qed.

Lemma bit_test x i :
  0 <= i -> (Z.land x (Z.shiftl 1 i) =? 0) = negb (Z.testbit x i).
Proof.
  intros Hi. rewrite Z.shiftl_1_l, land_pow2 by exact Hi.
  destruct (Z.testbit x i); simpl.
  - apply Z.eqb_neq. pose proof (Z.pow_pos_nonneg 2 i). lia.
  - reflexivity.
Qed.

(** The low [i + 1] bits of [e], from its low [i] bits and bit [i]. *)
Lemma low_bits_succ e i :
  0 <= e -> 0 <= i ->
  e mod 2 ^ (i + 1) = e mod 2 ^ i + (if Z.testbit e i then 2 ^ i else 0).
Proof.
  intros He Hi.
  pose proof (Z.testbit_spec' e i Hi) as Hb.
  assert (Hpos : 0 < 2 ^ i) by (apply Z.pow_pos_nonneg; lia).
  rewrite Z.pow_add_r, Z.pow_1_r by lia.
  rewrite Z.rem_mul_r by lia.
  rewrite <- Hb. destruct (Z.testbit e i); simpl; lia.
Qed.

Lemma invert_i_max_some q2 k :
  0 < q2 < 2 ^ (Z.of_nat k + 1) ->
  exists m, invert_i_max q2 k = Some m /\ q2 < 2 ^ (Z.of_nat m + 1).
Proof.
  induction k as [|k IH]; intros Hq; simpl invert_i_max.
  - rewrite bit_test by lia.
    assert (q2 = 1) as -> by (change (2 ^ (Z.of_nat 0 + 1)) with 2 in Hq; lia).
    simpl. exists 0%nat. split; [reflexivity | simpl; lia].
  - rewrite bit_test by lia.
    destruct (Z.testbit q2 (Z.of_nat (Datatypes.S k))) eqn:Eb; simpl.
    + exists (Datatypes.S k). split; [reflexivity | lia].
    + apply IH.
      pose proof (low_bits_succ q2 (Z.of_nat (Datatypes.S k)) ltac:(lia) ltac:(lia)) as Hl.
      rewrite Eb, Z.add_0_r in Hl.
      rewrite Z.mod_small in Hl by lia.
      pose proof (Z.mod_pos_bound q2 (2 ^ Z.of_nat (Datatypes.S k))
                    ltac:(apply Z.pow_pos_nonneg; lia)) as Hb.
      replace (Z.of_nat k + 1) with (Z.of_nat (Datatypes.S k)) by lia. lia.
Qed.

(** The invariant of the square-and-multiply loop: entering round [i], [x2]
    is [x ^ (2 ^ (i - 1))] and [x1] is [x] to the low [i] bits of [q2]. *)
Lemma invert_loop_pow q q2 x count i x1 x2 :
  1 < q < 2 ^ 16 -> 0 <= q2 -> 1 <= i ->
  x2 = x ^ (2 ^ (i - 1)) mod q ->
  x1 = x ^ (q2 mod 2 ^ i) mod q ->
  invert_loop q q2 count i x1 x2 = x ^ (q2 mod 2 ^ (i + Z.of_nat count)) mod q.
Proof.
  intros Hq Hq2. revert i x1 x2.
  induction count as [|c IH]; intros i x1 x2 Hi Hx2 Hx1.
  - simpl. rewrite Z.add_0_r. exact Hx1.
  - cbn [invert_loop].
    assert (Hb2 : 0 <= x2 < q) by (subst x2; apply Z.mod_pos_bound; lia).
    assert (Hb1 : 0 <= x1 < q) by (subst x1; apply Z.mod_pos_bound; lia).
    assert (Hsq : to_uint32 (x2 * x2) mod q = x ^ (2 ^ i) mod q).
    { rewrite to_uint32_small by (change (2 ^ 32) with (2 ^ 16 * 2 ^ 16); nia).
      subst x2. rewrite <- Z.mul_mod by lia.
      rewrite <- Z.pow_add_r by (try apply Z.pow_nonneg; lia).
      f_equal. f_equal.
      replace i with (i - 1 + 1) at 3 by lia.
      rewrite Z.pow_add_r by lia. lia. }
    rewrite Hsq.
    assert (Hb2' : 0 <= x ^ (2 ^ i) mod q < q) by (apply Z.mod_pos_bound; lia).
    replace (i + Z.of_nat (Datatypes.S c)) with (i + 1 + Z.of_nat c) by lia.
    apply IH.
    + lia.
    + replace (i + 1 - 1) with i by lia. reflexivity.
    + rewrite bit_test by lia.
      rewrite low_bits_succ by lia.
      destruct (Z.testbit q2 i); simpl.
      * rewrite to_uint32_small by (change (2 ^ 32) with (2 ^ 16 * 2 ^ 16); nia).
        subst x1. rewrite <- Z.mul_mod by lia.
        rewrite <- Z.pow_add_r;
          [reflexivity | apply Z.mod_pos_bound; apply Z.pow_pos_nonneg; lia
          | apply Z.pow_nonneg; lia].
      * rewrite Z.add_0_r. exact Hx1.
Qed.

Lemma invert_eq x q :
  Z.prime q -> Z.odd q = true -> q < 2 ^ 16 -> 0 < x < q ->
  invert x q = Some (x ^ (q - 2) mod q).
Proof.
  intros Hp Hodd Hq Hx.
  assert (Hq3 : 3 <= q).
  { destruct Hp as [Hp1 _]. destruct (Z.eq_dec q 2) as [->|]; [discriminate | lia]. }
  unfold invert. rewrite to_uint16_small by lia.
  destruct (invert_i_max_some (q - 2) 15) as (m & Hm & Hlt).
  { change (2 ^ (Z.of_nat 15 + 1)) with (2 ^ 16). lia. }
  rewrite Hm.
  replace (q =? 0) with false by (symmetry; apply Z.eqb_neq; lia).
  cbn [andb]. f_equal.
  rewrite (invert_loop_pow q (q - 2) x m 1).
  - replace (1 + Z.of_nat m) with (Z.of_nat m + 1) by lia.
    rewrite (Z.mod_small (q - 2)) by lia. reflexivity.
  - lia.
  - lia.
  - lia.
  - change (2 ^ (1 - 1)) with 1. rewrite Z.pow_1_r, Z.mod_small by lia. reflexivity.
  - change (1 : Z) with (Z.shiftl 1 0) at 1. rewrite bit_test by lia.
    pose proof (low_bits_succ (q - 2) 0 ltac:(lia) ltac:(lia)) as Hl.
    change (2 ^ (0 + 1)) with (2 ^ 1) in Hl. rewrite Hl.
    change (2 ^ 0) with 1. rewrite Z.mod_1_r.
    destruct (Z.testbit (q - 2) 0); simpl.
    + rewrite Z.pow_1_r, Z.mod_small by lia. reflexivity.
    + rewrite Z.mod_small by lia. reflexivity.
Qed.

Lemma fermat_inverse x q :
  Z.prime q -> 3 <= q -> 0 < x < q -> (x * (x ^ (q - 2) mod q)) mod q = 1.
Proof.
  intros Hp Hq Hx.
  rewrite Z.mul_mod_idemp_r by lia.
  replace (x * x ^ (q - 2)) with (x ^ (q - 1)).
  - apply Z.fermat_nz; [exact Hp|]. rewrite Z.mod_small by lia. lia.
  - replace (q - 1) with (Z.succ (q - 2)) by lia.
    rewrite Z.pow_succ_r by lia. reflexivity.
Qed.

(** C4. For an odd prime [q] that fits in 16 bits and [0 < x < q], [invert]
    returns [x ^ (q - 2) mod q], the result of the square-and-multiply loop
    over the bits of [q - 2] up to its highest set bit, and this value is the
    inverse of [x] modulo [q]. *)
Theorem invert_correct (x q : Z) :
  Z.prime q -> Z.odd q = true -> q < 2 ^ 16 -> 0 < x < q ->
  invert x q = Some (x ^ (q - 2) mod q) /\
  (x * (x ^ (q - 2) mod q)) mod q = 1.
Proof.
  intros Hp Hodd Hq Hx. split.
  - apply invert_eq; assumption.
  - apply fermat_inverse; try assumption.
    destruct Hp as [Hp1 _]. destruct (Z.eq_dec q 2) as [->|]; [discriminate | lia].
Qed.

Lemma prime_12289 : Z.prime 12289.
Proof. apply (no_divisor_below_prime 12289 111); [lia | lia | vm_compute; reflexivity]. Qed.

Lemma invert_correct_witness :
  invert 2 12289 = Some (2 ^ (12289 - 2) mod 12289) /\
  (2 * (2 ^ (12289 - 2) mod 12289)) mod 12289 = 1.
Proof.
  apply (invert_correct 2 12289).
  - exact prime_12289.
  - reflexivity.
  - reflexivity.
  - lia.
Defined.

(** ** Signing: the dropped-bits coefficient, scheme dispatch, decryption *)

Module SignFacts.
Import Sign SignSpec.

Lemma store_same b v m : store b v m b = v.
Proof. unfold store. destruct (decide (b = b)); [reflexivity | congruence]. Qed.

Lemma store_other b b' v m : b <> b' -> store b v m b' = m b'.
Proof. intros Hb. unfold store. destruct (decide (b = b')); [congruence | reflexivity]. Qed.

Lemma write_other b b' i v m : b <> b' -> write b i v m b' = m b'.
Proof. apply store_other. Qed.

Lemma load_write_eq b i v m : (i < length (m b))%nat -> load (write b i v m) b i = v.
Proof.
  intros Hi. unfold load, write. rewrite store_same. apply rd_insert_eq, Hi.
Qed.

Lemma load_write_ne b i j v m : i <> j -> load (write b i v m) b j = load m b j.
Proof.
  intros Hij. unfold load, write. rewrite store_same. apply rd_insert_ne, Hij.
Qed.

Lemma load_write_other b b' i j v m : b <> b' -> load (write b i v m) b' j = load m b' j.
Proof. intros Hb. unfold load. rewrite write_other by exact Hb. reflexivity. Qed.

Lemma length_write b i v m : length (write b i v m b) = length (m b).
Proof. unfold write. rewrite store_same. apply length_insert. Qed.

Lemma z2d_value_ok p ud_i uz2d_i :
  0 < p < 2 ^ 16 -> Z.even p = true ->
  0 <= ud_i < p -> ud_i < 2 ^ 15 ->
  0 <= uz2d_i < p -> uz2d_i < 2 ^ 15 ->
  dropped_bits_ok p ud_i uz2d_i (z2d_value p (p / 2) ud_i uz2d_i).
Proof.
  intros Hp Hev Hud Hud16 Huz Huz16.
  assert (Hp2 : p = 2 * (p / 2)).
  { pose proof (Zeven_div2 p) as Hd. rewrite Zeven_bool_iff in Hev.
    rewrite Z.div2_div in Hd. apply Hd. exact Hev. }
  remember (p / 2) as p2 eqn:Ep2.
  change (2 ^ 16) with 65536 in Hp. change (2 ^ 15) with 32768 in *.
  unfold z2d_value, dropped_bits_ok.
  rewrite (to_int16_small (ud_i - uz2d_i)) by (change (2 ^ 15) with 32768; lia).
  destruct (Z.leb_spec (ud_i - uz2d_i) (- p2)) as [Hle|Hgt].
  - rewrite to_int16_small by (change (2 ^ 15) with 32768; lia). split.
    + replace (ud_i - uz2d_i + p - (ud_i - uz2d_i)) with (1 * p) by lia.
      apply Z.mod_mul. lia.
    + lia.
  - destruct (Z.ltb_spec p2 (ud_i - uz2d_i)) as [Hlt|Hge].
    + rewrite to_int16_small by (change (2 ^ 15) with 32768; lia). split.
      * replace (ud_i - uz2d_i - p - (ud_i - uz2d_i)) with (-1 * p) by lia.
        apply Z.mod_mul. lia.
      * lia.
    + split.
      * rewrite Z.sub_diag. apply Z.mod_0_l. lia.
      * lia.
Qed.

(** The loop reads [ud[i]] and writes [z2d[i]], the same cell, and no
    other cell of that array; [uz2d] is only read. *)
Lemma derive_z2d_cells p p2 n m :
  length (m z2d) = n ->
  forall i, (i < n)%nat ->
    load (derive_z2d p p2 n m) z2d i = z2d_value p p2 (load m ud i) (load m uz2d i).
Proof.
  intros Hlen.
  pose (P := fun (k : nat) (m' : memory) =>
               length (m' z2d) = n /\ m' uz2d = m uz2d /\
               (forall j, (j < k)%nat ->
                  load m' z2d j = z2d_value p p2 (load m ud j) (load m uz2d j)) /\
               (forall j, (k <= j)%nat -> load m' ud j = load m ud j)).
  assert (HP : P (0 + n)%nat (derive_z2d p p2 n m)).
  { unfold derive_z2d. apply (for_loop_inv P).
    - unfold P. repeat split; auto. intros j Hj. lia.
    - intros i m' Hi (Hl & Hu & Hdone & Hrest). unfold P. repeat split.
      + rewrite length_write. exact Hl.
      + rewrite write_other by discriminate. exact Hu.
      + intros j Hj. destruct (Nat.eq_dec i j) as [<-|Hne].
        * rewrite load_write_eq by lia.
          rewrite (Hrest i) by lia. unfold load at 2. rewrite Hu. reflexivity.
        * rewrite load_write_ne by exact Hne. apply Hdone. lia.
      + intros j Hj. unfold ud. rewrite load_write_ne by lia.
        apply (Hrest j). lia. }
  destruct HP as (_ & _ & Hdone & _). intros i Hi. apply Hdone. lia.
Qed.

End SignFacts.

(** C6, as amended.  For an even [p], with [ud[i]] and [uz2d[i]] in
    [[0, p)] (cells of [int16_t] arrays), the loop that derives [z2d] leaves
    in every cell [i < n] a value congruent to [ud[i] - uz2d[i]] modulo [p]
    that lies in [(-p/2, p/2]]. *)
Theorem derive_z2d_centered (p : Z) (n : nat) (m : Sign.memory) :
  0 < p < 2 ^ 16 -> Z.even p = true ->
  length (m Sign.z2d) = n ->
  (forall i, (i < n)%nat ->
     0 <= Sign.load m Sign.ud i < p /\ Sign.load m Sign.ud i < 2 ^ 15 /\
     0 <= Sign.load m Sign.uz2d i < p /\ Sign.load m Sign.uz2d i < 2 ^ 15) ->
  forall i, (i < n)%nat ->
    SignSpec.dropped_bits_ok p (Sign.load m Sign.ud i) (Sign.load m Sign.uz2d i)
      (Sign.load (Sign.derive_z2d p (to_uint16 (p / 2)) n m) Sign.z2d i).
Proof.
  intros Hp Hev Hlen Hcells i Hi.
  rewrite to_uint16_small
    by (split; [apply Z.div_pos; lia | apply Z.div_lt_upper_bound; lia]).
  rewrite SignFacts.derive_z2d_cells by assumption.
  destruct (Hcells i Hi) as (Hud & Hud16 & Huz & Huz16).
  apply SignFacts.z2d_value_ok; assumption.
Qed.

Lemma derive_z2d_centered_witness :
  Toy.z2d_ok 0 /\ Toy.z2d_ok 1 /\ Toy.z2d_ok 2.
Proof.
  assert (Hall : forall i, (i < 3)%nat -> Toy.z2d_ok i).
  { apply (derive_z2d_centered 24 3 (Toy.z2d_arrays [0; 23; 12] [23; 0; 0])).
    - lia.
    - reflexivity.
    - reflexivity.
    - intros i Hi.
      destruct i as [|[|[|i]]]; [vm_compute; intuition congruence .. | lia]. }
  repeat split; apply Hall; lia.
Defined.

(** C6, as stated, fails for an odd [p]: with [p = 3], [ud[0] = 0] and
    [uz2d[0] = 1] the difference [-1] is at most [-(p/2) = -1], so [p] is
    added, and the cell receives [2], outside [(-3/2, 3/2]]. *)
Lemma derive_z2d_odd_p_counterexample :
  let m := Toy.z2d_arrays [0] [1] in
  (0 <= Sign.load m Sign.ud 0 < 3 /\ 0 <= Sign.load m Sign.uz2d 0 < 3) /\
  Sign.load (Sign.derive_z2d 3 (to_uint16 (3 / 2)) 1 m) Sign.z2d 0 = 2 /\
  ~ SignSpec.dropped_bits_ok 3 (Sign.load m Sign.ud 0) (Sign.load m Sign.uz2d 0)
      (Sign.load (Sign.derive_z2d 3 (to_uint16 (3 / 2)) 1 m) Sign.z2d 0).
Proof.
  cbv zeta. split; [|split].
  - vm_compute. intuition congruence.
  - vm_compute. reflexivity.
  - intros [_ Hrange]. vm_compute in Hrange. destruct Hrange as [_ Hle]. apply Hle. reflexivity.
Qed.

Section SignDispatch.
Context `{Lib}.

(** C7, on the code.  For a scheme other than [SIGN_BLISS_WITH_SHA512],
    [sign] returns false and leaves the chunk behind [signature] as the
    caller passed it; the key and the generator are not touched. *)
Lemma sign_unsupported_scheme (fuel : nat) (this : private_bliss_private_key_t)
    (code : Z) (data signature : chunk_t) (rng : option rng_t) :
  Sign.sign fuel this (SIGN_OTHER code) data signature rng =
  Ret {| Sign.r_success := false; Sign.r_out := signature;
         Sign.r_this := this; Sign.r_rng := rng |}.
Proof. reflexivity. Qed.

(** C10. [decrypt] returns false whatever the scheme, the ciphertext and
    the key, and the chunk behind [plain] is as it was. *)
Theorem decrypt_unsupported (this : private_bliss_private_key_t)
    (scheme : encryption_scheme_t) (crypto plain : chunk_t) :
  Sign.decrypt this scheme crypto plain = (false, plain, this).
Proof. reflexivity. Qed.

End SignDispatch.

(** C7, at a failing input: an unsupported scheme and an output chunk that
    holds one byte at the call.  The call returns false and the byte is still
    there, where the claim has the empty chunk. *)
Lemma sign_unsupported_scheme_output_not_empty :
  exists r,
    Sign.sign 0 Toy.key (SIGN_OTHER 0) [] [Byte.xff] None = Ret r /\
    Sign.r_success r = false /\ Sign.r_out r = [Byte.xff] /\
    Sign.r_out r <> chunk_empty.
Proof.
  eexists. split; [reflexivity|]. cbn. repeat split. discriminate.
Qed.

(** ** Signing leaves the key as it was *)

Module Frame.
Import Sign SignSpec SignFacts.

Lemma ku_refl m : key_untouched m m.
Proof. repeat split. Qed.

Lemma ku_store b v m0 m :
  scratch b -> key_untouched m0 m -> key_untouched m0 (store b v m).
Proof.
  intros (H1 & H2 & Ha) (K1 & K2 & Ka).
  unfold key_untouched. rewrite !store_other by assumption. auto.
Qed.

Lemma ku_write b i v m0 m :
  scratch b -> key_untouched m0 m -> key_untouched m0 (write b i v m).
Proof. apply ku_store. Qed.

Lemma ku_for_loop k lo (body : nat -> memory -> memory) m0 m :
  (forall i m1, key_untouched m0 m1 -> key_untouched m0 (body i m1)) ->
  key_untouched m0 m -> key_untouched m0 (for_loop k lo body m).
Proof.
  intros Hbody Hm.
  apply (for_loop_inv (fun _ m1 => key_untouched m0 m1)); [exact Hm|].
  intros i m1 _. apply Hbody.
Qed.

Ltac ku :=
  repeat first
    [ assumption
    | apply ku_refl
    | apply ku_store; [repeat split; discriminate |]
    | apply ku_write; [repeat split; discriminate |]
    | apply ku_for_loop; [intros ? ? ? |]
    | match goal with
      | |- key_untouched _ (if ?c then _ else _) => destruct c
      | |- key_untouched _ (let _ := _ in _) => cbv zeta
      end ].

Lemma ku_multiply_by_c s n c kappa product m0 m :
  scratch product -> key_untouched m0 m ->
  key_untouched m0 (multiply_by_c s n c kappa product m).
Proof.
  intros Hp Hm. unfold multiply_by_c.
  apply ku_for_loop; [|exact Hm]. intros i m1 Hm1. cbv zeta.
  apply ku_for_loop.
  - intros j m2 Hm2. cbv zeta.
    destruct (Z.of_nat i - load m2 c j <? 0); apply ku_write; assumption.
  - apply ku_write; assumption.
Qed.

Lemma ku_derive_z2d p p2 n m0 m :
  key_untouched m0 m -> key_untouched m0 (derive_z2d p p2 n m).
Proof. intros Hm. unfold derive_z2d. ku. Qed.

Section WithLib.
Context `{Lib}.

Lemma ku_gaussian_loop count i q sampler m0 m :
  key_untouched m0 m ->
  key_untouched m0 (snd (gaussian_loop count i q sampler m)).
Proof.
  revert i sampler m. induction count as [|c IH]; intros i sampler m Hm.
  - exact Hm.
  - cbn [gaussian_loop].
    destruct (gaussian sampler) as [[y1i sampler1]|]; [|exact Hm].
    destruct (gaussian sampler1) as [[y2i sampler2]|]; [|exact Hm].
    apply IH. unfold y1, y2. ku.
Qed.

Lemma ku_sign_round_seeded set alg hasher data_hash seed m fl m' sampler :
  sign_round_seeded set alg hasher data_hash seed m = Ret (fl, m', sampler) ->
  key_untouched m m'.
Proof.
  unfold sign_round_seeded. intros Hr.
  destruct (bliss_sampler_create alg seed set) as [sampler0|];
    [|inversion Hr; subst; apply ku_refl].
  pose proof (ku_gaussian_loop (ParamSet.n set) 0 (ParamSet.q set) sampler0 m m
                (ku_refl m)) as Hg.
  destruct (gaussian_loop (ParamSet.n set) 0 (ParamSet.q set) sampler0 m)
    as [[ok sampler1] m1].
  cbn [snd] in Hg. cbv zeta in Hr.
  repeat match type of Hr with
         | Ret _ = Ret _ => inversion Hr; subst; clear Hr
         | Fault = Ret _ => discriminate Hr
         | context [match ?x with _ => _ end] => destruct x eqn:?
         end;
    unfold ud, y1, y2;
    repeat first [ apply ku_multiply_by_c; [repeat split; discriminate |]
                 | apply ku_derive_z2d
                 | progress ku ].
Qed.

Lemma ku_sign_loop fuel set alg seed_len hasher data_hash st b st' :
  sign_loop fuel set alg seed_len hasher data_hash st = Ret (b, st') ->
  key_untouched (st_mem st) (st_mem st').
Proof.
  revert st. induction fuel as [|fuel IH]; intros st Hl; [discriminate|].
  cbn [sign_loop] in Hl. unfold sign_round in Hl.
  destruct (rng_get_bytes (st_rng st) seed_len) as [[seed rng']|].
  - destruct (sign_round_seeded set alg hasher data_hash seed (st_mem st))
      as [[[fl m1] sampler1]| |] eqn:Er; try discriminate.
    apply ku_sign_round_seeded in Er.
    cbn in Hl. destruct fl.
    + apply IH in Hl. cbn in Hl.
      destruct Er as (E1 & E2 & Ea), Hl as (L1 & L2 & La).
      repeat split; congruence.
    + inversion Hl; subst. exact Er.
    + inversion Hl; subst. exact Er.
  - cbn in Hl. inversion Hl; subst. apply ku_refl.
Qed.

Lemma sign_bliss_with_sha512_this fuel this data signature rng r :
  sign_bliss_with_sha512 fuel this data signature rng = Ret r -> r_this r = this.
Proof.
  unfold sign_bliss_with_sha512. intros Hs.
  destruct (create_hasher HASH_SHA512) as [hasher|];
    [|inversion Hs; reflexivity].
  destruct (get_hash hasher data) as [data_hash|]; [|inversion Hs; reflexivity].
  destruct (mgf1_alg (Key.set this)) as [alg seed_len].
  destruct rng as [rng|]; [|inversion Hs; reflexivity].
  match type of Hs with
  | context [sign_loop ?f ?s ?al ?l ?h ?d ?st] =>
      destruct (sign_loop f s al l h d st) as [[b st']| |] eqn:El; try discriminate
  end.
  apply ku_sign_loop in El. cbn in El, Hs.
  destruct (st_sampler st'); [|discriminate].
  inversion Hs; subst; clear Hs. cbn.
  destruct El as (E1 & E2 & Ea).
  rewrite !store_other in E1, E2, Ea by discriminate.
  unfold key_in. rewrite E1, E2, Ea. destruct this; reflexivity.
Qed.

End WithLib.
End Frame.

Section SignFrame.
Context `{Lib}.

(** C9. Whatever the key, the message and the scheme, when [sign] returns,
    with success or without, the key is as it was before the call: its
    parameter set and the arrays [s1], [s2] and [a]. *)
Theorem sign_preserves_key (fuel : nat) (this : private_bliss_private_key_t)
    (scheme : signature_scheme_t) (data signature : chunk_t) (rng : option rng_t)
    (r : Sign.result) :
  Sign.sign fuel this scheme data signature rng = Ret r ->
  Sign.r_this r = this /\
  Key.set (Sign.r_this r) = Key.set this /\
  Key.s1 (Sign.r_this r) = Key.s1 this /\
  Key.s2 (Sign.r_this r) = Key.s2 this /\
  Key.a (Sign.r_this r) = Key.a this.
Proof.
  intros Hs.
  assert (Hthis : Sign.r_this r = this).
  { destruct scheme.
    - apply (Frame.sign_bliss_with_sha512_this fuel this data signature rng r Hs).
    - inversion Hs; reflexivity. }
  rewrite Hthis. repeat split.
Qed.

End SignFrame.

Lemma sign_preserves_key_witness :
  exists r,
    Sign.sign 10 Toy.key SIGN_BLISS_WITH_SHA512 [Byte.x61] []
      (Some (Toy.constant_rng Byte.xff 100)) = Ret r /\
    Sign.r_success r = true /\
    Sign.r_this r = Toy.key.
Proof.
  eexists. split; [vm_compute; reflexivity|]. split; [reflexivity|].
  apply (@sign_preserves_key Toy.lib 10 Toy.key SIGN_BLISS_WITH_SHA512 [Byte.x61] []
           (Some (Toy.constant_rng Byte.xff 100))).
  vm_compute. reflexivity.
Defined.

(** ** Signing is a function of the key, the message and the bytes drawn *)

Module Determinism.
Import Sign SignSpec.

Lemma consumed_app (used rest : rng_t) : consumed (used ++ rest) rest = used.
Proof.
  unfold consumed. rewrite length_app.
  replace (length used + length rest - length rest)%nat with (length used) by lia.
  apply take_app_length.
Qed.

Lemma rng_get_bytes_some rng len seed rng' :
  rng_get_bytes rng len = Some (seed, rng') ->
  rng = seed ++ rng' /\ length seed = len.
Proof.
  unfold rng_get_bytes. destruct (Nat.leb_spec len (length rng)) as [Hle|Hgt];
    [|discriminate].
  intros Hs. inversion Hs; subst. split.
  - symmetry. apply take_drop.
  - rewrite length_take. lia.
Qed.

Lemma rng_get_bytes_none rng len :
  rng_get_bytes rng len = None -> (length rng < len)%nat.
Proof.
  unfold rng_get_bytes. destruct (Nat.leb_spec len (length rng)); [discriminate | auto].
Qed.

Lemma rng_get_bytes_app seed rest :
  rng_get_bytes (seed ++ rest) (length seed) = Some (seed, rest).
Proof.
  unfold rng_get_bytes. rewrite length_app.
  replace (length seed <=? length seed + length rest)%nat with true
    by (symmetry; apply Nat.leb_le; lia).
  rewrite take_app_length, drop_app_length. reflexivity.
Qed.

Section WithLib.
Context `{Lib}.

(** A round either finds the generator short and leaves the state as it
    is, or draws a seed and is then a function of the seed and the
    arrays. *)
Lemma sign_round_cases set alg seed_len hasher data_hash st fl st' :
  sign_round set alg seed_len hasher data_hash st = Ret (fl, st') ->
  ((length (st_rng st) < seed_len)%nat /\ fl = GotoEnd /\ st' = st) \/
  (exists seed,
      st_rng st = seed ++ st_rng st' /\ length seed = seed_len /\
      sign_round_seeded set alg hasher data_hash seed (st_mem st)
        = Ret (fl, st_mem st', st_sampler st')).
Proof.
  unfold sign_round. intros Hr.
  destruct (rng_get_bytes (st_rng st) seed_len) as [[seed rng']|] eqn:Eg.
  - right. apply rng_get_bytes_some in Eg. destruct Eg as [Eapp Elen].
    destruct (sign_round_seeded set alg hasher data_hash seed (st_mem st))
      as [[[fl1 m1] sampler1]| |] eqn:Es; try discriminate.
    cbn in Hr. inversion Hr; subst; clear Hr. cbn.
    exists seed. split; [exact Eapp|]. split; [reflexivity | exact Es].
  - left. apply rng_get_bytes_none in Eg. inversion Hr; subst. auto.
Qed.

(** What the generator holds after the loop is the end of what it held
    before. *)
Lemma sign_loop_suffix fuel set alg seed_len hasher data_hash st b st' :
  sign_loop fuel set alg seed_len hasher data_hash st = Ret (b, st') ->
  exists used, st_rng st = used ++ st_rng st'.
Proof.
  revert st. induction fuel as [|fuel IH]; intros st Hl; [discriminate|].
  cbn [sign_loop] in Hl.
  destruct (sign_round set alg seed_len hasher data_hash st)
    as [[fl st1]| |] eqn:Er; try discriminate.
  cbn in Hl.
  assert (Hround : exists used, st_rng st = used ++ st_rng st1).
  { apply sign_round_cases in Er. destruct Er as [(_ & _ & ->)|(seed & E & _)].
    - exists []. reflexivity.
    - exists seed. exact E. }
  destruct Hround as [u1 Hu1]. destruct fl.
  - apply IH in Hl. destruct Hl as [u2 Hu2].
    exists (u1 ++ u2). rewrite Hu1, Hu2. apply app_assoc.
  - inversion Hl; subst. exists u1. exact Hu1.
  - inversion Hl; subst. exists u1. exact Hu1.
Qed.

(** Two runs of the loop from the same arrays and sampler that draw the
    same bytes end alike, whatever else their generators hold and
    whatever fuel they were given. *)
Lemma sign_loop_deterministic set alg seed_len hasher data_hash :
  (0 < seed_len)%nat ->
  forall fuel1 fuel2 st1 st2 b1 b2 st1' st2' used,
    st_mem st1 = st_mem st2 -> st_sampler st1 = st_sampler st2 ->
    sign_loop fuel1 set alg seed_len hasher data_hash st1 = Ret (b1, st1') ->
    sign_loop fuel2 set alg seed_len hasher data_hash st2 = Ret (b2, st2') ->
    st_rng st1 = used ++ st_rng st1' ->
    st_rng st2 = used ++ st_rng st2' ->
    b1 = b2 /\ st_mem st1' = st_mem st2' /\ st_sampler st1' = st_sampler st2'.
Proof.
  intros Hlen. induction fuel1 as [|fuel1 IH];
    intros fuel2 st1 st2 b1 b2 st1' st2' used Hm Hs H1 H2 Hu1 Hu2;
    [discriminate|].
  destruct fuel2 as [|fuel2]; [discriminate|].
  cbn [sign_loop] in H1, H2.
  destruct (sign_round set alg seed_len hasher data_hash st1)
    as [[fl1 mid1]| |] eqn:Er1; try discriminate.
  destruct (sign_round set alg seed_len hasher data_hash st2)
    as [[fl2 mid2]| |] eqn:Er2; try discriminate.
  cbn in H1, H2.
  (* what is left after the first round is the end of what the round left *)
  assert (Hrest1 : exists u, st_rng mid1 = u ++ st_rng st1').
  { destruct fl1.
    - apply sign_loop_suffix in H1. exact H1.
    - inversion H1; subst. exists []. reflexivity.
    - inversion H1; subst. exists []. reflexivity. }
  assert (Hrest2 : exists u, st_rng mid2 = u ++ st_rng st2').
  { destruct fl2.
    - apply sign_loop_suffix in H2. exact H2.
    - inversion H2; subst. exists []. reflexivity.
    - inversion H2; subst. exists []. reflexivity. }
  destruct Hrest1 as [u1 Hu1'], Hrest2 as [u2 Hu2'].
  apply sign_round_cases in Er1, Er2.
  destruct Er1 as [(Hshort1 & -> & ->)|(seed1 & Eapp1 & Elen1 & Eseeded1)];
    destruct Er2 as [(Hshort2 & -> & ->)|(seed2 & Eapp2 & Elen2 & Eseeded2)].
  - inversion H1; inversion H2; subst. auto.
  - (* the first run drew nothing, the second a whole seed *)
    exfalso. inversion H1; subst.
    assert (used = []) as ->.
    { apply (f_equal length) in Hu1. rewrite length_app in Hu1.
      destruct used; [reflexivity | simpl in Hu1; lia]. }
    simpl in Hu2. rewrite Eapp2, Hu2' in Hu2.
    apply (f_equal length) in Hu2. rewrite !length_app in Hu2. lia.
  - exfalso. inversion H2; subst.
    assert (used = []) as ->.
    { apply (f_equal length) in Hu2. rewrite length_app in Hu2.
      destruct used; [reflexivity | simpl in Hu2; lia]. }
    simpl in Hu1. rewrite Eapp1, Hu1' in Hu1.
    apply (f_equal length) in Hu1. rewrite !length_app in Hu1. lia.
  - (* both drew a seed: the same one *)
    assert (Hused1 : used = seed1 ++ u1).
    { rewrite Eapp1, Hu1', app_assoc in Hu1.
      apply app_inv_tail in Hu1. symmetry. exact Hu1. }
    assert (Hused2 : used = seed2 ++ u2).
    { rewrite Eapp2, Hu2', app_assoc in Hu2.
      apply app_inv_tail in Hu2. symmetry. exact Hu2. }
    assert (Hsame : seed1 = seed2 /\ u1 = u2).
    { rewrite Hused1 in Hused2.
      apply app_inj_1 in Hused2; [exact Hused2 | congruence]. }
    destruct Hsame as [<- <-].
    rewrite Hm in Eseeded1. rewrite Eseeded1 in Eseeded2.
    inversion Eseeded2; subst fl2. clear Eseeded2.
    destruct fl1.
    + eapply (IH fuel2 mid1 mid2); eauto.
    + inversion H1; inversion H2; subst. auto.
    + inversion H1; inversion H2; subst. auto.
Qed.

Lemma mgf1_alg_seed_len set : (0 < snd (mgf1_alg set))%nat.
Proof.
  unfold mgf1_alg. destruct (160 <? ParamSet.strength set); cbn;
    unfold HASH_SIZE_SHA256, HASH_SIZE_SHA1; lia.
Qed.

Lemma sign_bliss_with_sha512_deterministic fuel1 fuel2 this data sig1 sig2
    rng1 rng2 r1 r2 :
  sign_bliss_with_sha512 fuel1 this data sig1 (Some rng1) = Ret r1 ->
  sign_bliss_with_sha512 fuel2 this data sig2 (Some rng2) = Ret r2 ->
  bytes_drawn rng1 r1 = bytes_drawn rng2 r2 ->
  r_success r1 = r_success r2 /\ r_out r1 = r_out r2.
Proof.
  unfold sign_bliss_with_sha512. intros H1 H2 Hd.
  destruct (create_hasher HASH_SHA512) as [hasher|];
    [|inversion H1; inversion H2; auto].
  destruct (get_hash hasher data) as [data_hash|];
    [|inversion H1; inversion H2; auto].
  pose proof (mgf1_alg_seed_len (Key.set this)) as Hlen.
  destruct (mgf1_alg (Key.set this)) as [alg seed_len]. cbn [snd] in Hlen.
  match type of H1 with
  | context [sign_loop ?f ?s ?al ?l ?h ?d ?st] =>
      destruct (sign_loop f s al l h d st) as [[b1 st1']| |] eqn:El1; try discriminate
  end.
  match type of H2 with
  | context [sign_loop ?f ?s ?al ?l ?h ?d ?st] =>
      destruct (sign_loop f s al l h d st) as [[b2 st2']| |] eqn:El2; try discriminate
  end.
  cbn in H1, H2.
  destruct (st_sampler st1'); [|discriminate].
  destruct (st_sampler st2'); [|discriminate].
  inversion H1; subst r1; clear H1. inversion H2; subst r2; clear H2.
  unfold bytes_drawn in Hd. cbn in Hd |- *.
  destruct (sign_loop_suffix _ _ _ _ _ _ _ _ _ El1) as [u1 Hu1].
  destruct (sign_loop_suffix _ _ _ _ _ _ _ _ _ El2) as [u2 Hu2].
  cbn in Hu1, Hu2. rewrite Hu1, Hu2, !consumed_app in Hd. subst u2.
  assert (Hsame : b1 = b2 /\ st_mem st1' = st_mem st2' /\
                  st_sampler st1' = st_sampler st2').
  { eapply (sign_loop_deterministic (Key.set this) alg seed_len hasher data_hash Hlen
              fuel1 fuel2);
      [ | | exact El1 | exact El2 | exact Hu1 | exact Hu2 ]; reflexivity. }
  destruct Hsame as (-> & Em & _).
  rewrite Em. auto.
Qed.

End WithLib.
End Determinism.

Section SignDeterminism.
Context `{Lib}.

(** C8. Two calls of [sign] for the same key, scheme and message that
    return and have drawn the same bytes from their generators return the
    same flag and leave the same signature bytes, whatever the generators
    held beyond the bytes drawn and whatever fuel the runs were given. *)
Theorem sign_deterministic (fuel1 fuel2 : nat) (this : private_bliss_private_key_t)
    (scheme : signature_scheme_t) (data signature : chunk_t) (rng1 rng2 : rng_t)
    (r1 r2 : Sign.result) :
  Sign.sign fuel1 this scheme data signature (Some rng1) = Ret r1 ->
  Sign.sign fuel2 this scheme data signature (Some rng2) = Ret r2 ->
  SignSpec.bytes_drawn rng1 r1 = SignSpec.bytes_drawn rng2 r2 ->
  Sign.r_success r1 = Sign.r_success r2 /\ Sign.r_out r1 = Sign.r_out r2.
Proof.
  intros H1 H2 Hd. destruct scheme.
  - apply (Determinism.sign_bliss_with_sha512_deterministic
             fuel1 fuel2 this data signature signature rng1 rng2 r1 r2 H1 H2 Hd).
  - inversion H1; inversion H2; subst. auto.
Qed.

End SignDeterminism.

(** Two generators that agree on the two seeds the runs draw (the first
    seed is rejected, the second accepted) and differ afterwards. *)
Lemma sign_deterministic_witness :
  exists r1 r2,
    Sign.sign 4 Toy.key SIGN_BLISS_WITH_SHA512 [Byte.x61] []
      (Some (replicate 20 Byte.x00 ++ replicate 20 Byte.xff ++ replicate 5 Byte.x00))
      = Ret r1 /\
    Sign.sign 7 Toy.key SIGN_BLISS_WITH_SHA512 [Byte.x61] []
      (Some (replicate 20 Byte.x00 ++ replicate 20 Byte.xff ++ replicate 40 Byte.x01))
      = Ret r2 /\
    Sign.r_success r1 = true /\
    Sign.r_out r1 = Sign.r_out r2.
Proof.
  eexists. eexists.
  split; [vm_compute; reflexivity|].
  split; [vm_compute; reflexivity|].
  split; [reflexivity|].
  apply (@sign_deterministic Toy.lib 4 7 Toy.key SIGN_BLISS_WITH_SHA512 [Byte.x61] []
           (replicate 20 Byte.x00 ++ replicate 20 Byte.xff ++ replicate 5 Byte.x00)
           (replicate 20 Byte.x00 ++ replicate 20 Byte.xff ++ replicate 40 Byte.x01));
    vm_compute; reflexivity.
Defined.

(** ** Sparse vectors *)

Module VectorFacts.
Import KeySpec KeyGenSpec.

Lemma entries_cons k x v :
  entries_of_magnitude k (x :: v) =
  ((if (Z.abs x =? k)%Z then 1 else 0) + entries_of_magnitude k v)%nat.
Proof.
  unfold entries_of_magnitude. simpl. destruct (Z.abs x =? k); reflexivity.
Qed.

Lemma entries_replicate_zero k n :
  entries_of_magnitude k (replicate n 0) = if k =? 0 then n else 0%nat.
Proof.
  induction n as [|n IH]; [destruct (k =? 0); reflexivity|].
  change (replicate (Datatypes.S n) 0) with (0 :: replicate n 0).
  rewrite entries_cons, IH. change (Z.abs 0) with 0.
  rewrite (Z.eqb_sym 0 k). destruct (k =? 0); reflexivity.
Qed.

(** Storing [x] in a cell that holds zero moves one entry from magnitude
    zero to the magnitude of [x]. *)
Lemma entries_insert k x (v : list Z) i :
  (i < length v)%nat -> rd v i = 0 -> x <> 0 ->
  (entries_of_magnitude k (<[i := x]> v) + (if (k =? 0)%Z then 1 else 0) =
   entries_of_magnitude k v + (if (Z.abs x =? k)%Z then 1 else 0))%nat.
Proof.
  revert i. induction v as [|y v IH]; intros i Hi Hrd Hx; [simpl in Hi; lia|].
  destruct i as [|i].
  - cbn in Hrd. subst y. change (<[0%nat := x]> (0 :: v)) with (x :: v).
    rewrite !entries_cons.
    change (Z.abs 0) with 0. rewrite (Z.eqb_sym 0 k).
    destruct (k =? 0) eqn:Ek, (Z.abs x =? k) eqn:Ex; try lia.
  - change (<[Datatypes.S i := x]> (y :: v)) with (y :: <[i := x]> v).
    rewrite !entries_cons.
    simpl in Hi. rewrite rd_cons_S in Hrd.
    specialize (IH i ltac:(lia) Hrd Hx).
    revert IH. destruct (Z.abs y =? k), (k =? 0), (Z.abs x =? k); lia.
Qed.

Section WithLib.
Context `{Lib}.

Lemma spent_trans b1 b2 b3 : spent b1 b2 -> spent b2 b3 -> spent b1 b3.
Proof.
  intros H12 H23. induction H23 as [|b2 b3 b4 k x _ IH Hg]; [exact H12|].
  eapply spent_more; [apply IH, H12 | exact Hg].
Qed.

Lemma spent_first b b1 b2 k x :
  get_bits b k = Some (x, b1) -> spent b1 b2 -> spent b b2.
Proof.
  intros Hg Hs. eapply spent_trans; [|exact Hs].
  eapply spent_more; [apply spent_here | exact Hg].
Qed.

Lemma exhausted_first n_bits b b1 k x :
  get_bits b k = Some (x, b1) -> exhausted n_bits b1 -> exhausted n_bits b.
Proof.
  intros Hg (b' & Hs & Hn). exists b'. split; [|exact Hn].
  eapply spent_first; eassumption.
Qed.

(** One [while (non_zero)] loop: when it ends with a vector, [non_zero]
    cells that held zero now hold [value] or [- value]; when it ends
    without one, the bit-spender ran dry. *)
Lemma fill_non_zero_spec fuel n_bits value non_zero bitspender vector r :
  value <> 0 ->
  fill_non_zero fuel n_bits value non_zero bitspender vector = Ret r ->
  match r with
  | Some (bitspender', vector') =>
      spent bitspender bitspender' /\
      length vector' = length vector /\
      forall k,
        (entries_of_magnitude k vector' + (if (k =? 0)%Z then non_zero else 0) =
         entries_of_magnitude k vector +
         (if (Z.abs value =? k)%Z then non_zero else 0))%nat
  | None => exhausted n_bits bitspender
  end.
Proof.
  intros Hv. revert non_zero bitspender vector.
  induction fuel as [|fuel IH]; intros non_zero bitspender vector Hf.
  - destruct non_zero; [|discriminate]. inversion Hf; subst.
    split; [apply spent_here|]. split; [reflexivity|].
    intros k. destruct (k =? 0), (Z.abs value =? k); lia.
  - destruct non_zero as [|non_zero].
    { inversion Hf; subst.
      split; [apply spent_here|]. split; [reflexivity|].
      intros k. destruct (k =? 0), (Z.abs value =? k); lia. }
    cbn [fill_non_zero] in Hf.
    destruct (get_bits bitspender n_bits) as [[index b1]|] eqn:Eg1.
    2:{ inversion Hf; subst. exists bitspender. split; [apply spent_here | auto]. }
    destruct ((length vector <=? Z.to_nat index)%nat || (index <? 0)) eqn:Eb;
      [discriminate|].
    apply orb_false_elim in Eb. destruct Eb as [Eb _].
    apply Nat.leb_gt in Eb.
    destruct (rd vector (Z.to_nat index) =? 0) eqn:Ez; cbn [negb] in Hf.
    + apply Z.eqb_eq in Ez.
      destruct (get_bits b1 1%nat) as [[sign b2]|] eqn:Eg2.
      2:{ inversion Hf; subst. exists b1. split; [|auto].
          eapply spent_more; [apply spent_here | exact Eg1]. }
      apply IH in Hf. destruct r as [[b' v']|].
      * destruct Hf as (Hs & Hlen & Hcount). split; [|split].
        -- eapply spent_first; [exact Eg1|].
           eapply spent_first; [exact Eg2 | exact Hs].
        -- rewrite Hlen. apply length_insert.
        -- intros k. specialize (Hcount k).
           set (x := if sign =? 0 then - value else value) in *.
           assert (Hx : x <> 0) by (unfold x; destruct (sign =? 0); lia).
           assert (Hax : Z.abs x = Z.abs value).
           { unfold x. destruct (sign =? 0); [apply Z.abs_opp | reflexivity]. }
           pose proof (entries_insert k x vector (Z.to_nat index) Eb Ez Hx) as Hi.
           rewrite Hax in Hi.
           destruct (k =? 0), (Z.abs value =? k); lia.
      * eapply exhausted_first; [exact Eg1|].
        eapply exhausted_first; [exact Eg2 | exact Hf].
    + apply IH in Hf. destruct r as [[b' v']|].
      * destruct Hf as (Hs & Hlen & Hcount). split; [|split; assumption].
        eapply spent_first; eassumption.
      * eapply exhausted_first; eassumption.
Qed.

End WithLib.
End VectorFacts.

Section Vector.
Context `{Lib}.
Import KeySpec.

(** C3. When [create_vector_from_seed] returns a vector, it has [n]
    entries, [non_zero1] of them +1 or -1, [non_zero2] of them +2 or -2,
    and all the others zero.  When it returns none, the bit-spender could
    not supply the bits asked of it: either none could be created from the
    seed, or the one created, drawn from as the function does, reached a
    state in which [get_bits] failed. *)
Theorem create_vector_from_seed_sparse (fuel : nat) (set : bliss_param_set_t)
    (alg : hash_algorithm_t) (seed : chunk_t) (r : option (list Z)) :
  create_vector_from_seed fuel set alg seed = Ret r ->
  match r with
  | Some vector =>
      length vector = ParamSet.n set /\
      entries_of_magnitude 1 vector = ParamSet.non_zero1 set /\
      entries_of_magnitude 2 vector = ParamSet.non_zero2 set /\
      (entries_of_magnitude 0 vector + ParamSet.non_zero1 set + ParamSet.non_zero2 set
       = ParamSet.n set)%nat
  | None =>
      mgf1_bitspender_create alg seed = None \/
      exists bitspender,
        mgf1_bitspender_create alg seed = Some bitspender /\
        KeyGenSpec.exhausted (ParamSet.n_bits set) bitspender
  end.
Proof.
  unfold create_vector_from_seed. intros Hc.
  destruct (mgf1_bitspender_create alg seed) as [b0|] eqn:Eb0;
    [|inversion Hc; subst; left; reflexivity].
  destruct (fill_non_zero fuel (ParamSet.n_bits set) 1 (ParamSet.non_zero1 set) b0
              (replicate (ParamSet.n set) 0)) as [r1| |] eqn:E1; try discriminate.
  apply VectorFacts.fill_non_zero_spec in E1; [|lia].
  cbn in Hc. destruct r1 as [[b1 v1]|];
    [|inversion Hc; subst; right; exists b0; split; [reflexivity | exact E1]].
  destruct E1 as (Hs1 & Hl1 & Hc1).
  destruct (fill_non_zero fuel (ParamSet.n_bits set) 2 (ParamSet.non_zero2 set) b1 v1)
    as [r2| |] eqn:E2; try discriminate.
  apply VectorFacts.fill_non_zero_spec in E2; [|lia].
  cbn in Hc. destruct r2 as [[b2 v2]|].
  - inversion Hc; subst; clear Hc. destruct E2 as (Hs2 & Hl2 & Hc2).
    rewrite length_replicate in Hl1.
    pose proof (Hc1 0) as H10. pose proof (Hc1 1) as H11. pose proof (Hc1 2) as H12.
    pose proof (Hc2 0) as H20. pose proof (Hc2 1) as H21. pose proof (Hc2 2) as H22.
    rewrite !VectorFacts.entries_replicate_zero in H10, H11, H12.
    change (Z.abs 1 =? 0) with false in H10. change (Z.abs 1 =? 1) with true in H11.
    change (Z.abs 1 =? 2) with false in H12. change (Z.abs 2 =? 0) with false in H20.
    change (Z.abs 2 =? 1) with false in H21. change (Z.abs 2 =? 2) with true in H22.
    cbn in H10, H11, H12, H20, H21, H22.
    repeat split; lia.
  - inversion Hc; subst; clear Hc.
    destruct E2 as (b' & Hs & Hn). right. exists b0. split; [reflexivity|].
    exists b'. split; [|exact Hn].
    eapply VectorFacts.spent_trans; eassumption.
Qed.

End Vector.

Lemma create_vector_from_seed_sparse_witness :
  create_vector_from_seed 10 Toy.set HASH_SHA1 [Byte.x01] = Ret (Some Toy.vector) /\
  length Toy.vector = ParamSet.n Toy.set /\
  KeySpec.entries_of_magnitude 1 Toy.vector = ParamSet.non_zero1 Toy.set /\
  KeySpec.entries_of_magnitude 2 Toy.vector = ParamSet.non_zero2 Toy.set /\
  (KeySpec.entries_of_magnitude 0 Toy.vector + ParamSet.non_zero1 Toy.set
   + ParamSet.non_zero2 Toy.set = ParamSet.n Toy.set)%nat.
Proof.
  split; [vm_compute; reflexivity|].
  apply (@create_vector_from_seed_sparse Toy.lib 10 Toy.set HASH_SHA1 [Byte.x01]
           (Some Toy.vector)).
  vm_compute. reflexivity.
Defined.

(** ** Key generation *)

Module KeyGenFacts.
Import KeyGenSpec.

(** A loop that replaces each cell by a function of its own content. *)
Lemma for_loop_map_in_place (f : Z -> Z) n (v : list Z) :
  length v = n ->
  for_loop n 0 (fun i v => <[i := f (rd v i)]> v) v = map f v.
Proof.
  intros Hv.
  pose (P := fun (k : nat) (w : list Z) =>
               length w = n /\
               (forall j, (j < k)%nat -> rd w j = f (rd v j)) /\
               (forall j, (k <= j)%nat -> rd w j = rd v j)).
  assert (HP : P (0 + n)%nat (for_loop n 0 (fun i v => <[i := f (rd v i)]> v) v)).
  { apply (for_loop_inv P).
    - unfold P. repeat split; auto. intros j Hj; lia.
    - intros i w Hi (Hl & Hdone & Hrest). unfold P. repeat split.
      + rewrite length_insert. exact Hl.
      + intros j Hj. destruct (Nat.eq_dec i j) as [<-|Hne].
        * rewrite rd_insert_eq by lia. rewrite Hrest by lia. reflexivity.
        * rewrite rd_insert_ne by exact Hne. apply Hdone. lia.
      + intros j Hj. rewrite rd_insert_ne by lia. apply Hrest. lia. }
  destruct HP as (Hl & Hdone & _). apply rd_ext.
  - rewrite Hl, length_map. symmetry. exact Hv.
  - intros i Hi. rewrite Hl in Hi. rewrite Hdone by lia.
    rewrite rd_map by lia. reflexivity.
Qed.

Lemma to_unsigned_arrays_maps q n s1 s2 S1 S2 :
  length s1 = n -> length s2 = n -> length S1 = n -> length S2 = n ->
  to_unsigned_arrays q n s1 s2 (S1, S2) = (unsigned_s1 q s1, unsigned_s2 q s2).
Proof.
  intros H1 H2 HS1 HS2. unfold to_unsigned_arrays.
  pose (P := fun (k : nat) (S : list Z * list Z) =>
               length (fst S) = n /\ length (snd S) = n /\
               forall j, (j < k)%nat ->
                 rd (fst S) j = rd (unsigned_s1 q s1) j /\
                 rd (snd S) j = rd (unsigned_s2 q s2) j).
  match goal with
  | |- for_loop n 0 ?body _ = _ =>
      assert (HP : P (0 + n)%nat (for_loop n 0 body (S1, S2)))
  end.
  { apply (for_loop_inv P).
    - unfold P. cbn. repeat split; auto; lia.
    - intros i [T1 T2] Hi (Hl1 & Hl2 & Hdone). cbn in Hl1, Hl2, Hdone.
      unfold P. cbn. rewrite !length_insert. repeat split; auto.
      + destruct (Nat.eq_dec i j) as [<-|Hne].
        * rewrite rd_insert_eq by lia. unfold unsigned_s1.
          rewrite rd_map by lia. reflexivity.
        * rewrite rd_insert_ne by exact Hne. apply Hdone. lia.
      + destruct (Nat.eq_dec i j) as [<-|Hne].
        * rewrite rd_insert_eq by lia. unfold unsigned_s2.
          rewrite rd_map by lia. reflexivity.
        * rewrite rd_insert_ne by exact Hne. apply Hdone. lia. }
  match goal with
  | |- ?x = _ => destruct x as [T1 T2]
  end.
  destruct HP as (Hl1 & Hl2 & Hdone). cbn in Hl1, Hl2, Hdone.
  f_equal; apply rd_ext.
  - unfold unsigned_s1. rewrite Hl1, length_map. symmetry. exact H1.
  - intros i Hi. apply Hdone. lia.
  - unfold unsigned_s2. rewrite Hl2, length_map. symmetry. exact H2.
  - intros i Hi. apply Hdone. lia.
Qed.

Section WithLib.
Context `{Lib}.

Lemma fill_non_zero_bounded bound fuel n_bits value non_zero bitspender vector b' v' :
  - bound <= value <= bound ->
  Forall (fun x => - bound <= x <= bound) vector ->
  fill_non_zero fuel n_bits value non_zero bitspender vector = Ret (Some (b', v')) ->
  Forall (fun x => - bound <= x <= bound) v'.
Proof.
  intros Hv. revert non_zero bitspender vector.
  induction fuel as [|fuel IH]; intros non_zero bitspender vector Hall Hf.
  - destruct non_zero; [|discriminate]. inversion Hf; subst. exact Hall.
  - destruct non_zero as [|non_zero]; [inversion Hf; subst; exact Hall|].
    cbn [fill_non_zero] in Hf.
    destruct (get_bits bitspender n_bits) as [[index b1]|]; [|discriminate].
    destruct ((length vector <=? Z.to_nat index)%nat || (index <? 0));
      [discriminate|].
    destruct (negb (rd vector (Z.to_nat index) =? 0)).
    + eapply IH; eassumption.
    + destruct (get_bits b1 1%nat) as [[sign b2]|]; [|discriminate].
      eapply IH; [|exact Hf].
      apply Forall_insert; [exact Hall|].
      destruct (sign =? 0); lia.
Qed.

Lemma create_vector_from_seed_bounded fuel set alg seed v :
  create_vector_from_seed fuel set alg seed = Ret (Some v) ->
  length v = ParamSet.n set /\ Forall (fun x => - 2 <= x <= 2) v.
Proof.
  intros Hc. split.
  - unfold create_vector_from_seed in Hc.
    destruct (mgf1_bitspender_create alg seed) as [b0|]; [|discriminate].
    destruct (fill_non_zero fuel (ParamSet.n_bits set) 1 (ParamSet.non_zero1 set) b0
                (replicate (ParamSet.n set) 0)) as [[[b1 v1]|]| |] eqn:E1;
      try discriminate.
    cbn in Hc.
    destruct (fill_non_zero fuel (ParamSet.n_bits set) 2 (ParamSet.non_zero2 set) b1 v1)
      as [[[b2 v2]|]| |] eqn:E2; try discriminate.
    cbn in Hc. inversion Hc; subst; clear Hc.
    apply VectorFacts.fill_non_zero_spec in E1; [|lia].
    apply VectorFacts.fill_non_zero_spec in E2; [|lia].
    destruct E1 as (_ & Hl1 & _), E2 as (_ & Hl2 & _).
    rewrite Hl2, Hl1. apply length_replicate.
  - unfold create_vector_from_seed in Hc.
    destruct (mgf1_bitspender_create alg seed) as [b0|]; [|discriminate].
    destruct (fill_non_zero fuel (ParamSet.n_bits set) 1 (ParamSet.non_zero1 set) b0
                (replicate (ParamSet.n set) 0)) as [[[b1 v1]|]| |] eqn:E1;
      try discriminate.
    cbn in Hc.
    destruct (fill_non_zero fuel (ParamSet.n_bits set) 2 (ParamSet.non_zero2 set) b1 v1)
      as [[[b2 v2]|]| |] eqn:E2; try discriminate.
    cbn in Hc. inversion Hc; subst; clear Hc.
    eapply (fill_non_zero_bounded 2); [ | |exact E2]; [lia|].
    eapply (fill_non_zero_bounded 2); [ | |exact E1]; [lia|].
    apply Forall_forall. intros x Hx. apply elem_of_replicate in Hx. lia.
Qed.

(** "Compute 2g + 1" *)
Lemma two_g_plus_one n (g : list Z) :
  length g = n -> Forall (fun x => - 2 <= x <= 2) g ->
  let g2 := for_loop n 0 (fun i g => <[i := to_int8 (rd g i * 2)]> g) g in
  let s2 := <[0%nat := to_int8 (rd g2 0 + 1)]> g2 in
  length s2 = n /\ Forall (fun x => - 4 <= x <= 5) s2.
Proof.
  intros Hl Hall. cbv zeta.
  rewrite (for_loop_map_in_place (fun x => to_int8 (x * 2)) n g Hl).
  assert (Hall2 : Forall (fun x => - 4 <= x <= 4) (map (fun x => to_int8 (x * 2)) g)).
  { apply Forall_map. eapply Forall_impl; [exact Hall|].
    intros x Hx. cbn in Hx |- *.
    rewrite to_int8_small by (change (2 ^ 7) with 128; lia). lia. }
  split.
  - rewrite length_insert, length_map. exact Hl.
  - apply Forall_insert.
    + eapply Forall_impl; [exact Hall2|]. intros x Hx. cbn in Hx. lia.
    + destruct g as [|x g].
      * vm_compute. split; discriminate.
      * cbn [map]. unfold rd. cbn [lookup list_lookup default]. unfold id.
        apply Forall_inv in Hall. cbn in Hall.
        rewrite (to_int8_small (x * 2)) by (change (2 ^ 7) with 128; lia).
        rewrite to_int8_small by (change (2 ^ 7) with 128; lia). lia.
Qed.

Lemma drawn_within_trans rng1 rng2 rng3 b1 b2 b :
  drawn_within rng1 rng2 b1 -> drawn_within rng2 rng3 b2 -> b1 + b2 <= b ->
  drawn_within rng1 rng3 b.
Proof.
  unfold drawn_within. destruct rng1, rng2, rng3; try tauto; lia.
Qed.

Lemma rng_get_bytes_length rng len seed rng' :
  rng_get_bytes rng len = Some (seed, rng') ->
  Z.of_nat (length rng) - Z.of_nat (length rng') = Z.of_nat len.
Proof.
  intros Hg. apply Determinism.rng_get_bytes_some in Hg.
  destruct Hg as [-> <-]. rewrite length_app. lia.
Qed.

(** The loop of [create_secret]: the trial count only grows, by one for
    each pair of seeds drawn, and stays within the bound; on success the
    secret is a good one. *)
Lemma create_secret_loop_spec fuel k set rng trials r :
  create_secret_loop fuel k set rng trials = Ret r ->
  trials <= secret_trials r /\
  (trials <= SECRET_KEY_TRIALS_MAX -> secret_trials r <= SECRET_KEY_TRIALS_MAX) /\
  drawn_within rng (secret_rng r)
    (2 * Z.of_nat (snd (mgf1_alg set)) * (secret_trials r - trials)) /\
  (secret_ok r = true ->
   trials < secret_trials r /\ good_secret set (secret_s1 r) (secret_s2 r)).
Proof.
  unfold SECRET_KEY_TRIALS_MAX.
  revert rng trials. induction k as [|k IH]; intros rng trials Hc.
  - cbn [create_secret_loop] in Hc.
    destruct (mgf1_alg set) as [alg seed_len].
    destruct (Z.ltb_spec trials SECRET_KEY_TRIALS_MAX); [discriminate|].
    inversion Hc; subst; cbn.
    split; [lia|]. split; [lia|]. split; [|discriminate].
    destruct rng; cbn; lia.
  - cbn [create_secret_loop] in Hc.
    destruct (mgf1_alg set) as [alg seed_len] eqn:Ealg. cbn [snd].
    destruct (Z.ltb_spec trials SECRET_KEY_TRIALS_MAX) as [Hlt|Hge].
    2:{ inversion Hc; subst; cbn.
        split; [lia|]. split; [lia|]. split; [|discriminate].
        destruct rng; cbn; lia. }
    unfold SECRET_KEY_TRIALS_MAX in Hlt.
    destruct rng as [rng|]; [|discriminate].
    destruct (rng_get_bytes rng seed_len) as [[seed1 rng1]|] eqn:Eg1.
    2:{ inversion Hc; subst; cbn.
        split; [lia|]. split; [lia|]. split; [nia | discriminate]. }
    apply rng_get_bytes_length in Eg1.
    destruct (create_vector_from_seed fuel set alg seed1) as [[f|]| |] eqn:Ef;
      try discriminate; cbn in Hc.
    2:{ inversion Hc; subst; cbn.
        split; [lia|]. split; [lia|]. split; [nia | discriminate]. }
    destruct (rng_get_bytes rng1 seed_len) as [[seed2 rng2]|] eqn:Eg2.
    2:{ inversion Hc; subst; cbn.
        split; [lia|]. split; [lia|]. split; [nia | discriminate]. }
    apply rng_get_bytes_length in Eg2.
    destruct (create_vector_from_seed fuel set alg seed2) as [[g|]| |] eqn:Eg;
      try discriminate; cbn in Hc.
    2:{ inversion Hc; subst; cbn.
        split; [lia|]. split; [lia|]. split; [nia | discriminate]. }
    apply create_vector_from_seed_bounded in Ef, Eg.
    destruct Ef as [Hfl Hfb], Eg as [Hgl Hgb].
    pose proof (two_g_plus_one (ParamSet.n set) g Hgl Hgb) as Hs2.
    cbv zeta in Hs2. destruct Hs2 as [Hs2l Hs2b].
    match type of Hc with
    | context [nks_norm ?a ?b ?c ?d <? ?e] =>
        destruct (Z.ltb_spec (nks_norm a b c d) e) as [Hnk|Hnk]
    end.
    + inversion Hc; subst; clear Hc. cbn.
      split; [lia|]. split; [lia|]. split; [nia|].
      intros _. split; [lia|]. unfold good_secret. auto.
    + apply IH in Hc. rewrite ?Ealg in Hc. cbn [snd] in Hc.
      destruct Hc as (Ht & Hmax & Hd & Hok).
      split; [lia|]. split; [lia|]. split.
      * unfold drawn_within in *. destruct (secret_rng r); [nia | exact Hd].
      * intros Hs. destruct (Hok Hs) as [Hlt' Hgood]. split; [lia | exact Hgood].
Qed.

(** The bound [k] of the model is never what ends the loop of
    [create_secret]. *)
Lemma create_secret_loop_no_timeout fuel k set rng trials :
  (forall alg seed, create_vector_from_seed fuel set alg seed <> Timeout) ->
  SECRET_KEY_TRIALS_MAX - trials <= Z.of_nat k ->
  create_secret_loop fuel k set rng trials <> Timeout.
Proof.
  intros Hv. unfold SECRET_KEY_TRIALS_MAX.
  revert rng trials. induction k as [|k IH]; intros rng trials Hk;
    cbn [create_secret_loop]; destruct (mgf1_alg set) as [alg seed_len];
    destruct (Z.ltb_spec trials SECRET_KEY_TRIALS_MAX) as [Hlt|Hge];
    unfold SECRET_KEY_TRIALS_MAX in *; try discriminate; try lia.
  destruct rng as [rng|]; [|discriminate].
  destruct (rng_get_bytes rng seed_len) as [[seed1 rng1]|]; [|discriminate].
  pose proof (Hv alg seed1) as Hv1.
  destruct (create_vector_from_seed fuel set alg seed1) as [[f|]| |];
    try discriminate; cbn; [|congruence].
  destruct (rng_get_bytes rng1 seed_len) as [[seed2 rng2]|]; [|discriminate].
  pose proof (Hv alg seed2) as Hv2.
  destruct (create_vector_from_seed fuel set alg seed2) as [[g|]| |];
    try discriminate; cbn; [|congruence].
  match goal with
  | |- context [if ?c then _ else _] => destruct c
  end; [discriminate|].
  apply IH. lia.
Qed.

(** The loop that fills [A]: when it ends with [success] true, no cell of
    [S1] is zero and each [A[i]] is [S2[i]] times the inverse of
    [S1[i]]. *)
Lemma derive_A_spec count i q S1 S2 A A' :
  derive_A count i q S1 S2 A = Ret (true, A') ->
  (i + count <= length A)%nat ->
  length A' = length A /\
  (forall j, (j < i)%nat -> rd A' j = rd A j) /\
  (forall j, (i <= j < i + count)%nat ->
     rd S1 j <> 0 /\
     exists x, invert (rd S1 j) q = Some x /\
               rd A' j = to_uint32 (rd S2 j * x) mod q).
Proof.
  revert i A. induction count as [|c IH]; intros i A Hd Hlen.
  - inversion Hd; subst. split; [reflexivity|]. split; [auto|]. intros j Hj. lia.
  - cbn [derive_A] in Hd.
    destruct (Z.eqb_spec (rd S1 i) 0) as [Hz|Hnz]; [discriminate|].
    destruct (invert (rd S1 i) q) as [x|] eqn:Ei; [|discriminate].
    rewrite rd_insert_eq in Hd by lia.
    apply IH in Hd; [|rewrite !length_insert; lia].
    rewrite !length_insert in Hd. destruct Hd as (Hl & Hlow & Hhigh).
    split; [exact Hl|]. split.
    + intros j Hj. rewrite Hlow by lia.
      rewrite !rd_insert_ne by lia. reflexivity.
    + intros j Hj. destruct (Nat.eq_dec i j) as [<-|Hne].
      * split; [exact Hnz|]. exists x. split; [exact Ei|].
        rewrite Hlow by lia. apply rd_insert_eq.
        rewrite length_insert. lia.
      * apply Hhigh. lia.
Qed.

Lemma derive_A_length count i q S1 S2 A success A' :
  derive_A count i q S1 S2 A = Ret (success, A') -> length A' = length A.
Proof.
  revert i A. induction count as [|c IH]; intros i A Hd.
  - inversion Hd; subst. reflexivity.
  - cbn [derive_A] in Hd.
    destruct (rd S1 i =? 0); [inversion Hd; subst; reflexivity|].
    destruct (invert (rd S1 i) q); [|discriminate].
    apply IH in Hd. rewrite !length_insert in Hd. exact Hd.
Qed.

Lemma derive_A_no_timeout count i q S1 S2 A :
  derive_A count i q S1 S2 A <> Timeout.
Proof.
  revert i A. induction count as [|c IH]; intros i A; [discriminate|].
  cbn [derive_A].
  destruct (rd S1 i =? 0); [discriminate|].
  destruct (invert (rd S1 i) q); [apply IH | discriminate].
Qed.

Lemma gen_loop_spec fuel k set rng trials S1 S2 A d :
  gen_loop fuel k set rng trials S1 S2 A = Ret d ->
  length S1 = ParamSet.n set -> length S2 = ParamSet.n set ->
  length A = ParamSet.n set ->
  trials <= SECRET_KEY_TRIALS_MAX ->
  trials <= d_trials d <= SECRET_KEY_TRIALS_MAX /\
  drawn_within rng (d_rng d)
    (2 * Z.of_nat (snd (mgf1_alg set)) * (d_trials d - trials)) /\
  (d_success d = true -> trials < d_trials d /\ derived_ok set d).
Proof.
  revert rng trials S1 S2 A.
  induction k as [|k IH]; intros rng trials S1 S2 A Hg HS1 HS2 HA Ht;
    [discriminate|].
  cbn [gen_loop] in Hg. unfold create_secret in Hg.
  match type of Hg with
  | context [create_secret_loop ?f ?kk ?s ?r ?t] =>
      destruct (create_secret_loop f kk s r t) as [r0| |] eqn:Ec; try discriminate
  end.
  apply create_secret_loop_spec in Ec.
  destruct Ec as (Hmono & Hmax & Hdrawn & Hok). specialize (Hmax Ht).
  cbn in Hg. destruct (secret_ok r0) eqn:Eok; cbn [negb] in Hg.
  2:{ inversion Hg; subst; clear Hg. cbn.
      split; [lia|]. split; [exact Hdrawn | discriminate]. }
  destruct (Hok eq_refl) as [Hlt Hgood].
  pose proof Hgood as (Hl1 & Hl2 & _).
  rewrite (to_unsigned_arrays_maps (ParamSet.q set) (ParamSet.n set)
             (secret_s1 r0) (secret_s2 r0) S1 S2) in Hg by assumption.
  match type of Hg with
  | context [derive_A ?c ?i ?q ?a ?b ?e] =>
      destruct (derive_A c i q a b e) as [[success A']| |] eqn:Ed; try discriminate
  end.
  cbn in Hg.
  assert (HA' : length A' = ParamSet.n set).
  { apply derive_A_length in Ed. lia. }
  destruct success; cbn [negb andb] in Hg.
  - inversion Hg; subst; clear Hg. cbn.
    split; [lia|]. split; [exact Hdrawn|]. intros _. split; [lia|].
    apply derive_A_spec in Ed; [|lia].
    destruct Ed as (Hl & _ & Hcells).
    unfold derived_ok. cbn. split; [exact Hgood|]. split; [exact HA'|].
    intros j Hj. apply Hcells. lia.
  - destruct (Z.ltb_spec (secret_trials r0) SECRET_KEY_TRIALS_MAX) as [Hmore|Hdone].
    + apply IH in Hg; try assumption; try lia;
        try (rewrite fft_transform_length; unfold unsigned_s1, unsigned_s2;
             rewrite length_map; assumption).
      destruct Hg as (Ht' & Hd' & Hok').
      split; [lia|]. split.
      * eapply drawn_within_trans; [exact Hdrawn | exact Hd' | nia].
      * intros Hs. destruct (Hok' Hs) as [Hlt' Hdok]. split; [lia | exact Hdok].
    + inversion Hg; subst; clear Hg. cbn.
      split; [lia|]. split; [exact Hdrawn | discriminate].
Qed.

Lemma gen_loop_no_timeout fuel k set rng trials S1 S2 A :
  (forall alg seed, create_vector_from_seed fuel set alg seed <> Timeout) ->
  trials < SECRET_KEY_TRIALS_MAX ->
  SECRET_KEY_TRIALS_MAX - trials <= Z.of_nat k ->
  gen_loop fuel k set rng trials S1 S2 A <> Timeout.
Proof.
  intros Hv. revert rng trials S1 S2 A.
  induction k as [|k IH]; intros rng trials S1 S2 A Ht Hk.
  - unfold SECRET_KEY_TRIALS_MAX in *. lia.
  - cbn [gen_loop]. unfold create_secret.
    pose proof (create_secret_loop_no_timeout fuel
                  (Z.to_nat (SECRET_KEY_TRIALS_MAX - trials)) set rng trials Hv
                  ltac:(lia)) as Hnt.
    destruct (create_secret_loop fuel (Z.to_nat (SECRET_KEY_TRIALS_MAX - trials))
                set rng trials) as [r0| |] eqn:Ec; [|discriminate|congruence].
    apply create_secret_loop_spec in Ec. destruct Ec as (_ & _ & _ & Hok).
    cbn. destruct (secret_ok r0); cbn [negb]; [|discriminate].
    destruct (Hok eq_refl) as [Hlt _].
    destruct (to_unsigned_arrays _ _ _ _ _) as [T1 T2].
    destruct (derive_A _ _ _ _ _ _) as [[success A']| |] eqn:Ed;
      [|discriminate|].
    + cbn. destruct success; cbn [negb andb]; [discriminate|].
      destruct (Z.ltb_spec (secret_trials r0) SECRET_KEY_TRIALS_MAX);
        [|discriminate].
      apply IH; lia.
    + exfalso. exact (derive_A_no_timeout _ _ _ _ _ _ Ed).
Qed.

End WithLib.
End KeyGenFacts.

Module KeyGenRelation.
Import KeyGenSpec KeyGenFacts.

Lemma prime_odd q : Z.prime q -> 3 <= q -> Z.odd q = true.
Proof.
  intros [_ Hdiv] Hq. destruct (Z.odd q) eqn:Eo; [reflexivity|].
  exfalso. apply (Hdiv 2); [lia|].
  rewrite <- Z.negb_even in Eo. apply negb_false_iff in Eo.
  apply Z.even_spec in Eo. destruct Eo as [c ->]. exists c. lia.
Qed.

Lemma Forall_rd (P : Z -> Prop) (v : list Z) :
  (forall i, (i < length v)%nat -> P (rd v i)) -> Forall P v.
Proof.
  intros Hrd. apply Forall_forall. intros x Hx.
  apply list_elem_of_In, (In_nth _ _ 0) in Hx. destruct Hx as (i & Hi & <-).
  rewrite <- rd_nth. apply Hrd, Hi.
Qed.

Lemma rd_Forall (P : Z -> Prop) (v : list Z) i :
  Forall P v -> (i < length v)%nat -> P (rd v i).
Proof.
  intros Hall Hi. rewrite Forall_forall in Hall. apply Hall.
  apply list_elem_of_In, rd_In, Hi.
Qed.

(** With coefficients as small as those of a secret and [q >= 5], the
    arrays the code stores are the lifts to residues modulo [q]. *)
Lemma unsigned_s1_lift q s1 :
  5 <= q < 2 ^ 16 -> Forall (fun x => - 2 <= x <= 2) s1 ->
  unsigned_s1 q s1 = KeySpec.lift q s1 /\
  Forall (fun x => 0 <= x < q) (KeySpec.lift q s1).
Proof.
  intros Hq Hall. unfold unsigned_s1, KeySpec.lift.
  change (2 ^ 16) with 65536 in Hq. split.
  - apply map_ext_in. intros x Hx. rewrite Forall_forall in Hall.
    apply list_elem_of_In, Hall in Hx. cbn in Hx.
    apply to_uint32_small. change (2 ^ 32) with 4294967296.
    destruct (x <? 0) eqn:E; lia.
  - apply Forall_map. eapply Forall_impl; [exact Hall|].
    intros x Hx. cbn in Hx |- *. destruct (x <? 0) eqn:E; lia.
Qed.

Lemma unsigned_s2_lift q s2 :
  5 <= q < 2 ^ 16 -> Forall (fun x => - 4 <= x <= 5) s2 ->
  unsigned_s2 q s2 = KeySpec.lift_neg q s2 /\
  Forall (fun x => 0 <= x < q) (KeySpec.lift_neg q s2).
Proof.
  intros Hq Hall. unfold unsigned_s2, KeySpec.lift_neg.
  change (2 ^ 16) with 65536 in Hq. split.
  - apply map_ext_in. intros x Hx. rewrite Forall_forall in Hall.
    apply list_elem_of_In, Hall in Hx. cbn in Hx.
    apply to_uint32_small. change (2 ^ 32) with 4294967296.
    destruct (0 <? x) eqn:E; lia.
  - apply Forall_map. eapply Forall_impl; [exact Hall|].
    intros x Hx. cbn in Hx |- *. destruct (0 <? x) eqn:E; lia.
Qed.

Section WithLib.
Context `{Lib}.

(** [bliss_private_key_gen] returns either before its loop, with no key,
    or with what the loop leaves. *)
Lemma gen_cases fuel args rng r :
  bliss_private_key_gen fuel args rng = Ret r ->
  r = {| gen_key := None; gen_trials := 0; gen_rng := rng |} \/
  exists set d,
    0 <= d_trials d <= SECRET_KEY_TRIALS_MAX /\
    drawn_within rng (d_rng d) (2 * Z.of_nat (snd (mgf1_alg set)) * d_trials d) /\
    (d_success d = true -> 0 < d_trials d /\ derived_ok set d) /\
    gen_trials r = d_trials d /\ gen_rng r = d_rng d /\
    gen_key r =
      if d_success d
      then Some {| Key.set := set; Key.s1 := d_s1 d; Key.s2 := d_s2 d;
                   Key.a := fft_transform (ParamSet.fft_params set) (d_A d) true |}
      else None.
Proof.
  unfold bliss_private_key_gen. intros Hg.
  destruct (gen_args args 1) as [[key_size|]| |]; cbn in Hg;
    try discriminate; [|inversion Hg; subst; auto].
  destruct (bliss_param_set_get_by_id key_size) as [set|];
    [|inversion Hg; subst; auto].
  match type of Hg with
  | (if ?c then _ else _) = _ => destruct c
  end; [inversion Hg; subst; auto|].
  match type of Hg with
  | context [gen_loop ?f ?k ?s ?r0 ?t ?a ?b ?c] =>
      destruct (gen_loop f k s r0 t a b c) as [d| |] eqn:El; try discriminate
  end.
  apply gen_loop_spec in El; try apply length_replicate;
    [|unfold SECRET_KEY_TRIALS_MAX; lia].
  destruct El as (Ht & Hdr & Hok). cbn in Hg.
  rewrite Z.sub_0_r in Hdr.
  right. exists set, d.
  destruct (d_success d); inversion Hg; subst; cbn; auto 10.
Qed.

(** The key [bliss_private_key_gen] returns comes from a successful run
    of its loop. *)
Lemma gen_key_derived fuel args rng r key :
  bliss_private_key_gen fuel args rng = Ret r -> gen_key r = Some key ->
  exists d,
    derived_ok (Key.set key) d /\ 0 < gen_trials r /\
    Key.s1 key = d_s1 d /\ Key.s2 key = d_s2 d /\
    Key.a key = fft_transform (ParamSet.fft_params (Key.set key)) (d_A d) true.
Proof.
  intros Hg Hk. apply gen_cases in Hg.
  destruct Hg as [->|(set & d & _ & _ & Hok & Et & _ & Ek)]; [discriminate|].
  rewrite Ek in Hk. destruct (d_success d); [|discriminate].
  destruct (Hok eq_refl) as [Hlt Hd]. inversion Hk; subst; clear Hk.
  exists d. cbn. rewrite Et. auto.
Qed.

End WithLib.
End KeyGenRelation.

Section KeyGenTheorems.
Context `{Lib}.
Import KeyGenSpec KeyGenFacts KeyGenRelation.

(** C1. For a key that [bliss_private_key_gen] returns, with [q] a prime
    from 5 up that fits in 16 bits and a transform that yields residues
    modulo [q] and undoes its own inverse: write [S1] and [S2] for the
    transforms of the lift of [s1] and of the lift of the negated [s2], and
    [A] for the transform of the public polynomial [a].  Then for every
    [i < n], [S1[i]] is not zero, [A[i] = (S2[i] * invert(S1[i], q)) mod q],
    and [S1[i] * A[i]] is congruent to [S2[i]] modulo [q]. *)
Theorem public_key_relation (fuel : nat) (args : list builder_part_t)
    (rng : option rng_t) (r : gen_result) (key : private_bliss_private_key_t) :
  let set := Key.set key in
  let q := ParamSet.q set in
  let n := ParamSet.n set in
  let fft := fft_transform (ParamSet.fft_params set) in
  bliss_private_key_gen fuel args rng = Ret r -> gen_key r = Some key ->
  Z.prime q -> 5 <= q < 2 ^ 16 ->
  (forall v, Forall (fun x => 0 <= x < q) v ->
             Forall (fun x => 0 <= x < q) (fft v false)) ->
  (forall v, length v = n -> Forall (fun x => 0 <= x < q) v ->
             fft (fft v true) false = v) ->
  let S1 := fft (KeySpec.lift q (Key.s1 key)) false in
  let S2 := fft (KeySpec.lift_neg q (Key.s2 key)) false in
  let A := fft (Key.a key) false in
  forall i, (i < n)%nat ->
    rd S1 i <> 0 /\
    (exists x, invert (rd S1 i) q = Some x /\ rd A i = (rd S2 i * x) mod q) /\
    (rd S1 i * rd A i) mod q = rd S2 i mod q.
Proof.
  intros set q n fft Hg Hk Hp Hq Hrange Hround S1 S2 A i Hi.
  destruct (gen_key_derived fuel args rng r key Hg Hk)
    as (d & Hd & _ & E1 & E2 & Ea).
  destruct Hd as ((Hl1 & Hl2 & Hb1 & Hb2 & _) & HlA & Hcells).
  fold set q in Hcells, Hl1, Hl2, HlA. fold n in Hcells, Hl1, Hl2, HlA.
  destruct (unsigned_s1_lift q (d_s1 d) Hq Hb1) as [Eu1 Hr1].
  destruct (unsigned_s2_lift q (d_s2 d) Hq Hb2) as [Eu2 Hr2].
  rewrite Eu1, Eu2 in Hcells.
  assert (HS1 : forall j, (j < n)%nat -> 0 <= rd S1 j < q).
  { intros j Hj. unfold S1. apply rd_Forall.
    - apply Hrange. rewrite E1. exact Hr1.
    - unfold fft. rewrite fft_transform_length. unfold KeySpec.lift.
      rewrite length_map, E1. lia. }
  assert (HS2 : forall j, (j < n)%nat -> 0 <= rd S2 j < q).
  { intros j Hj. unfold S2. apply rd_Forall.
    - apply Hrange. rewrite E2. exact Hr2.
    - unfold fft. rewrite fft_transform_length. unfold KeySpec.lift_neg.
      rewrite length_map, E2. lia. }
  assert (Hcell : forall j, (j < n)%nat ->
            rd S1 j <> 0 /\
            invert (rd S1 j) q = Some (rd S1 j ^ (q - 2) mod q) /\
            rd (d_A d) j = (rd S2 j * (rd S1 j ^ (q - 2) mod q)) mod q).
  { intros j Hj. destruct (Hcells j Hj) as (Hnz & x & Hx & HAj).
    fold fft in Hnz, Hx, HAj. rewrite <- E1 in Hnz, Hx. rewrite <- E2 in HAj.
    fold S1 in Hnz, Hx. fold S2 in HAj.
    pose proof (HS1 j Hj) as Hr. pose proof (HS2 j Hj) as Hr'.
    assert (Hinv : invert (rd S1 j) q = Some (rd S1 j ^ (q - 2) mod q)).
    { apply invert_eq; [exact Hp | apply prime_odd; [exact Hp | lia] | lia | lia]. }
    rewrite Hinv in Hx. inversion Hx; subst x. repeat split; auto.
    rewrite HAj. f_equal. apply to_uint32_small.
    pose proof (Z.mod_pos_bound (rd S1 j ^ (q - 2)) q ltac:(lia)) as Hb.
    change (2 ^ 16) with 65536 in Hq. change (2 ^ 32) with (65536 * 65536). nia. }
  assert (HA : A = d_A d).
  { unfold A. rewrite Ea. fold fft. apply Hround; [exact HlA|].
    apply Forall_rd. intros j Hj. rewrite HlA in Hj.
    destruct (Hcell j Hj) as (_ & _ & ->). apply Z.mod_pos_bound. lia. }
  destruct (Hcell i Hi) as (Hnz & Hinv & HAi). rewrite HA.
  split; [exact Hnz|]. split.
  - eexists. split; [exact Hinv | exact HAi].
  - rewrite HAi. rewrite Z.mul_mod_idemp_r by lia.
    replace (rd S1 i * (rd S2 i * (rd S1 i ^ (q - 2) mod q)))
      with (rd S2 i * (rd S1 i * (rd S1 i ^ (q - 2) mod q))) by ring.
    rewrite <- Z.mul_mod_idemp_r by lia.
    rewrite fermat_inverse; [|exact Hp|lia|].
    + rewrite Z.mul_1_r. reflexivity.
    + pose proof (HS1 i Hi). lia.
Qed.

End KeyGenTheorems.

(** The transform of the small instance keeps residues modulo 5 and undoes
    its inverse. *)
Lemma toy_transform_range (v : list Z) :
  Forall (fun x => 0 <= x < 5) v ->
  Forall (fun x => 0 <= x < 5) (Toy.transform Toy.fft_params v false).
Proof.
  intros Hv. unfold Toy.transform.
  destruct v as [|v0 [|v1 [|v2 v]]]; try exact Hv.
  repeat constructor; apply Z.mod_pos_bound; lia.
Qed.

Lemma toy_transform_round_trip (v : list Z) :
  length v = 2%nat -> Forall (fun x => 0 <= x < 5) v ->
  Toy.transform Toy.fft_params (Toy.transform Toy.fft_params v true) false = v.
Proof.
  intros Hl Hv. destruct v as [|v0 [|v1 [|v2 v]]]; try discriminate.
  apply Forall_cons_1 in Hv as [H0 Hv]. apply Forall_cons_1 in Hv as [H1 _].
  assert (E0 : v0 = 0 \/ v0 = 1 \/ v0 = 2 \/ v0 = 3 \/ v0 = 4) by lia.
  assert (E1 : v1 = 0 \/ v1 = 1 \/ v1 = 2 \/ v1 = 3 \/ v1 = 4) by lia.
  destruct E0 as [->|[->|[->|[->| ->]]]], E1 as [->|[->|[->|[->| ->]]]]; reflexivity.
Qed.

Lemma prime_5 : Z.prime 5.
Proof. apply (no_divisor_below_prime 5 3); [lia | lia | reflexivity]. Qed.

Lemma public_key_relation_witness :
  bliss_private_key_gen 10 [BUILD_KEY_SIZE 1; BUILD_END]
    (Some (Toy.constant_rng Byte.x03 200)) = Ret Toy.generated /\
  Toy.relation_at 0 /\ Toy.relation_at 1.
Proof.
  split; [vm_compute; reflexivity|].
  assert (Hall : forall i, (i < 2)%nat -> Toy.relation_at i).
  { apply (@public_key_relation Toy.lib 10 [BUILD_KEY_SIZE 1; BUILD_END]
             (Some (Toy.constant_rng Byte.x03 200)) Toy.generated Toy.generated_key).
    - vm_compute. reflexivity.
    - reflexivity.
    - exact prime_5.
    - cbn. lia.
    - exact toy_transform_range.
    - exact toy_transform_round_trip. }
  split; apply Hall; lia.
Defined.

(** ** The Nk(S) norm *)

Module NkFacts.
Import NkCode.

(** *** Sums over index ranges *)

Lemma sum_range_ext f g lo k :
  (forall i, (lo <= i < lo + k)%nat -> f i = g i) ->
  sum_range f lo k = sum_range g lo k.
Proof.
  revert lo. induction k as [|k IH]; intros lo Hfg; [reflexivity|].
  cbn [sum_range]. rewrite Hfg by lia. f_equal. apply IH.
  intros i Hi. apply Hfg. lia.
Qed.

Lemma sum_range_shift f lo d k :
  sum_range f (lo + d) k = sum_range (fun i => f (i + d)%nat) lo k.
Proof.
  revert lo. induction k as [|k IH]; intros lo; [reflexivity|].
  cbn [sum_range]. f_equal. apply (IH (Datatypes.S lo)).
Qed.

Lemma sum_range_split f lo k1 k2 :
  sum_range f lo (k1 + k2) = sum_range f lo k1 + sum_range f (lo + k1) k2.
Proof.
  revert lo. induction k1 as [|k1 IH]; intros lo.
  - cbn. rewrite Nat.add_0_r. reflexivity.
  - cbn [sum_range Nat.add]. rewrite IH.
    replace (Datatypes.S lo + k1)%nat with (lo + Datatypes.S k1)%nat by lia. lia.
Qed.

Lemma sum_range_snoc f lo k :
  sum_range f lo (Datatypes.S k) = sum_range f lo k + f (lo + k)%nat.
Proof.
  replace (Datatypes.S k) with (k + 1)%nat by lia.
  rewrite sum_range_split. cbn. lia.
Qed.

Lemma sum_range_opp f lo k :
  sum_range (fun i => - f i) lo k = - sum_range f lo k.
Proof.
  revert lo. induction k as [|k IH]; intros lo; [reflexivity|].
  cbn [sum_range]. rewrite IH. lia.
Qed.

(** *** Accumulators *)

Lemma to_uint32_add_l x y : to_uint32 (to_uint32 x + y) = to_uint32 (x + y).
Proof. unfold to_uint32, to_unsigned. apply Zplus_mod_idemp_l. Qed.

(** An [int16_t] accumulator holds the sum, converted once. *)
Lemma for_loop_acc16 (f : nat -> Z) k lo p0 :
  - 2 ^ 15 <= p0 < 2 ^ 15 ->
  for_loop k lo (fun i p => to_int16 (p + f i)) p0 = to_int16 (p0 + sum_range f lo k).
Proof.
  revert lo p0. induction k as [|k IH]; intros lo p0 Hp0.
  - cbn. rewrite Z.add_0_r, to_int16_small by exact Hp0. reflexivity.
  - cbn [for_loop sum_range]. rewrite IH by apply to_int16_range.
    rewrite to_int16_add_l. f_equal. lia.
Qed.

Lemma for_loop_acc16_sub (f : nat -> Z) k lo p0 :
  - 2 ^ 15 <= p0 < 2 ^ 15 ->
  for_loop k lo (fun i p => to_int16 (p - f i)) p0 = to_int16 (p0 - sum_range f lo k).
Proof.
  intros Hp0.
  rewrite (for_loop_ext k lo _ (fun i p => to_int16 (p + - f i)))
    by (intros; f_equal; lia).
  rewrite (for_loop_acc16 (fun i => - f i)) by exact Hp0.
  rewrite sum_range_opp. f_equal; lia.
Qed.

(** A [uint32_t] accumulator likewise. *)
Lemma for_loop_acc32 (f : nat -> Z) k lo a0 :
  0 <= a0 < 2 ^ 32 ->
  for_loop k lo (fun i a => to_uint32 (a + f i)) a0 = to_uint32 (a0 + sum_range f lo k).
Proof.
  revert lo a0. induction k as [|k IH]; intros lo a0 Ha0.
  - cbn. rewrite Z.add_0_r, to_uint32_small by exact Ha0. reflexivity.
  - cbn [for_loop sum_range].
    rewrite IH by (apply Z.mod_pos_bound; lia).
    rewrite to_uint32_add_l. f_equal. lia.
Qed.

(** An accumulator kept in cell [c] of an [int16_t] array. *)
Lemma for_loop_acc16_cell (f : nat -> Z) c k lo (v : list Z) :
  (c < length v)%nat -> - 2 ^ 15 <= rd v c < 2 ^ 15 ->
  for_loop k lo (fun j v => <[c := to_int16 (rd v c + f j)]> v) v
  = <[c := to_int16 (rd v c + sum_range f lo k)]> v.
Proof.
  revert lo v. induction k as [|k IH]; intros lo v Hc Hr.
  - cbn. rewrite Z.add_0_r, to_int16_small by exact Hr.
    symmetry. apply list_insert_id. unfold rd in *.
    destruct (v !! c) eqn:E; [reflexivity|].
    apply lookup_ge_None in E. lia.
  - cbn [for_loop sum_range]. rewrite IH.
    + rewrite rd_insert_eq by exact Hc.
      rewrite list_insert_insert_eq, to_int16_add_l. do 2 f_equal. lia.
    + rewrite length_insert. exact Hc.
    + rewrite rd_insert_eq by exact Hc. apply to_int16_range.
Qed.

(** The top [k] cells, read from the end, sum to the sum of the tail. *)
Lemma sum_range_tail (l : list Z) k :
  (k <= length l)%nat ->
  sum_range (fun j => rd l (length l - j)) 1 k = foldr Z.add 0 (drop (length l - k) l).
Proof.
  induction k as [|k IH]; intros Hk.
  - cbn. rewrite Nat.sub_0_r, drop_all. reflexivity.
  - rewrite sum_range_snoc, IH by lia.
    replace (1 + k)%nat with (Datatypes.S k) by lia.
    assert (Hlook : l !! (length l - Datatypes.S k)%nat
                    = Some (rd l (length l - Datatypes.S k))).
    { unfold rd. destruct (l !! (length l - Datatypes.S k)%nat) eqn:E; [reflexivity|].
      apply lookup_ge_None in E. lia. }
    rewrite (drop_S l _ _ Hlook).
    replace (Datatypes.S (length l - Datatypes.S k)) with (length l - k)%nat by lia.
    cbn [foldr]. lia.
Qed.

(** A loop that stores [val j] in cell [pos j], with the [pos j] distinct
    and inside the array. *)
Lemma for_loop_scatter (pos : nat -> nat) (val : nat -> Z) k lo (w : list Z) :
  (forall j, (lo <= j < lo + k)%nat -> (pos j < length w)%nat) ->
  (forall j j', (lo <= j < lo + k)%nat -> (lo <= j' < lo + k)%nat ->
                pos j = pos j' -> j = j') ->
  let w' := for_loop k lo (fun j w => <[pos j := val j]> w) w in
  length w' = length w /\
  (forall j, (lo <= j < lo + k)%nat -> rd w' (pos j) = val j) /\
  (forall c, (forall j, (lo <= j < lo + k)%nat -> pos j <> c) -> rd w' c = rd w c).
Proof.
  intros Hin Hinj. cbv zeta.
  pose (P := fun (i : nat) (w' : list Z) =>
               length w' = length w /\
               (forall j, (lo <= j < i)%nat -> rd w' (pos j) = val j) /\
               (forall c, (forall j, (lo <= j < i)%nat -> pos j <> c) -> rd w' c = rd w c)).
  assert (HP : P (lo + k)%nat (for_loop k lo (fun j w => <[pos j := val j]> w) w)).
  { apply (for_loop_inv P).
    - unfold P. repeat split; auto. intros j Hj. lia.
    - intros i w' Hi (Hl & Hdone & Hrest). unfold P. repeat split.
      + rewrite length_insert. exact Hl.
      + intros j Hj. destruct (Nat.eq_dec i j) as [<-|Hne].
        * apply rd_insert_eq. rewrite Hl. apply Hin. lia.
        * rewrite rd_insert_ne.
          -- apply Hdone. lia.
          -- intros Hp. apply Hne. apply Hinj; [lia | lia | exact Hp].
      + intros c Hc. rewrite rd_insert_ne by (apply Hc; lia).
        apply Hrest. intros j Hj. apply Hc. lia. }
  exact HP.
Qed.

End NkFacts.

Module NkRefine.
Import NkCode NkFacts NkSpec.

(** *** Rotation and inner product, cell by cell *)

Lemma length_rho s (t : list Z) : (s <= length t)%nat -> length (rho s t) = length t.
Proof.
  intros Hs. unfold rho. rewrite length_app, length_map, length_drop, length_take. lia.
Qed.

Lemma rd_rho s (t : list Z) k :
  (s <= length t)%nat -> (k < length t)%nat ->
  rd (rho s t) k =
  if (k <? s)%nat then - rd t (length t - s + k) else rd t (k - s).
Proof.
  intros Hs Hk. unfold rho. rewrite !rd_nth.
  destruct (Nat.ltb_spec k s) as [Hlt|Hge].
  - rewrite app_nth1 by (rewrite length_map, length_drop; lia).
    rewrite <- rd_nth, rd_map by (rewrite length_drop; lia).
    rewrite rd_nth, nth_skipn, <- rd_nth. reflexivity.
  - rewrite app_nth2 by (rewrite length_map, length_drop; lia).
    rewrite length_map, length_drop.
    replace (length t - (length t - s))%nat with s by lia.
    rewrite nth_firstn.
    destruct (Nat.ltb_spec (k - s) (length t - s)); [reflexivity | lia].
Qed.

Lemma In_rho s (t : list Z) x : In x (rho s t) -> In x t \/ In (- x) t.
Proof.
  unfold rho. intros Hx. apply in_app_or in Hx.
  pose proof (firstn_skipn (length t - s) t) as Ht.
  destruct Hx as [Hx|Hx].
  - right. apply in_map_iff in Hx. destruct Hx as (y & <- & Hy).
    rewrite Z.opp_involutive. rewrite <- Ht. apply in_or_app. right. exact Hy.
  - left. rewrite <- Ht. apply in_or_app. left. exact Hx.
Qed.

Lemma inner_sum_range (x y : list Z) :
  length x = length y ->
  inner x y = sum_range (fun k => rd x k * rd y k) 0 (length x).
Proof.
  revert y. induction x as [|a x IH]; intros [|b y] Hl; try discriminate;
    [reflexivity|].
  unfold inner in *. cbn [zip_with foldr length sum_range].
  rewrite IH by (simpl in Hl; lia).
  change 1%nat with (0 + 1)%nat. rewrite sum_range_shift.
  f_equal. apply sum_range_ext. intros i _.
  replace (i + 1)%nat with (Datatypes.S i) by lia. reflexivity.
Qed.

(** The two sums of [wrapped_product], without the conversions, are the
    inner product with the rotated vector. *)
Lemma inner_rho_sums (x : list Z) s :
  (s <= length x)%nat ->
  inner x (rho s x) =
  sum_range (fun i => rd x i * rd x (i + s)) 0 (length x - s)
  - sum_range (fun i => rd x i * rd x (i + s - length x)) (length x - s)
      (length x - (length x - s)).
Proof.
  intros Hs. set (n := length x).
  rewrite inner_sum_range by (rewrite length_rho; auto).
  fold n.
  replace n with (s + (n - s))%nat at 1 by lia.
  rewrite sum_range_split. cbn [Nat.add].
  replace (n - (n - s))%nat with s by lia.
  assert (E1 : sum_range (fun k => rd x k * rd (rho s x) k) 0 s
               = - sum_range (fun i => rd x i * rd x (i + s - n)) (n - s) s).
  { replace (n - s)%nat with (0 + (n - s))%nat at 1 by lia.
    rewrite sum_range_shift, <- sum_range_opp.
    apply sum_range_ext. intros k Hk.
    rewrite rd_rho by (fold n; lia). fold n.
    destruct (Nat.ltb_spec k s); [|lia].
    replace (k + (n - s) + s - n)%nat with k by lia.
    replace (n - s + k)%nat with (k + (n - s))%nat by lia. ring. }
  assert (E2 : sum_range (fun k => rd x k * rd (rho s x) k) s (n - s)
               = sum_range (fun i => rd x i * rd x (i + s)) 0 (n - s)).
  { replace s with (0 + s)%nat at 1 by lia.
    rewrite sum_range_shift.
    apply sum_range_ext. intros k Hk.
    rewrite rd_rho by (fold n; lia).
    destruct (Nat.ltb_spec (k + s) s); [lia|].
    replace (k + s - s)%nat with k by lia. ring. }
  rewrite E1, E2. lia.
Qed.

Lemma wrapped_product_inner (x : list Z) s :
  (s <= length x)%nat ->
  wrapped_product x x (length x) s = to_int16 (inner x (rho s x)).
Proof.
  intros Hs. unfold wrapped_product.
  rewrite (for_loop_acc16 (fun i => rd x i * rd x (i + s)))
    by (change (2 ^ 15) with 32768; lia).
  rewrite (for_loop_acc16_sub (fun i => rd x i * rd x (i + s - length x)))
    by apply to_int16_range.
  rewrite Z.add_0_l, inner_rho_sums by exact Hs.
  unfold Z.sub. rewrite to_int16_add_l. reflexivity.
Qed.

(** *** [wrap] is the rotation *)

Lemma wrap_rho (t : list Z) s (w : list Z) :
  (s <= length t)%nat -> length w = length t ->
  Forall (fun x => - 2 ^ 15 < x < 2 ^ 15) t ->
  wrap t (length t) s w = rho s t.
Proof.
  intros Hs Hw Hall. set (n := length t) in *. unfold wrap.
  destruct (for_loop_scatter (fun i => (i + s)%nat) (fun i => rd t i) (n - s) 0 w)
    as (Hl1 & Hset1 & Hkeep1).
  { intros j Hj. lia. }
  { intros j j' _ _ Hp. lia. }
  cbv zeta in Hl1, Hset1, Hkeep1.
  set (w1 := for_loop (n - s) 0 (fun i w => <[(i + s)%nat := rd t i]> w) w) in *.
  destruct (for_loop_scatter (fun i => (i + s - n)%nat) (fun i => to_int16 (- rd t i))
              (n - (n - s)) (n - s) w1) as (Hl2 & Hset2 & Hkeep2).
  { intros j Hj. lia. }
  { intros j j' Hj Hj' Hp. lia. }
  cbv zeta in Hl2, Hset2, Hkeep2.
  set (w2 := for_loop (n - (n - s)) (n - s)
               (fun i w => <[(i + s - n)%nat := to_int16 (- rd t i)]> w) w1) in *.
  apply rd_ext.
  - rewrite length_rho by exact Hs. lia.
  - intros k Hk. rewrite Hl2, Hl1, Hw in Hk. fold n in Hk.
    rewrite rd_rho by (fold n; lia). fold n.
    destruct (Nat.ltb_spec k s) as [Hlt|Hge].
    + replace k with ((n - s + k) + s - n)%nat at 1 by lia.
      rewrite (Hset2 (n - s + k)%nat) by lia.
      apply to_int16_small.
      assert (Hin : - 2 ^ 15 < rd t (n - s + k) < 2 ^ 15).
      { rewrite Forall_forall in Hall. apply Hall.
        apply list_elem_of_In, rd_In. fold n. lia. }
      lia.
    + rewrite Hkeep2 by (intros j Hj; lia).
      replace k with ((k - s) + s)%nat at 1 by lia.
      apply (Hset1 (k - s)%nat). lia.
Qed.

(** *** Sorting *)

(** Where the difference fits an [int16_t], [compare] orders as [<=]. *)
Lemma compare_le x y :
  - 2 ^ 15 < x - y < 2 ^ 15 -> (compare x y <=? 0) = (x <=? y).
Proof.
  intros Hd. unfold compare. rewrite to_int16_small by lia.
  destruct (Z.ltb_spec 0 (x - y)), (Z.ltb_spec (x - y) 0), (Z.leb_spec x y);
    try reflexivity; lia.
Qed.

Lemma qsort_insert_perm cmp x l : Permutation (qsort_insert cmp x l) (x :: l).
Proof.
  induction l as [|y l IH]; cbn; [reflexivity|].
  destruct (cmp x y <=? 0); [reflexivity|].
  rewrite IH. apply perm_swap.
Qed.

Lemma qsort_perm cmp l : Permutation (qsort cmp l) l.
Proof.
  induction l as [|x l IH]; cbn; [reflexivity|].
  rewrite qsort_insert_perm. apply perm_skip, IH.
Qed.

Lemma qsort_insert_sorted cmp x l :
  (forall y, In y l -> (cmp x y <=? 0) = (x <=? y)) ->
  StronglySorted Z.le l -> StronglySorted Z.le (qsort_insert cmp x l).
Proof.
  intros Hcmp Hs. induction Hs as [|y l Hs IH Hy]; cbn.
  - repeat constructor.
  - rewrite Hcmp by (left; reflexivity).
    destruct (Z.leb_spec x y) as [Hle|Hgt].
    + constructor; [constructor; assumption|].
      constructor; [exact Hle|].
      rewrite Forall_forall in Hy |- *. intros z Hz. specialize (Hy z Hz). lia.
    + constructor.
      * apply IH. intros z Hz. apply Hcmp. right. exact Hz.
      * rewrite Forall_forall in Hy |- *. intros z Hz.
        apply list_elem_of_In in Hz.
        apply (Permutation_in _ (qsort_insert_perm cmp x l)) in Hz.
        destruct Hz as [<-|Hz]; [lia|]. apply Hy, list_elem_of_In, Hz.
Qed.

Lemma qsort_sorted cmp l :
  (forall x y, In x l -> In y l -> (cmp x y <=? 0) = (x <=? y)) ->
  StronglySorted Z.le (qsort cmp l).
Proof.
  induction l as [|x l IH]; intros Hcmp; cbn; [constructor|].
  apply qsort_insert_sorted.
  - intros y Hy. apply Hcmp; [left; reflexivity|].
    right. apply (Permutation_in _ (qsort_perm cmp l)), Hy.
  - apply IH. intros y z Hy Hz. apply Hcmp; right; assumption.
Qed.

(** An array sorted ascending is determined by its entries. *)
Lemma sorted_perm_unique (l1 l2 : list Z) :
  StronglySorted Z.le l1 -> StronglySorted Z.le l2 -> Permutation l1 l2 -> l1 = l2.
Proof.
  intros H1. revert l2. induction H1 as [|x l1 H1 IH Hx]; intros l2 H2 Hp.
  - apply Permutation_nil in Hp. subst. reflexivity.
  - destruct H2 as [|y l2 H2 Hy].
    + apply Permutation_sym, Permutation_nil in Hp. discriminate.
    + assert (Hxy : x = y).
      { rewrite Forall_forall in Hx, Hy.
        assert (Hin1 : In x (y :: l2)) by (apply (Permutation_in _ Hp); left; reflexivity).
        assert (Hin2 : In y (x :: l1))
          by (apply (Permutation_in _ (Permutation_sym Hp)); left; reflexivity).
        destruct Hin1 as [->|Hin1]; [reflexivity|].
        destruct Hin2 as [->|Hin2]; [reflexivity|].
        apply list_elem_of_In, Hy in Hin1. apply list_elem_of_In, Hx in Hin2. lia. }
      subst y. f_equal. apply IH; [exact H2|].
      apply Permutation_cons_inv in Hp. exact Hp.
Qed.

Lemma sort_sorted l : StronglySorted Z.le (ZSort.sort l).
Proof.
  assert (Htrans : Transitive (fun x y => is_true (ZOrder.leb x y))).
  { intros x y z. unfold is_true, ZOrder.leb. rewrite !Z.leb_le. lia. }
  pose proof (ZSort.StronglySorted_sort l Htrans) as Hs.
  induction Hs as [|x l' Hs IH Hx]; constructor; [exact IH|].
  eapply Forall_impl; [exact Hx|].
  intros y Hy. cbn in Hy. unfold is_true, ZOrder.leb in Hy. apply Z.leb_le, Hy.
Qed.

(** Under a comparator that orders its entries, [qsort] yields the array
    sorted ascending. *)
Lemma qsort_compare_sort b l :
  0 <= b -> 2 * b < 2 ^ 15 ->
  Forall (fun x => - b <= x <= b) l ->
  qsort compare l = ZSort.sort l.
Proof.
  intros Hb Hb2 Hall. apply sorted_perm_unique.
  - apply qsort_sorted. intros x y Hx Hy. apply compare_le.
    rewrite Forall_forall in Hall.
    apply list_elem_of_In, Hall in Hx. apply list_elem_of_In, Hall in Hy. lia.
  - apply sort_sorted.
  - rewrite qsort_perm. apply ZSort.Permuted_sort.
Qed.

End NkRefine.

Module NkMain.
Import NkCode NkFacts NkSpec NkRefine.

Lemma fits_rho b s t : fits b t -> fits b (rho s t).
Proof.
  unfold fits. rewrite !Forall_forall. intros Ht x Hx.
  apply list_elem_of_In, In_rho in Hx. destruct Hx as [Hx|Hx];
    apply list_elem_of_In, Ht in Hx; lia.
Qed.

Lemma fits_rd b l i : fits b l -> (i < length l)%nat -> - b <= rd l i <= b.
Proof.
  unfold fits. rewrite Forall_forall. intros Hl Hi.
  apply Hl, list_elem_of_In, rd_In, Hi.
Qed.

Lemma length_autocorrelation n s1 s2 : length (autocorrelation n s1 s2) = n.
Proof. unfold autocorrelation. rewrite length_map, length_seq. reflexivity. Qed.

Lemma length_max_kappa n kappa t : length (max_kappa n kappa t) = n.
Proof. unfold max_kappa. rewrite length_map, length_seq. reflexivity. Qed.

Lemma length_sort l : length (ZSort.sort l) = length l.
Proof. symmetry. apply Permutation_length, ZSort.Permuted_sort. Qed.

Lemma sum_range_tail_n (l : list Z) n k :
  length l = n -> (k <= n)%nat ->
  sum_range (fun j => rd l (n - j)) 1 k = foldr Z.add 0 (drop (n - k) l).
Proof. intros <-. apply sum_range_tail. Qed.

(** The first loop of [nks_norm] fills [t] with the autocorrelations. *)
Lemma t_loop_autocorrelation (s1 s2 : list Z) n :
  length s1 = n -> length s2 = n ->
  fits 16383 (autocorrelation n s1 s2) ->
  for_loop n 0
    (fun i t => <[i := to_int16 (wrapped_product s1 s1 n i +
                                 wrapped_product s2 s2 n i)]> t)
    (replicate n 0) = autocorrelation n s1 s2.
Proof.
  intros H1 H2 Hfit.
  rewrite (for_loop_fill
             (fun i => to_int16 (wrapped_product s1 s1 n i + wrapped_product s2 s2 n i)))
    by apply length_replicate.
  unfold autocorrelation. apply map_ext_in. intros i Hi. apply in_seq in Hi.
  assert (Hwp : forall x, length x = n ->
            wrapped_product x x n i = to_int16 (inner x (rho i x))).
  { intros x <-. apply wrapped_product_inner. lia. }
  rewrite (Hwp s1 H1), (Hwp s2 H2).
  rewrite to_int16_add_l, Z.add_comm, to_int16_add_l, Z.add_comm.
  apply to_int16_small.
  pose proof (fits_rd 16383 _ i Hfit) as Hb.
  rewrite length_autocorrelation in Hb. specialize (Hb ltac:(lia)).
  unfold autocorrelation in Hb. rewrite rd_map_seq in Hb by lia.
  change (2 ^ 15) with 32768. lia.
Qed.

Lemma length_qsort cmp l : length (qsort cmp l) = length l.
Proof. apply Permutation_length, qsort_perm. Qed.

(** Where the comparator orders the cells, this is the sum of the
    definition. *)
Lemma sum_top_qsort_sort kappa l :
  fits 16383 l -> sum_top_qsort kappa l = sum_top kappa l.
Proof.
  intros Hfit. unfold sum_top_qsort, sum_top.
  rewrite (qsort_compare_sort 16383);
    [reflexivity|lia|change (2 ^ 15) with 32768; lia|exact Hfit].
Qed.

Lemma foldr_add_perm (l l' : list Z) :
  Permutation l l' -> foldr Z.add 0 l = foldr Z.add 0 l'.
Proof.
  induction 1 as [|x l l' _ IH|x y l|l l' l'' _ IH1 _ IH2]; cbn; lia.
Qed.

(** With [kappa] the whole length it is the sum of all cells, however
    [qsort] arranges them. *)
Lemma sum_top_qsort_all l : sum_top_qsort (length l) l = foldr Z.add 0 l.
Proof.
  unfold sum_top_qsort. rewrite Nat.sub_diag. cbn [drop].
  apply foldr_add_perm, qsort_perm.
Qed.

(** One round of the second loop: cell [i] of [max_kappa] receives the sum
    of the top [kappa] entries of [t] rotated by [i]. *)
Lemma max_kappa_round (t : list Z) kappa i (t_wrapped max_kappa : list Z) :
  (i < length t)%nat -> (kappa <= length t)%nat ->
  length t_wrapped = length t -> length max_kappa = length t ->
  fits 16383 t ->
  let n := length t in
  let t_wrapped' := qsort compare (wrap t n i t_wrapped) in
  let max_kappa' :=
    for_loop kappa 1
      (fun j mk => <[i := to_int16 (rd mk i + rd t_wrapped' (n - j))]> mk)
      (<[i := 0]> max_kappa) in
  length t_wrapped' = n /\
  max_kappa' = <[i := to_int16 (sum_top_qsort kappa (rho i t))]> max_kappa.
Proof.
  intros Hi Hk Hw Hm Hfit. cbv zeta.
  rewrite wrap_rho; [|lia|exact Hw|].
  2:{ eapply Forall_impl; [exact Hfit|]. intros x Hx. cbn in Hx |- *.
      change (2 ^ 15) with 32768. lia. }
  assert (Hls : length (qsort compare (rho i t)) = length t).
  { rewrite length_qsort, length_rho; lia. }
  split; [exact Hls|].
  rewrite (for_loop_acc16_cell
             (fun j => rd (qsort compare (rho i t)) (length t - j))).
  - rewrite rd_insert_eq by lia. rewrite list_insert_insert_eq, Z.add_0_l.
    rewrite (sum_range_tail_n _ (length t)) by (exact Hls || exact Hk).
    unfold sum_top_qsort. rewrite length_rho by lia. reflexivity.
  - rewrite length_insert. lia.
  - rewrite rd_insert_eq by lia. change (2 ^ 15) with 32768. lia.
Qed.

(** The second loop fills [max_kappa]. *)
Lemma max_kappa_loop (t : list Z) kappa (t_wrapped0 max_kappa0 : list Z) :
  (kappa <= length t)%nat ->
  length t_wrapped0 = length t -> length max_kappa0 = length t ->
  fits 16383 t ->
  let n := length t in
  snd (for_loop n 0
         (fun i '(t_wrapped, max_kappa) =>
            let t_wrapped := wrap t n i t_wrapped in
            let t_wrapped := qsort compare t_wrapped in
            let max_kappa := <[i := 0]> max_kappa in
            let max_kappa :=
              for_loop kappa 1
                (fun j mk => <[i := to_int16 (rd mk i + rd t_wrapped (n - j))]> mk)
                max_kappa in
            (t_wrapped, max_kappa))
         (t_wrapped0, max_kappa0))
  = max_kappa_qsort kappa t.
Proof.
  intros Hk Hw Hm Hfit. cbv zeta.
  pose (P := fun (i : nat) (st : list Z * list Z) =>
               length (fst st) = length t /\ length (snd st) = length t /\
               forall k, (k < i)%nat ->
                 rd (snd st) k = rd (max_kappa_qsort kappa t) k).
  match goal with
  | |- snd (for_loop ?n 0 ?body ?st0) = _ =>
      assert (HP : P (0 + n)%nat (for_loop n 0 body st0))
  end.
  { apply (for_loop_inv P).
    - unfold P. cbn. repeat split; auto. intros k Hk0. lia.
    - intros i [tw mk] Hi (Hl1 & Hl2 & Hdone). cbn in Hl1, Hl2, Hdone.
      destruct (max_kappa_round t kappa i tw mk ltac:(lia) Hk Hl1 Hl2 Hfit)
        as [Hlen Hmk].
      cbv zeta in Hlen, Hmk. unfold P. cbn [fst snd].
      split; [exact Hlen|]. rewrite Hmk. split; [rewrite length_insert; exact Hl2|].
      intros k Hk0. destruct (Nat.eq_dec i k) as [<-|Hne].
      + rewrite rd_insert_eq by lia.
        unfold max_kappa_qsort. rewrite rd_map_seq by lia. reflexivity.
      + rewrite rd_insert_ne by exact Hne. apply Hdone. lia. }
  destruct HP as (_ & Hl & Hcells).
  apply rd_ext.
  - rewrite Hl. unfold max_kappa_qsort. rewrite length_map, length_seq. reflexivity.
  - intros k Hk0. apply Hcells. lia.
Qed.

(** The last loop sums the top [kappa] cells of [max_kappa] sorted. *)
Lemma nks_loop (mk : list Z) kappa :
  (kappa <= length mk)%nat ->
  for_loop kappa 1
    (fun i nks => to_uint32 (nks + rd (qsort compare mk) (length mk - i))) 0
  = to_uint32 (sum_top_qsort kappa mk).
Proof.
  intros Hk.
  rewrite (for_loop_acc32 (fun i => rd (qsort compare mk) (length mk - i)))
    by (change (2 ^ 32) with 4294967296; lia).
  rewrite Z.add_0_l.
  rewrite (sum_range_tail_n _ (length mk)) by (apply length_qsort || exact Hk).
  reflexivity.
Qed.

(** [nks_norm] with its loops summed up: only the conversions and the
    calls of [qsort] are left. *)
Lemma nks_norm_unfolded (s1 s2 : list Z) n kappa :
  length s1 = n -> length s2 = n -> (kappa <= n)%nat ->
  fits 16383 (autocorrelation n s1 s2) ->
  nks_norm s1 s2 n kappa
  = to_uint32 (sum_top_qsort kappa (max_kappa_qsort kappa (autocorrelation n s1 s2))).
Proof.
  intros H1 H2 Hk Hfit. unfold nks_norm.
  rewrite t_loop_autocorrelation by assumption.
  set (t := autocorrelation n s1 s2) in *.
  assert (Hlt : length t = n) by apply length_autocorrelation.
  pose proof (max_kappa_loop t kappa (replicate n 0) (replicate n 0)) as Hloop.
  rewrite Hlt in Hloop. cbv zeta in Hloop.
  specialize (Hloop Hk (length_replicate _ _) (length_replicate _ _) Hfit).
  match goal with
  | |- (let '(_, max_kappa) := ?loop in _) = _ =>
      destruct loop as [tw mk] eqn:El
  end.
  cbn [snd] in Hloop. subst mk.
  pose proof (nks_loop (max_kappa_qsort kappa t) kappa) as Hlast.
  assert (Hlm : length (max_kappa_qsort kappa t) = n).
  { unfold max_kappa_qsort. rewrite length_map, length_seq. exact Hlt. }
  rewrite Hlm in Hlast. apply Hlast. exact Hk.
Qed.

(** With cells that stay within 16 bits the array of the code is the array
    of the definition. *)
Lemma max_kappa_qsort_spec kappa (t : list Z) :
  fits 16383 t -> fits 16383 (max_kappa (length t) kappa t) ->
  max_kappa_qsort kappa t = max_kappa (length t) kappa t.
Proof.
  intros Hfit Hfit2. unfold max_kappa_qsort, max_kappa.
  apply map_ext_in. intros i Hi. apply in_seq in Hi.
  rewrite sum_top_qsort_sort by (apply fits_rho, Hfit).
  apply to_int16_small.
  pose proof (fits_rd 16383 _ i Hfit2) as Hb.
  rewrite length_max_kappa in Hb. specialize (Hb ltac:(lia)).
  unfold max_kappa in Hb. rewrite rd_map_seq in Hb by lia.
  change (2 ^ 15) with 32768. lia.
Qed.

(** With [kappa = n] the order [qsort] leaves is immaterial: each
    [max_kappa[i]] is the sum of all of [t] rotated by [i], stored in 16
    bits, and the result is the sum of all of them, in 32 bits. *)
Lemma nks_norm_full (s1 s2 : list Z) n :
  length s1 = n -> length s2 = n ->
  fits 16383 (autocorrelation n s1 s2) ->
  nks_norm s1 s2 n n
  = to_uint32
      (foldr Z.add 0
         (map (fun i => to_int16 (foldr Z.add 0 (rho i (autocorrelation n s1 s2))))
            (seq 0 n))).
Proof.
  intros H1 H2 Hfit.
  rewrite nks_norm_unfolded by (assumption || lia).
  set (t := autocorrelation n s1 s2) in *.
  assert (Hlt : length t = n) by apply length_autocorrelation.
  assert (Hmk : max_kappa_qsort n t
                = map (fun i => to_int16 (foldr Z.add 0 (rho i t))) (seq 0 n)).
  { unfold max_kappa_qsort. rewrite Hlt. apply map_ext_in. intros i Hi.
    apply in_seq in Hi. f_equal.
    rewrite <- (sum_top_qsort_all (rho i t)). rewrite length_rho by lia.
    rewrite Hlt. reflexivity. }
  rewrite Hmk. f_equal.
  rewrite <- sum_top_qsort_all. rewrite length_map, length_seq. reflexivity.
Qed.

(** The norm of the definition with [kappa = n]: the sum, over all
    rotations, of the sum of all entries. *)
Lemma sum_top_all l : sum_top (length l) l = foldr Z.add 0 l.
Proof.
  unfold sum_top. rewrite Nat.sub_diag. cbn [drop].
  apply foldr_add_perm. symmetry. apply ZSort.Permuted_sort.
Qed.

Lemma Nk_full (s1 s2 : list Z) n :
  Nk s1 s2 n n
  = foldr Z.add 0
      (map (fun i => foldr Z.add 0 (rho i (autocorrelation n s1 s2))) (seq 0 n)).
Proof.
  unfold Nk. set (t := autocorrelation n s1 s2).
  assert (Hlt : length t = n) by apply length_autocorrelation.
  assert (Hmk : max_kappa n n t = map (fun i => foldr Z.add 0 (rho i t)) (seq 0 n)).
  { unfold max_kappa. apply map_ext_in. intros i Hi. apply in_seq in Hi.
    rewrite <- (sum_top_all (rho i t)). rewrite length_rho by lia.
    rewrite Hlt. reflexivity. }
  rewrite Hmk. rewrite <- sum_top_all. rewrite length_map, length_seq. reflexivity.
Qed.

End NkMain.

(** C2, as amended.  For vectors [s1], [s2] of length [n] and [kappa <= n],
    when every autocorrelation [t[i]] and every [max_kappa[i]] of the
    definition lies within [-16383, 16383] (so that the 16-bit cells and the
    16-bit difference of [compare] hold them) and the norm itself fits the
    [uint32_t] result, [nks_norm] returns the Nk(S) norm of the definition:
    the sum of the top [kappa] entries of the sorted [max_kappa], where
    [max_kappa[i]] is the sum of the top [kappa] entries of the sorted
    rotation of [t] by [i], and [t[i] = <s1, rho^i s1> + <s2, rho^i s2>]. *)
Theorem nks_norm_refines (s1 s2 : list Z) (n kappa : nat) :
  length s1 = n -> length s2 = n -> (kappa <= n)%nat ->
  NkCode.fits 16383 (NkSpec.autocorrelation n s1 s2) ->
  NkCode.fits 16383 (NkSpec.max_kappa n kappa (NkSpec.autocorrelation n s1 s2)) ->
  0 <= NkSpec.Nk s1 s2 n kappa < 2 ^ 32 ->
  nks_norm s1 s2 n kappa = NkSpec.Nk s1 s2 n kappa.
Proof.
  intros H1 H2 Hk Hfit Hfit2 Hrange.
  rewrite NkMain.nks_norm_unfolded by assumption.
  pose proof (NkMain.length_autocorrelation n s1 s2) as Hlt.
  pose proof (NkMain.max_kappa_qsort_spec kappa (NkSpec.autocorrelation n s1 s2)) as Hmk.
  rewrite Hlt in Hmk. rewrite Hmk by assumption.
  rewrite NkMain.sum_top_qsort_sort by assumption.
  apply to_uint32_small. exact Hrange.
Qed.

Lemma nks_norm_refines_witness :
  nks_norm [1; 0; -1; 1] [1; 2; 0; -2] 4 2 = NkSpec.Nk [1; 0; -1; 1] [1; 2; 0; -2] 4 2.
Proof.
  apply (nks_norm_refines [1; 0; -1; 1] [1; 2; 0; -2] 4 2).
  - reflexivity.
  - reflexivity.
  - lia.
  - vm_compute. repeat constructor; discriminate.
  - vm_compute. repeat constructor; discriminate.
  - vm_compute. split; [discriminate | reflexivity].
Defined.

(** C2, as stated, fails where the 16-bit cells overflow.  Take [n = 256],
    [kappa = 256] and [s1 = s2] all ones.  Then [t[j] = 2 (n - 2 j)], every
    [|t[j]|] is at most 512, and rotating [t] by 128 turns all its entries
    non-negative, so that [max_kappa[128]], the sum of all of them, is
    [n^2 = 65536]: the [int16_t] cell holds 0 instead.  With [kappa = n] the
    sums run over whole arrays, whatever order [qsort] leaves.  The code
    returns 4294224896 where the definition gives 11185152. *)
Lemma nks_norm_overflow_counterexample :
  let s := replicate 256 1 in
  let t := NkSpec.autocorrelation 256 s s in
  NkCode.fits 16383 t /\
  foldr Z.add 0 (NkSpec.rho 128 t) = 65536 /\
  NkSpec.Nk s s 256 256 = 11185152 /\
  nks_norm s s 256 256 = 4294224896 /\
  nks_norm s s 256 256 <> NkSpec.Nk s s 256 256.
Proof.
  pose proof (NkMain.Nk_full (replicate 256 1) (replicate 256 1) 256) as Hspec.
  pose proof (NkMain.nks_norm_full (replicate 256 1) (replicate 256 1) 256
                (length_replicate _ _) (length_replicate _ _)) as Hcode.
  cbv zeta.
  remember (NkSpec.autocorrelation 256 (replicate 256 1) (replicate 256 1)) as t eqn:Et.
  vm_compute in Et. subst t.
  match type of Hcode with
  | NkCode.fits 16383 ?t -> _ =>
      assert (Hfit : NkCode.fits 16383 t)
  end.
  { unfold NkCode.fits. apply Forall_forall. intros x Hx.
    apply list_elem_of_In in Hx.
    match type of Hx with
    | In x ?t =>
        assert (Hb : forallb (fun x => (-16383 <=? x) && (x <=? 16383)) t = true)
          by (vm_compute; reflexivity)
    end.
    rewrite forallb_forall in Hb. apply Hb in Hx. lia. }
  specialize (Hcode Hfit). rewrite Hspec, Hcode.
  split; [exact Hfit|].
  split; [vm_compute; reflexivity|].
  split; [vm_compute; reflexivity|].
  split; [vm_compute; reflexivity|].
  vm_compute. discriminate.
Qed.

(** ** The helpers of the norm and of the inverse, one by one *)

Module HelperFacts.
Import NkCode NkFacts NkSpec NkRefine.

Lemma to_int16_high z : 2 ^ 15 <= z < 2 ^ 16 + 2 ^ 15 -> to_int16 z = z - 2 ^ 16.
Proof.
  intros Hz. unfold to_int16, to_signed.
  change (2 ^ (16 - 1)) with 32768. change (2 ^ 16) with 65536 in *.
  change (2 ^ 15) with 32768 in *.
  replace (z + 32768) with (z - 32768 + 1 * 65536) by lia.
  rewrite Z_mod_plus_full, Z.mod_small by lia. lia.
Qed.

Lemma to_int16_low z : - 2 ^ 16 - 2 ^ 15 <= z < - 2 ^ 15 -> to_int16 z = z + 2 ^ 16.
Proof.
  intros Hz. unfold to_int16, to_signed.
  change (2 ^ (16 - 1)) with 32768. change (2 ^ 16) with 65536 in *.
  change (2 ^ 15) with 32768 in *.
  replace (z + 32768) with (z + 98304 + (- 1) * 65536) by lia.
  rewrite Z_mod_plus_full, Z.mod_small by lia. lia.
Qed.

(** The two sums of [wrapped_product], without the conversions, for two
    vectors: the inner product of the rotated [x] with [y]. *)
Lemma inner_rho_sums2 (x y : list Z) s :
  length y = length x -> (s <= length x)%nat ->
  inner (rho s x) y =
  sum_range (fun i => rd x i * rd y (i + s)) 0 (length x - s)
  - sum_range (fun i => rd x i * rd y (i + s - length x)) (length x - s)
      (length x - (length x - s)).
Proof.
  intros Hy Hs.
  rewrite inner_sum_range by (rewrite length_rho; lia).
  rewrite length_rho by exact Hs.
  set (n := length x) in *.
  replace n with (s + (n - s))%nat at 1 by lia.
  rewrite sum_range_split. cbn [Nat.add].
  replace (n - (n - s))%nat with s by lia.
  assert (E1 : sum_range (fun k => rd (rho s x) k * rd y k) 0 s
               = - sum_range (fun i => rd x i * rd y (i + s - n)) (n - s) s).
  { replace (n - s)%nat with (0 + (n - s))%nat at 1 by lia.
    rewrite sum_range_shift, <- sum_range_opp.
    apply sum_range_ext. intros k Hk.
    rewrite rd_rho by (fold n; lia). fold n.
    destruct (Nat.ltb_spec k s); [|lia].
    replace (k + (n - s) + s - n)%nat with k by lia.
    replace (n - s + k)%nat with (k + (n - s))%nat by lia. ring. }
  assert (E2 : sum_range (fun k => rd (rho s x) k * rd y k) s (n - s)
               = sum_range (fun i => rd x i * rd y (i + s)) 0 (n - s)).
  { replace s with (0 + s)%nat at 1 by lia.
    rewrite sum_range_shift.
    apply sum_range_ext. intros k Hk.
    rewrite rd_rho by (fold n; lia).
    destruct (Nat.ltb_spec (k + s) s); [lia|].
    replace (k + s - s)%nat with k by lia. ring. }
  rewrite E1, E2. lia.
Qed.

Lemma wrapped_product_inner2 (x y : list Z) s :
  length y = length x -> (s <= length x)%nat ->
  wrapped_product x y (length x) s = to_int16 (inner (rho s x) y).
Proof.
  intros Hy Hs. unfold wrapped_product.
  rewrite (for_loop_acc16 (fun i => rd x i * rd y (i + s)))
    by (change (2 ^ 15) with 32768; lia).
  rewrite (for_loop_acc16_sub (fun i => rd x i * rd y (i + s - length x)))
    by apply to_int16_range.
  rewrite Z.add_0_l, inner_rho_sums2 by assumption.
  unfold Z.sub. rewrite to_int16_add_l. reflexivity.
Qed.

(** [wrap] on cells of [int16_t]: the rotation, each cell stored in 16
    bits. *)
Lemma wrap_rho16 (t : list Z) s (w : list Z) :
  (s <= length t)%nat -> length w = length t ->
  Forall (fun x => - 2 ^ 15 <= x < 2 ^ 15) t ->
  wrap t (length t) s w = map to_int16 (rho s t).
Proof.
  intros Hs Hw Hall. set (n := length t) in *. unfold wrap.
  destruct (for_loop_scatter (fun i => (i + s)%nat) (fun i => rd t i) (n - s) 0 w)
    as (Hl1 & Hset1 & Hkeep1).
  { intros j Hj. lia. }
  { intros j j' _ _ Hp. lia. }
  cbv zeta in Hl1, Hset1, Hkeep1.
  set (w1 := for_loop (n - s) 0 (fun i w => <[(i + s)%nat := rd t i]> w) w) in *.
  destruct (for_loop_scatter (fun i => (i + s - n)%nat) (fun i => to_int16 (- rd t i))
              (n - (n - s)) (n - s) w1) as (Hl2 & Hset2 & Hkeep2).
  { intros j Hj. lia. }
  { intros j j' Hj Hj' Hp. lia. }
  cbv zeta in Hl2, Hset2, Hkeep2.
  set (w2 := for_loop (n - (n - s)) (n - s)
               (fun i w => <[(i + s - n)%nat := to_int16 (- rd t i)]> w) w1) in *.
  apply rd_ext.
  - rewrite length_map, length_rho by exact Hs. lia.
  - intros k Hk. rewrite Hl2, Hl1, Hw in Hk. fold n in Hk.
    rewrite rd_map by (rewrite length_rho; fold n; lia).
    rewrite rd_rho by (fold n; lia). fold n.
    destruct (Nat.ltb_spec k s) as [Hlt|Hge].
    + replace k with ((n - s + k) + s - n)%nat at 1 by lia.
      rewrite (Hset2 (n - s + k)%nat) by lia. reflexivity.
    + rewrite Hkeep2 by (intros j Hj; lia).
      replace k with ((k - s) + s)%nat at 1 by lia.
      rewrite (Hset1 (k - s)%nat) by lia.
      symmetry. apply to_int16_small.
      rewrite Forall_forall in Hall. apply Hall.
      apply list_elem_of_In, rd_In. fold n. lia.
Qed.

(** [invert] for any modulus from 3 up, prime or not. *)
Lemma invert_power x q :
  3 <= q < 2 ^ 16 -> 0 <= x < q -> invert x q = Some (x ^ (q - 2) mod q).
Proof.
  intros Hq Hx.
  unfold invert. rewrite to_uint16_small by lia.
  destruct (invert_i_max_some (q - 2) 15) as (m & Hm & Hlt).
  { change (2 ^ (Z.of_nat 15 + 1)) with (2 ^ 16). lia. }
  rewrite Hm.
  replace (q =? 0) with false by (symmetry; apply Z.eqb_neq; lia).
  cbn [andb]. f_equal.
  rewrite (invert_loop_pow q (q - 2) x m 1).
  - replace (1 + Z.of_nat m) with (Z.of_nat m + 1) by lia.
    rewrite (Z.mod_small (q - 2)) by lia. reflexivity.
  - lia.
  - lia.
  - lia.
  - change (2 ^ (1 - 1)) with 1. rewrite Z.pow_1_r, Z.mod_small by lia. reflexivity.
  - change (1 : Z) with (Z.shiftl 1 0) at 1. rewrite bit_test by lia.
    pose proof (low_bits_succ (q - 2) 0 ltac:(lia) ltac:(lia)) as Hl.
    change (2 ^ (0 + 1)) with (2 ^ 1) in Hl. rewrite Hl.
    change (2 ^ 0) with 1. rewrite Z.mod_1_r.
    destruct (Z.testbit (q - 2) 0); simpl.
    + rewrite Z.pow_1_r, Z.mod_small by lia. reflexivity.
    + rewrite Z.mod_small by lia. reflexivity.
Qed.

End HelperFacts.

(** X1. Where the difference of its arguments fits 16 bits, [compare] returns
    its sign: 1, -1 or 0 as [a] is above, below or equal to [b]. *)
Theorem compare_sign (a b : Z) :
  - 2 ^ 15 <= a - b < 2 ^ 15 -> compare a b = Z.sgn (a - b).
Proof.
  intros Hd. unfold compare. rewrite to_int16_small by exact Hd.
  destruct (Z.ltb_spec 0 (a - b)) as [Hpos|Hle].
  - symmetry. apply Z.sgn_pos. exact Hpos.
  - destruct (Z.ltb_spec (a - b) 0) as [Hneg|Hge].
    + symmetry. apply Z.sgn_neg. exact Hneg.
    + symmetry. apply Z.sgn_null. lia.
Qed.

Lemma compare_sign_witness :
  compare 7 (- 3) = Z.sgn (7 - - 3) /\ compare (- 3) 7 = Z.sgn (- 3 - 7).
Proof.
  split; apply compare_sign; vm_compute; split; discriminate || reflexivity.
Defined.

(** X2. For two [int16_t] values whose difference does not fit 16 bits,
    [compare] returns the opposite of their order: -1 for an [a] far above
    [b], and 1 for an [a] far below it. *)
Theorem compare_overflow (a b : Z) :
  - 2 ^ 15 <= a < 2 ^ 15 -> - 2 ^ 15 <= b < 2 ^ 15 ->
  (2 ^ 15 <= a - b -> compare a b = - 1) /\
  (a - b < - 2 ^ 15 -> compare a b = 1).
Proof.
  intros Ha Hb. change (2 ^ 15) with 32768 in *. split; intros Hd; unfold compare.
  - rewrite HelperFacts.to_int16_high
      by (change (2 ^ 15) with 32768; change (2 ^ 16) with 65536; lia).
    change (2 ^ 16) with 65536.
    destruct (Z.ltb_spec 0 (a - b - 65536)); [lia|].
    destruct (Z.ltb_spec (a - b - 65536) 0); [reflexivity | lia].
  - rewrite HelperFacts.to_int16_low
      by (change (2 ^ 15) with 32768; change (2 ^ 16) with 65536; lia).
    change (2 ^ 16) with 65536.
    destruct (Z.ltb_spec 0 (a - b + 65536)); [reflexivity | lia].
Qed.

Lemma compare_overflow_witness :
  compare 20000 (- 20000) = - 1 /\ compare (- 20000) 20000 = 1.
Proof.
  split.
  - apply (compare_overflow 20000 (- 20000));
      vm_compute; try split; discriminate || reflexivity.
  - apply (compare_overflow (- 20000) 20000);
      vm_compute; try split; discriminate || reflexivity.
Defined.

(** X3. [wrapped_product] is the inner product of the negative-wrapped rotation
    of [x] by [shift] with [y] (every [x[i]] meets [y[i + shift]], with a
    minus sign once [i + shift] wraps past [n]), kept in 16 bits; where that
    inner product fits 16 bits it is returned as it is. *)
Theorem wrapped_product_negacyclic (x y : list Z) (n shift : nat) :
  length x = n -> length y = n -> (shift <= n)%nat ->
  wrapped_product x y n shift = to_int16 (NkSpec.inner (NkSpec.rho shift x) y) /\
  (- 2 ^ 15 <= NkSpec.inner (NkSpec.rho shift x) y < 2 ^ 15 ->
   wrapped_product x y n shift = NkSpec.inner (NkSpec.rho shift x) y).
Proof.
  intros Hx Hy Hs. subst n.
  assert (E : wrapped_product x y (length x) shift
              = to_int16 (NkSpec.inner (NkSpec.rho shift x) y))
    by (apply HelperFacts.wrapped_product_inner2; assumption).
  split; [exact E|]. intros Hfit. rewrite E. apply to_int16_small. exact Hfit.
Qed.

Lemma wrapped_product_negacyclic_witness :
  wrapped_product [1; 2; 3] [4; 5; 6] 3 1
  = NkSpec.inner (NkSpec.rho 1 [1; 2; 3]) [4; 5; 6].
Proof.
  apply (wrapped_product_negacyclic [1; 2; 3] [4; 5; 6] 3 1);
    try reflexivity; try lia.
  vm_compute. split; discriminate || reflexivity.
Defined.

(** X4. [wrap] fills all of [x_wrapped], whatever it held, with the
    negative-wrapped rotation of [x] by [shift], each cell stored in 16 bits;
    unless [x] holds -32768, whose negation does not fit, that is the
    rotation itself. *)
Theorem wrap_rotation (x x_wrapped : list Z) (n shift : nat) :
  length x = n -> length x_wrapped = n -> (shift <= n)%nat ->
  Forall (fun c => - 2 ^ 15 <= c < 2 ^ 15) x ->
  wrap x n shift x_wrapped = map to_int16 (NkSpec.rho shift x) /\
  (Forall (fun c => c <> - 2 ^ 15) x -> wrap x n shift x_wrapped = NkSpec.rho shift x).
Proof.
  intros Hx Hw Hs Hall. subst n. split.
  - apply HelperFacts.wrap_rho16; assumption.
  - intros Hne. apply NkRefine.wrap_rho; try assumption.
    rewrite Forall_forall in *. intros c Hc.
    specialize (Hall c Hc). specialize (Hne c Hc). cbn in Hall, Hne. lia.
Qed.

Lemma wrap_rotation_witness :
  wrap [1; 2; 3; 4] 4 1 [9; 9; 9; 9] = [- 4; 1; 2; 3].
Proof.
  refine (proj1 (wrap_rotation [1; 2; 3; 4] [9; 9; 9; 9] 4 1 eq_refl eq_refl _ _)).
  - lia.
  - repeat constructor; vm_compute; discriminate || reflexivity.
Defined.

(** X5. For every 16-bit modulus [q] from 3 up, prime or not, and every
    [0 <= x < q], [invert] returns [x ^ (q - 2) mod q], a residue modulo
    [q]. *)
Theorem invert_power_any_modulus (x q : Z) :
  3 <= q < 2 ^ 16 -> 0 <= x < q ->
  invert x q = Some (x ^ (q - 2) mod q) /\ 0 <= x ^ (q - 2) mod q < q.
Proof.
  intros Hq Hx. split.
  - apply HelperFacts.invert_power; assumption.
  - apply Z.mod_pos_bound. lia.
Qed.

Lemma invert_power_any_modulus_witness :
  invert 3 10 = Some (3 ^ (10 - 2) mod 10) /\ 0 <= 3 ^ (10 - 2) mod 10 < 10.
Proof.
  apply (invert_power_any_modulus 3 10);
    vm_compute; split; discriminate || reflexivity.
Defined.

(** X6. Zero has no inverse and [invert] does not tell: for every 16-bit
    modulus from 3 up it returns 0 for 0, which is why key generation tests
    [S1[i] == 0] before it calls [invert]. *)
Theorem invert_zero (q : Z) : 3 <= q < 2 ^ 16 -> invert 0 q = Some 0.
Proof.
  intros Hq. rewrite HelperFacts.invert_power by lia.
  rewrite Z.pow_0_l by lia. rewrite Z.mod_0_l by lia. reflexivity.
Qed.

Lemma invert_zero_witness : invert 0 12289 = Some 0.
Proof. apply invert_zero. vm_compute. split; discriminate || reflexivity. Defined.

(** X7. For a 16-bit modulus, [invert] runs into undefined behaviour exactly
    for [q = 0] (a remainder by zero) and [q = 2] (no bit of [q - 2] is set,
    and the scan for the highest one shifts by a negative count). *)
Theorem invert_defined_iff (x q : Z) :
  0 <= q < 2 ^ 16 -> (invert x q = None <-> q = 0 \/ q = 2).
Proof.
  intros Hq. split.
  - intros Hn.
    destruct (Z.eq_dec q 0) as [->|H0]; [left; reflexivity|].
    destruct (Z.eq_dec q 2) as [->|H2]; [right; reflexivity|].
    exfalso. unfold invert in Hn.
    assert (Hq2 : 0 < to_uint16 (q - 2) < 2 ^ (Z.of_nat 15 + 1)).
    { change (2 ^ (Z.of_nat 15 + 1)) with (2 ^ 16).
      destruct (Z.eq_dec q 1) as [->|H1]; [vm_compute; split; reflexivity|].
      rewrite to_uint16_small by lia. lia. }
    destruct (invert_i_max_some _ 15 Hq2) as (m & Hm & _).
    rewrite Hm in Hn.
    replace (q =? 0) with false in Hn by (symmetry; apply Z.eqb_neq; lia).
    discriminate.
  - intros [->| ->]; reflexivity.
Qed.

Lemma invert_defined_iff_witness :
  invert 1 2 = None <-> 2 = 0 \/ 2 = 2.
Proof.
  apply invert_defined_iff. vm_compute. split; discriminate || reflexivity.
Defined.

(** ** Multiplication by the challenge *)

Module ChallengeFacts.
Import Sign SignFacts NkSpec NkCode NkFacts NkRefine ChallengeSpec.

Lemma to_int32_add_l x y : to_int32 (to_int32 x + y) = to_int32 (x + y).
Proof.
  unfold to_int32, to_signed. change (32 - 1) with 31. f_equal.
  replace ((x + 2 ^ 31) mod 2 ^ 32 - 2 ^ 31 + y + 2 ^ 31)
    with ((x + 2 ^ 31) mod 2 ^ 32 + y) by lia.
  rewrite Zplus_mod_idemp_l. f_equal. lia.
Qed.

Lemma to_int32_small z : - 2 ^ 31 <= z < 2 ^ 31 -> to_int32 z = z.
Proof.
  intros Hz. unfold to_int32, to_signed. change (32 - 1) with 31.
  change (2 ^ 31) with 2147483648 in *. change (2 ^ 32) with 4294967296.
  rewrite Z.mod_small by lia. lia.
Qed.

(** The term one round of the inner loop adds to [product[i]]. *)
Lemma term_rho (sv : list Z) n i index :
  length sv = n -> (i < n)%nat -> 0 <= index <= Z.of_nat n ->
  (if Z.of_nat i - index <? 0
   then - rdz sv (Z.of_nat i - index + Z.of_nat n)
   else rdz sv (Z.of_nat i - index))
  = rd (rho (Z.to_nat index) sv) i.
Proof.
  intros Hl Hi Hx. rewrite rd_rho by lia. rewrite Hl. unfold rdz.
  destruct (Z.ltb_spec (Z.of_nat i - index) 0) as [Hneg|Hpos].
  - destruct (Nat.ltb_spec i (Z.to_nat index)); [|lia].
    destruct (Z.ltb_spec (Z.of_nat i - index + Z.of_nat n) 0); [lia|].
    do 2 f_equal. lia.
  - destruct (Nat.ltb_spec i (Z.to_nat index)); [lia|].
    destruct (Z.ltb_spec (Z.of_nat i - index) 0); [lia|].
    f_equal. lia.
Qed.

(** The inner loop, from [product[i] = 0] on. *)
Lemma inner_loop s c product i kappa n m0 :
  product <> s -> product <> c -> length (m0 s) = n ->
  (i < n)%nat -> (i < length (m0 product))%nat ->
  (forall j, (j < kappa)%nat -> 0 <= load m0 c j <= Z.of_nat n) ->
  let m' :=
    for_loop kappa 0
      (fun j m =>
         let index := load m c j in
         if Z.of_nat i - index <? 0 then
           write product i
             (to_int32 (load m product i - rdz (m s) (Z.of_nat i - index + Z.of_nat n))) m
         else
           write product i
             (to_int32 (load m product i + rdz (m s) (Z.of_nat i - index))) m)
      (write product i 0 m0) in
  (forall b, b <> product -> m' b = m0 b) /\
  m' product = <[i := to_int32 (times_challenge (m0 s) (m0 c) kappa i)]> (m0 product).
Proof.
  intros Hps Hpc Hls Hi Hip Hidx. cbv zeta.
  set (f := fun j => rd (rho (Z.to_nat (rd (m0 c) j)) (m0 s)) i).
  pose (P := fun (j : nat) (m : memory) =>
    (forall b, b <> product -> m b = m0 b) /\
    m product = <[i := to_int32 (sum_range f 0 j)]> (m0 product)).
  match goal with
  | |- context [for_loop kappa 0 ?body ?init] =>
      assert (HP : P (0 + kappa)%nat (for_loop kappa 0 body init))
  end.
  { apply for_loop_inv.
    - split.
      + intros b Hb. apply write_other. congruence.
      + unfold write. rewrite store_same. reflexivity.
    - intros j m Hj [Hframe Hprod]. cbv beta zeta.
      assert (Hc : load m c j = load m0 c j).
      { unfold load. rewrite Hframe by congruence. reflexivity. }
      assert (Hs : m s = m0 s) by (apply Hframe; congruence).
      assert (Hcur : load m product i = to_int32 (sum_range f 0 j)).
      { unfold load. rewrite Hprod. apply rd_insert_eq. exact Hip. }
      pose proof (term_rho (m0 s) n i (load m0 c j) Hls Hi (Hidx j ltac:(lia))) as Ht.
      rewrite Hc, Hs, Hcur.
      assert (Hnew : forall v,
                v = to_int32 (sum_range f 0 (Datatypes.S j)) ->
                P (Datatypes.S j) (write product i v m)).
      { intros v ->. split.
        - intros b Hb. rewrite write_other by congruence. apply Hframe, Hb.
        - unfold write. rewrite store_same, Hprod.
          apply list_insert_insert_eq. }
      rewrite sum_range_snoc in Hnew. cbn [Nat.add] in Hnew.
      destruct (Z.ltb_spec (Z.of_nat i - load m0 c j) 0) as [Hneg|Hpos];
        apply Hnew.
      + unfold Z.sub at 1. rewrite to_int32_add_l. f_equal.
        unfold f. fold (load m0 c j). rewrite <- Ht.
        destruct (Z.ltb_spec (Z.of_nat i - load m0 c j) 0); [reflexivity | lia].
      + rewrite to_int32_add_l. f_equal.
        unfold f. fold (load m0 c j). rewrite <- Ht.
        destruct (Z.ltb_spec (Z.of_nat i - load m0 c j) 0); [lia | reflexivity]. }
  exact HP.
Qed.

(** What [multiply_by_c] leaves in memory. *)
Lemma multiply_by_c_spec s c product kappa n m :
  product <> s -> product <> c -> length (m s) = n -> length (m product) = n ->
  (forall j, (j < kappa)%nat -> 0 <= load m c j <= Z.of_nat n) ->
  let m' := multiply_by_c s n c kappa product m in
  (forall b, b <> product -> m' b = m b) /\
  length (m' product) = n /\
  forall i, (i < n)%nat ->
    load m' product i = to_int32 (times_challenge (m s) (m c) kappa i).
Proof.
  intros Hps Hpc Hls Hlp Hidx. cbv zeta. unfold multiply_by_c.
  pose (Q := fun (i : nat) (m' : memory) =>
    (forall b, b <> product -> m' b = m b) /\
    length (m' product) = n /\
    forall i', (i' < i)%nat ->
      load m' product i' = to_int32 (times_challenge (m s) (m c) kappa i')).
  match goal with
  | |- context [for_loop n 0 ?body m] =>
      assert (HQ : Q (0 + n)%nat (for_loop n 0 body m))
  end.
  { apply for_loop_inv.
    - split; [auto|]. split; [exact Hlp|]. intros i' Hi'. lia.
    - intros i m1 Hi (Hframe & Hlen & Hcells). cbv beta zeta.
      assert (Hs1 : m1 s = m s) by (apply Hframe; congruence).
      assert (Hc1 : m1 c = m c) by (apply Hframe; congruence).
      destruct (inner_loop s c product i kappa n m1 Hps Hpc) as [Hf Hp].
      + rewrite Hs1. exact Hls.
      + lia.
      + lia.
      + intros j Hj. unfold load. rewrite Hc1. apply Hidx, Hj.
      + cbv zeta in Hf, Hp. split; [|split].
        * intros b Hb. rewrite Hf by exact Hb. apply Hframe, Hb.
        * rewrite Hp, length_insert. exact Hlen.
        * intros i' Hi'.
          change (load ?mm product i') with (rd (mm product) i'). rewrite Hp.
          destruct (Nat.eq_dec i i') as [<-|Hne].
          -- rewrite rd_insert_eq by lia. rewrite Hs1, Hc1. reflexivity.
          -- rewrite rd_insert_ne by exact Hne. apply Hcells. lia. }
  destruct HQ as (Hframe & Hlen & Hcells).
  split; [exact Hframe|]. split; [exact Hlen|]. intros i Hi. apply Hcells. lia.
Qed.

Lemma sum_range_bound (f : nat -> Z) B lo k :
  (forall j, (lo <= j < lo + k)%nat -> - B <= f j <= B) ->
  - (Z.of_nat k * B) <= sum_range f lo k <= Z.of_nat k * B.
Proof.
  revert lo. induction k as [|k IH]; intros lo Hf.
  - cbn. lia.
  - cbn [sum_range].
    pose proof (Hf lo ltac:(lia)) as H0.
    pose proof (IH (Datatypes.S lo) ltac:(intros j Hj; apply Hf; lia)) as H1.
    lia.
Qed.

Lemma times_challenge_bound (sv cv : list Z) B kappa i :
  0 <= B -> Forall (fun x => - B <= x <= B) sv -> (i < length sv)%nat ->
  (forall j, (j < kappa)%nat -> 0 <= rd cv j <= Z.of_nat (length sv)) ->
  - (Z.of_nat kappa * B) <= times_challenge sv cv kappa i <= Z.of_nat kappa * B.
Proof.
  intros HB Hall Hi Hidx. unfold times_challenge.
  apply sum_range_bound. intros j Hj.
  pose proof (Hidx j ltac:(lia)) as Hx.
  rewrite rd_rho by lia.
  assert (Hcell : forall k, (k < length sv)%nat -> - B <= rd sv k <= B).
  { intros k Hk. rewrite Forall_forall in Hall. apply Hall.
    apply list_elem_of_In, rd_In, Hk. }
  destruct (Nat.ltb_spec i (Z.to_nat (rd cv j))).
  - pose proof (Hcell (length sv - Z.to_nat (rd cv j) + i)%nat ltac:(lia)). lia.
  - apply Hcell. lia.
Qed.

End ChallengeFacts.

(** X8. [multiply_by_c] computes the product of the secret polynomial with the
    challenge in the ring modulo [x^n + 1]: for positions
    [c_indices[j] <= n], [product[i]] is the sum over [j < kappa] of
    coefficient [i] of [s] rotated (negative-wrapped) by [c_indices[j]],
    kept in 32 bits.  With all [|s[k]| <= B] and [kappa * B < 2^31] nothing
    wraps, and [|product[i]| <= kappa * B]. *)
Theorem multiply_by_c_negacyclic (s c product : Sign.buffer) (n kappa : nat)
    (m : Sign.memory) (B : Z) :
  product <> s -> product <> c ->
  length (m s) = n -> length (m product) = n ->
  (forall j, (j < kappa)%nat -> 0 <= Sign.load m c j <= Z.of_nat n) ->
  forall i, (i < n)%nat ->
    let m' := Sign.multiply_by_c s n c kappa product m in
    Sign.load m' product i
      = to_int32 (ChallengeSpec.times_challenge (m s) (m c) kappa i) /\
    (0 <= B -> Forall (fun x => - B <= x <= B) (m s) -> Z.of_nat kappa * B < 2 ^ 31 ->
     Sign.load m' product i = ChallengeSpec.times_challenge (m s) (m c) kappa i /\
     - (Z.of_nat kappa * B) <= Sign.load m' product i <= Z.of_nat kappa * B).
Proof.
  intros Hps Hpc Hls Hlp Hidx i Hi. cbv zeta.
  destruct (ChallengeFacts.multiply_by_c_spec s c product kappa n m Hps Hpc Hls Hlp Hidx)
    as (_ & _ & Hcells).
  cbv zeta in Hcells. rewrite (Hcells i Hi). split; [reflexivity|].
  intros HB Hall Hfit.
  pose proof (ChallengeFacts.times_challenge_bound (m s) (m c) B kappa i HB Hall
                ltac:(lia) ltac:(rewrite Hls; exact Hidx)) as Hb.
  rewrite ChallengeFacts.to_int32_small by lia. split; [reflexivity | exact Hb].
Qed.

Lemma multiply_by_c_negacyclic_witness :
  let m' := Sign.multiply_by_c Sign.s1 4 Sign.c_indices 2 Sign.s1c
              Examples.challenge_memory in
  Sign.load m' Sign.s1c 0
  = ChallengeSpec.times_challenge (Examples.challenge_memory Sign.s1)
      (Examples.challenge_memory Sign.c_indices) 2 0 /\
  - (Z.of_nat 2 * 2) <= Sign.load m' Sign.s1c 0 <= Z.of_nat 2 * 2.
Proof.
  refine (proj2 (multiply_by_c_negacyclic Sign.s1 Sign.c_indices Sign.s1c 4 2
                   Examples.challenge_memory 2 _ _ eq_refl eq_refl _ 0%nat _) _ _ _).
  - discriminate.
  - discriminate.
  - intros j Hj. destruct j as [|[|j]]; [vm_compute; split; discriminate .. | lia].
  - lia.
  - lia.
  - repeat constructor; vm_compute; discriminate.
  - reflexivity.
Defined.

(** X9. [multiply_by_c] writes to [product] alone: every other array is as it
    was, and [product] keeps its length. *)
Theorem multiply_by_c_frame (s c product : Sign.buffer) (n kappa : nat)
    (m : Sign.memory) :
  let m' := Sign.multiply_by_c s n c kappa product m in
  (forall b, b <> product -> m' b = m b) /\
  length (m' product) = length (m product).
Proof.
  cbv zeta. unfold Sign.multiply_by_c.
  pose (Q := fun (_ : nat) (m' : Sign.memory) =>
    (forall b, b <> product -> m' b = m b) /\
    length (m' product) = length (m product)).
  assert (Hw : forall i v m1, Q i m1 -> Q i (Sign.write product i v m1)).
  { intros i v m1 [Hf Hl]. split.
    - intros b Hb. rewrite SignFacts.write_other by congruence. apply Hf, Hb.
    - rewrite SignFacts.length_write. exact Hl. }
  match goal with
  | |- (forall b, _ -> for_loop n 0 ?body m b = _) /\ _ =>
      apply (for_loop_inv Q n 0 body m)
  end.
  - split; auto.
  - intros i m1 _ HQ. cbv beta zeta.
    assert (HQi : Q i (Sign.write product i 0 m1)) by (apply Hw, HQ).
    revert HQi. generalize (Sign.write product i 0 m1). intros m2 HQi.
    assert (Hin : Q i (for_loop kappa 0
              (fun j m =>
                 let index := Sign.load m c j in
                 if Z.of_nat i - index <? 0 then
                   Sign.write product i
                     (to_int32 (Sign.load m product i
                                - rdz (m s) (Z.of_nat i - index + Z.of_nat n))) m
                 else
                   Sign.write product i
                     (to_int32 (Sign.load m product i
                                + rdz (m s) (Z.of_nat i - index))) m) m2)).
    { apply (for_loop_inv (fun _ m' => Q i m')); [exact HQi|].
      intros j m3 _ H3. cbv beta zeta.
      destruct (Z.of_nat i - Sign.load m3 c j <? 0); apply Hw, H3. }
    exact Hin.
Qed.

(** ** What a call of [sign] returns, draws and runs into *)

Module SignRun.
Import Sign SignSpec SignFacts Determinism.

Section WithLib.
Context `{Lib}.

(** A round is left by [break] only after [bliss_utils_check_norms] has
    accepted [z1] and [z2d], with a sampler at hand. *)
Lemma round_break set alg hasher data_hash seed m m' sampler' :
  sign_round_seeded set alg hasher data_hash seed m = Ret (Break, m', sampler') ->
  bliss_utils_check_norms set (m' z1) (m' z2d) = true /\ sampler' <> None.
Proof.
  unfold sign_round_seeded. intros Hr.
  destruct (bliss_sampler_create alg seed set) as [sampler0|]; [|discriminate].
  destruct (gaussian_loop (ParamSet.n set) 0 (ParamSet.q set) sampler0 m)
    as [[ok sampler1] m1].
  cbv zeta in Hr.
  repeat match type of Hr with
         | Ret _ = Ret _ => inversion Hr; subst; clear Hr
         | Fault = Ret _ => discriminate Hr
         | context [match ?x with _ => _ end] => destruct x eqn:?
         end.
  split; [|discriminate].
  match goal with
  | Hn : negb _ = false |- _ => apply negb_false_iff in Hn; exact Hn
  end.
Qed.

(** The loop draws whole seeds, at most one for each round; it ends
    without having drawn any only by [goto end], with the state it was
    entered with. *)
Lemma sign_loop_count fuel set alg seed_len hasher data_hash st b st' :
  sign_loop fuel set alg seed_len hasher data_hash st = Ret (b, st') ->
  exists k,
    (k <= fuel)%nat /\
    length (st_rng st) = (length (st_rng st') + k * seed_len)%nat /\
    (k = 0%nat -> b = false /\ st' = st).
Proof.
  revert st. induction fuel as [|fuel IH]; intros st Hl; [discriminate|].
  cbn [sign_loop] in Hl.
  destruct (sign_round set alg seed_len hasher data_hash st)
    as [[fl st1]| |] eqn:Er; try discriminate.
  cbn in Hl. apply sign_round_cases in Er.
  destruct Er as [(_ & -> & ->)|(seed & E & Elen & _)].
  - inversion Hl; subst. exists 0%nat. split; [lia|]. split; [lia | auto].
  - assert (Hone : length (st_rng st) = (length (st_rng st1) + 1 * seed_len)%nat).
    { rewrite E, length_app. lia. }
    destruct fl.
    + apply IH in Hl. destruct Hl as (k & Hk & Hlen & _).
      exists (Datatypes.S k). split; [lia|]. split; [lia | discriminate].
    + inversion Hl; subst. exists 1%nat. split; [lia|]. split; [lia | discriminate].
    + inversion Hl; subst. exists 1%nat. split; [lia|]. split; [lia | discriminate].
Qed.

(** The loop is left by [break] only with norms checked and a sampler. *)
Lemma sign_loop_break fuel set alg seed_len hasher data_hash st st' :
  sign_loop fuel set alg seed_len hasher data_hash st = Ret (true, st') ->
  bliss_utils_check_norms set (st_mem st' z1) (st_mem st' z2d) = true.
Proof.
  revert st. induction fuel as [|fuel IH]; intros st Hl; [discriminate|].
  cbn [sign_loop] in Hl.
  destruct (sign_round set alg seed_len hasher data_hash st)
    as [[fl st1]| |] eqn:Er; try discriminate.
  cbn in Hl. destruct fl.
  - apply IH in Hl. exact Hl.
  - inversion Hl; subst. apply sign_round_cases in Er.
    destruct Er as [(_ & Hfl & _)|(seed & _ & _ & Hs)]; [discriminate|].
    apply round_break in Hs. apply Hs.
  - discriminate.
Qed.

End WithLib.
End SignRun.

Section SignRunTheorems.
Context `{Lib}.

(** X10. When [sign] for [SIGN_BLISS_WITH_SHA512] returns false, the chunk
    behind [signature] is the empty chunk, whatever it held at the call. *)
Theorem sign_failure_empty_signature (fuel : nat) (this : private_bliss_private_key_t)
    (data signature : chunk_t) (rng : option rng_t) (r : Sign.result) :
  Sign.sign fuel this SIGN_BLISS_WITH_SHA512 data signature rng = Ret r ->
  Sign.r_success r = false -> Sign.r_out r = chunk_empty.
Proof.
  cbn [Sign.sign]. unfold Sign.sign_bliss_with_sha512. intros Hs Hf.
  destruct (create_hasher HASH_SHA512) as [hasher|];
    [|inversion Hs; reflexivity].
  destruct (get_hash hasher data) as [data_hash|]; [|inversion Hs; reflexivity].
  destruct (mgf1_alg (Key.set this)) as [alg seed_len].
  destruct rng as [rng|]; [|inversion Hs; reflexivity].
  match type of Hs with
  | context [Sign.sign_loop ?f ?s ?al ?l ?h ?d ?st] =>
      destruct (Sign.sign_loop f s al l h d st) as [[b st']| |]; try discriminate
  end.
  cbn in Hs. destruct (Sign.st_sampler st'); [|discriminate].
  inversion Hs; subst; clear Hs. cbn in Hf |- *. rewrite Hf. reflexivity.
Qed.

(** X11. When [sign] returns true, the signature is the encoding of vectors
    [z1], [z2d] that [bliss_utils_check_norms] has accepted, with the
    challenge indices. *)
Theorem sign_success_norms_checked (fuel : nat) (this : private_bliss_private_key_t)
    (scheme : signature_scheme_t) (data signature : chunk_t) (rng : option rng_t)
    (r : Sign.result) :
  Sign.sign fuel this scheme data signature rng = Ret r ->
  Sign.r_success r = true ->
  exists z1 z2d c_indices,
    Sign.r_out r = bliss_signature_get_encoding (Key.set this) z1 z2d c_indices /\
    bliss_utils_check_norms (Key.set this) z1 z2d = true.
Proof.
  destruct scheme; [|intros Hs Ht; inversion Hs; subst; discriminate].
  cbn [Sign.sign]. unfold Sign.sign_bliss_with_sha512. intros Hs Ht.
  destruct (create_hasher HASH_SHA512) as [hasher|];
    [|inversion Hs; subst; discriminate].
  destruct (get_hash hasher data) as [data_hash|];
    [|inversion Hs; subst; discriminate].
  destruct (mgf1_alg (Key.set this)) as [alg seed_len].
  destruct rng as [rng|]; [|inversion Hs; subst; discriminate].
  match type of Hs with
  | context [Sign.sign_loop ?f ?s ?al ?l ?h ?d ?st] =>
      destruct (Sign.sign_loop f s al l h d st) as [[b st']| |] eqn:El;
        try discriminate
  end.
  cbn in Hs. destruct (Sign.st_sampler st'); [|discriminate].
  inversion Hs; subst; clear Hs. cbn in Ht |- *. subst b.
  apply SignRun.sign_loop_break in El.
  exists (Sign.st_mem st' Sign.z1), (Sign.st_mem st' Sign.z2d),
    (Sign.st_mem st' Sign.c_indices).
  split; [reflexivity | exact El].
Qed.

(** X12. A returning call of [sign] hands back the generator having drawn a
    whole number [k] of seeds from it, of 20 or 32 bytes by the strength
    of the parameter set, at most one for each round of the loop; and
    [k] is zero exactly when no SHA-512 hasher could be had or the hash of
    the message failed. *)
Theorem sign_draws_whole_seeds (fuel : nat) (this : private_bliss_private_key_t)
    (data signature : chunk_t) (rng : rng_t) (r : Sign.result) :
  Sign.sign fuel this SIGN_BLISS_WITH_SHA512 data signature (Some rng) = Ret r ->
  exists rest k,
    Sign.r_rng r = Some rest /\ (k <= fuel)%nat /\
    length rng = (length rest + k * snd (mgf1_alg (Key.set this)))%nat /\
    (k = 0%nat <->
     create_hasher HASH_SHA512 = None \/
     exists hasher, create_hasher HASH_SHA512 = Some hasher /\
                    get_hash hasher data = None).
Proof.
  cbn [Sign.sign]. unfold Sign.sign_bliss_with_sha512. intros Hs.
  destruct (create_hasher HASH_SHA512) as [hasher|].
  2:{ inversion Hs; subst; cbn. exists rng, 0%nat.
      split; [reflexivity|]. split; [lia|]. split; [lia|]. split; auto. }
  destruct (get_hash hasher data) as [data_hash|] eqn:Eh.
  2:{ inversion Hs; subst; cbn. exists rng, 0%nat.
      split; [reflexivity|]. split; [lia|]. split; [lia|]. split; [|auto].
      intros _. right. exists hasher. auto. }
  destruct (mgf1_alg (Key.set this)) as [alg seed_len]. cbn [snd].
  match type of Hs with
  | context [Sign.sign_loop ?f ?s ?al ?l ?h ?d ?st] =>
      destruct (Sign.sign_loop f s al l h d st) as [[b st']| |] eqn:El;
        try discriminate
  end.
  cbn in Hs. destruct (Sign.st_sampler st') as [sampler|] eqn:Es; [|discriminate].
  inversion Hs; subst; clear Hs. cbn.
  apply SignRun.sign_loop_count in El. destruct El as (k & Hk & Hlen & Hzero).
  cbn in Hlen. exists (Sign.st_rng st'), k.
  split; [reflexivity|]. split; [exact Hk|]. split; [exact Hlen|]. split.
  - intros Hk0. destruct (Hzero Hk0) as [_ ->]. discriminate.
  - intros [Hn|(h & Hh & Hg)]; [discriminate|].
    inversion Hh; subst. congruence.
Qed.

(** X13. Once the message is hashed, a first round that gets no seed from the
    generator, or no sampler from its seed, goes to [end] with [sampler]
    still NULL, and the cleanup calls [sampler->destroy(sampler)]: the call
    does not return. *)
Theorem sign_without_sampler_faults (fuel : nat) (this : private_bliss_private_key_t)
    (data signature : chunk_t) (rng : rng_t) (hasher : hasher_t) (data_hash : chunk_t) :
  create_hasher HASH_SHA512 = Some hasher ->
  get_hash hasher data = Some data_hash ->
  (0 < fuel)%nat ->
  (rng_get_bytes rng (snd (mgf1_alg (Key.set this))) = None \/
   exists seed rest,
     rng_get_bytes rng (snd (mgf1_alg (Key.set this))) = Some (seed, rest) /\
     bliss_sampler_create (fst (mgf1_alg (Key.set this))) seed (Key.set this) = None) ->
  Sign.sign fuel this SIGN_BLISS_WITH_SHA512 data signature (Some rng) = Fault.
Proof.
  intros Hh Hg Hfuel Hno. cbn [Sign.sign]. unfold Sign.sign_bliss_with_sha512.
  rewrite Hh, Hg.
  destruct (mgf1_alg (Key.set this)) as [alg seed_len]. cbn [fst snd] in Hno.
  destruct fuel as [|fuel]; [lia|].
  cbn [Sign.sign_loop]. unfold Sign.sign_round. cbn [Sign.st_rng Sign.st_mem].
  destruct Hno as [Hn|(seed & rest & Hs & Hc)].
  - rewrite Hn. reflexivity.
  - rewrite Hs. unfold Sign.sign_round_seeded. rewrite Hc. reflexivity.
Qed.

(** X14. Without a SHA-512 hasher, without the hash of the message or without
    a generator, [sign] returns false at once: the signature is empty, and
    key and generator are as they were. *)
Theorem sign_setup_failure (fuel : nat) (this : private_bliss_private_key_t)
    (data signature : chunk_t) (rng : option rng_t) :
  (create_hasher HASH_SHA512 = None \/
   (exists hasher, create_hasher HASH_SHA512 = Some hasher /\
                   get_hash hasher data = None) \/
   rng = None /\ create_hasher HASH_SHA512 <> None) ->
  Sign.sign fuel this SIGN_BLISS_WITH_SHA512 data signature rng =
  Ret {| Sign.r_success := false; Sign.r_out := chunk_empty;
         Sign.r_this := this; Sign.r_rng := rng |}.
Proof.
  intros Hc. cbn [Sign.sign]. unfold Sign.sign_bliss_with_sha512.
  destruct Hc as [Hn|[(hasher & Hh & Hg)|[-> Hn]]].
  - rewrite Hn. reflexivity.
  - rewrite Hh, Hg. reflexivity.
  - destruct (create_hasher HASH_SHA512) as [hasher|]; [|congruence].
    destruct (get_hash hasher data); [|reflexivity].
    destruct (mgf1_alg (Key.set this)). reflexivity.
Qed.

End SignRunTheorems.

Lemma sign_failure_empty_signature_witness :
  exists r,
    Sign.sign 2 Toy.key SIGN_BLISS_WITH_SHA512 [Byte.x61] [Byte.xff]
      (Some (Toy.constant_rng Byte.x00 20)) = Ret r /\
    Sign.r_success r = false /\ Sign.r_out r = chunk_empty.
Proof.
  eexists. split; [vm_compute; reflexivity|]. split; [reflexivity|].
  apply (@sign_failure_empty_signature Toy.lib 2 Toy.key [Byte.x61] [Byte.xff]
           (Some (Toy.constant_rng Byte.x00 20))).
  - vm_compute. reflexivity.
  - reflexivity.
Defined.

Lemma sign_success_norms_checked_witness :
  exists z1 z2d c_indices,
    (exists r,
       Sign.sign 10 Toy.key SIGN_BLISS_WITH_SHA512 [Byte.x61] []
         (Some (Toy.constant_rng Byte.xff 100)) = Ret r /\
       Sign.r_out r = bliss_signature_get_encoding Toy.set z1 z2d c_indices) /\
    bliss_utils_check_norms Toy.set z1 z2d = true.
Proof.
  destruct (@sign_success_norms_checked Toy.lib 10 Toy.key SIGN_BLISS_WITH_SHA512
              [Byte.x61] [] (Some (Toy.constant_rng Byte.xff 100))
              _ ltac:(vm_compute; reflexivity) eq_refl)
    as (z1 & z2d & c & Hout & Hn).
  exists z1, z2d, c. split; [|exact Hn].
  eexists. split; [vm_compute; reflexivity | exact Hout].
Defined.

Lemma sign_draws_whole_seeds_witness :
  exists (rest : rng_t) (k : nat),
    (k <= 4)%nat /\
    length Examples.two_seeds
    = (length rest + k * snd (mgf1_alg (Key.set Toy.key)))%nat.
Proof.
  destruct (@sign_draws_whole_seeds Toy.lib 4 Toy.key [Byte.x61] []
              Examples.two_seeds _ ltac:(vm_compute; reflexivity))
    as (rest & k & _ & Hk & Hlen & _).
  exists rest, k. exact (conj Hk Hlen).
Defined.

Lemma sign_without_sampler_faults_witness :
  Sign.sign 3 Toy.key SIGN_BLISS_WITH_SHA512 [Byte.x61] []
    (Some (Toy.constant_rng Byte.xff 19)) = Fault.
Proof.
  apply (@sign_without_sampler_faults Toy.lib 3 Toy.key [Byte.x61] []
           (Toy.constant_rng Byte.xff 19) tt [Byte.x61]).
  - reflexivity.
  - reflexivity.
  - lia.
  - left. vm_compute. reflexivity.
Defined.

Lemma sign_setup_failure_witness :
  Sign.sign 3 Toy.key SIGN_BLISS_WITH_SHA512 [Byte.x61] [Byte.xff] None =
  Ret {| Sign.r_success := false; Sign.r_out := chunk_empty;
         Sign.r_this := Toy.key; Sign.r_rng := None |}.
Proof.
  apply (@sign_setup_failure Toy.lib 3 Toy.key [Byte.x61] [Byte.xff] None).
  right. right. split; [reflexivity | discriminate].
Defined.

(** ** Key generation: arguments, failures and the shape of the key *)

Module KeyGenRun.
Import KeySpec KeyGenSpec KeyGenFacts SecretSpec.

Lemma last_cons_default (x : Z) (l : list Z) (d d' : Z) :
  List.last (x :: l) d = List.last (x :: l) d'.
Proof.
  revert x. induction l as [|y l IH]; intros x; [reflexivity|].
  change (List.last (y :: l) d = List.last (y :: l) d'). apply IH.
Qed.

Lemma gen_args_sizes (ks : list Z) (tail : list builder_part_t) (key_size : Z) :
  gen_args (map BUILD_KEY_SIZE ks ++ tail) key_size = gen_args tail (List.last ks key_size).
Proof.
  revert key_size. induction ks as [|k ks IH]; intros key_size; [reflexivity|].
  cbn [map app gen_args]. rewrite IH. f_equal.
  destruct ks as [|z ks]; [reflexivity|].
  change (List.last (k :: z :: ks) key_size) with (List.last (z :: ks) key_size).
  apply last_cons_default.
Qed.

Section WithLib.
Context `{Lib}.

Lemma create_vector_sparse fuel set alg seed v :
  create_vector_from_seed fuel set alg seed = Ret (Some v) -> sparse set v.
Proof.
  unfold create_vector_from_seed. intros Hc.
  destruct (mgf1_bitspender_create alg seed) as [b0|]; [|discriminate].
  destruct (fill_non_zero fuel (ParamSet.n_bits set) 1 (ParamSet.non_zero1 set) b0
              (replicate (ParamSet.n set) 0)) as [[[b1 v1]|]| |] eqn:E1;
    try discriminate.
  cbn in Hc.
  destruct (fill_non_zero fuel (ParamSet.n_bits set) 2 (ParamSet.non_zero2 set) b1 v1)
    as [[[b2 v2]|]| |] eqn:E2; try discriminate.
  cbn in Hc. inversion Hc; subst; clear Hc.
  apply VectorFacts.fill_non_zero_spec in E1; [|lia].
  apply VectorFacts.fill_non_zero_spec in E2; [|lia].
  destruct E1 as (_ & Hl1 & Hc1), E2 as (_ & Hl2 & Hc2).
  rewrite length_replicate in Hl1.
  pose proof (Hc1 0) as H10. pose proof (Hc1 1) as H11. pose proof (Hc1 2) as H12.
  pose proof (Hc2 0) as H20. pose proof (Hc2 1) as H21. pose proof (Hc2 2) as H22.
  rewrite !VectorFacts.entries_replicate_zero in H10, H11, H12.
  change (Z.abs 1 =? 0) with false in H10. change (Z.abs 1 =? 1) with true in H11.
  change (Z.abs 1 =? 2) with false in H12. change (Z.abs 2 =? 0) with false in H20.
  change (Z.abs 2 =? 1) with false in H21. change (Z.abs 2 =? 2) with true in H22.
  cbn in H10, H11, H12, H20, H21, H22.
  unfold sparse. split; [lia|]. split; [lia|]. split; lia.
Qed.

(** "Compute 2g + 1": on a vector with entries from -2 to 2 the stores in
    8 bits keep every value. *)
Lemma code_two_g_plus_one n (g : list Z) :
  length g = n -> Forall (fun x => - 2 <= x <= 2) g ->
  let g2 := for_loop n 0 (fun i g => <[i := to_int8 (rd g i * 2)]> g) g in
  <[0%nat := to_int8 (rd g2 0 + 1)]> g2 = two_g_plus_one g.
Proof.
  intros Hl Hall. cbv zeta.
  rewrite (for_loop_map_in_place (fun x => to_int8 (x * 2)) n g Hl).
  assert (Hmap : map (fun x => to_int8 (x * 2)) g = map (Z.mul 2) g).
  { apply map_ext_in. intros x Hx. rewrite Forall_forall in Hall.
    apply list_elem_of_In in Hx. specialize (Hall x Hx). cbn in Hall.
    rewrite to_int8_small by (change (2 ^ 7) with 128; lia). lia. }
  rewrite Hmap. unfold two_g_plus_one.
  destruct g as [|x g]; [reflexivity|].
  cbn [map]. apply Forall_inv in Hall. cbn in Hall.
  change (<[0%nat := ?v]> (?y :: ?l)) with (v :: l).
  f_equal. unfold rd. cbn [lookup list_lookup default]. unfold id.
  rewrite to_int8_small by (change (2 ^ 7) with 128; lia). reflexivity.
Qed.

Lemma create_secret_loop_shape fuel k set rng trials r :
  create_secret_loop fuel k set rng trials = Ret r ->
  secret_ok r = true -> secret_shape set (secret_s1 r) (secret_s2 r).
Proof.
  revert rng trials. induction k as [|k IH]; intros rng trials Hc Hok.
  - cbn [create_secret_loop] in Hc.
    destruct (mgf1_alg set) as [alg seed_len].
    destruct (trials <? SECRET_KEY_TRIALS_MAX); [discriminate|].
    inversion Hc; subst; discriminate.
  - cbn [create_secret_loop] in Hc.
    destruct (mgf1_alg set) as [alg seed_len] eqn:Ealg.
    destruct (trials <? SECRET_KEY_TRIALS_MAX);
      [|inversion Hc; subst; discriminate].
    destruct rng as [rng|]; [|discriminate].
    destruct (rng_get_bytes rng seed_len) as [[seed1 rng1]|];
      [|inversion Hc; subst; discriminate].
    destruct (create_vector_from_seed fuel set alg seed1) as [[f|]| |] eqn:Ef;
      try discriminate; cbn in Hc; [|inversion Hc; subst; discriminate].
    destruct (rng_get_bytes rng1 seed_len) as [[seed2 rng2]|];
      [|inversion Hc; subst; discriminate].
    destruct (create_vector_from_seed fuel set alg seed2) as [[g|]| |] eqn:Eg;
      try discriminate; cbn in Hc; [|inversion Hc; subst; discriminate].
    match type of Hc with
    | context [nks_norm ?a ?b ?c ?d <? ?e] => destruct (nks_norm a b c d <? e)
    end.
    + inversion Hc; subst; clear Hc. cbn.
      pose proof (create_vector_from_seed_bounded _ _ _ _ _ Eg) as [Hgl Hgb].
      rewrite (code_two_g_plus_one (ParamSet.n set) g Hgl Hgb).
      split; [eapply create_vector_sparse, Ef|].
      exists g. split; [eapply create_vector_sparse, Eg | reflexivity].
    + eapply IH; eassumption.
Qed.

Lemma gen_loop_shape fuel k set rng trials S1 S2 A d :
  gen_loop fuel k set rng trials S1 S2 A = Ret d ->
  d_success d = true -> secret_shape set (d_s1 d) (d_s2 d).
Proof.
  revert rng trials S1 S2 A.
  induction k as [|k IH]; intros rng trials S1 S2 A Hg Hs; [discriminate|].
  cbn [gen_loop] in Hg. unfold create_secret in Hg.
  match type of Hg with
  | context [create_secret_loop ?f ?kk ?s ?r ?t] =>
      destruct (create_secret_loop f kk s r t) as [r0| |] eqn:Ec; try discriminate
  end.
  cbn in Hg. destruct (secret_ok r0) eqn:Eok; cbn [negb] in Hg;
    [|inversion Hg; subst; discriminate].
  apply create_secret_loop_shape in Ec; [|exact Eok].
  destruct (to_unsigned_arrays _ _ _ _ _) as [T1 T2].
  destruct (derive_A _ _ _ _ _ _) as [[success A']| |]; try discriminate.
  cbn in Hg. destruct success; cbn [negb andb] in Hg.
  - inversion Hg; subst; clear Hg. exact Ec.
  - destruct (secret_trials r0 <? SECRET_KEY_TRIALS_MAX).
    + eapply IH; eassumption.
    + inversion Hg; subst; discriminate.
Qed.

(** Without a generator the first trial dereferences NULL. *)
Lemma create_secret_loop_null_rng fuel k set trials :
  trials < SECRET_KEY_TRIALS_MAX ->
  create_secret_loop fuel (Datatypes.S k) set None trials = Fault.
Proof.
  intros Ht. cbn [create_secret_loop].
  destruct (mgf1_alg set) as [alg seed_len].
  destruct (Z.ltb_spec trials SECRET_KEY_TRIALS_MAX); [reflexivity | lia].
Qed.

(** A generator that cannot supply two seeds ends the first trial. *)
Lemma create_secret_loop_short fuel k set rng trials r :
  trials < SECRET_KEY_TRIALS_MAX ->
  (length rng < 2 * snd (mgf1_alg set))%nat ->
  create_secret_loop fuel (Datatypes.S k) set (Some rng) trials = Ret r ->
  secret_ok r = false /\ secret_trials r = trials + 1.
Proof.
  intros Ht Hshort Hc. cbn [create_secret_loop] in Hc.
  destruct (mgf1_alg set) as [alg seed_len]. cbn [snd] in Hshort.
  destruct (Z.ltb_spec trials SECRET_KEY_TRIALS_MAX); [|lia].
  destruct (rng_get_bytes rng seed_len) as [[seed1 rng1]|] eqn:Eg1;
    [|inversion Hc; subst; auto].
  apply Determinism.rng_get_bytes_some in Eg1. destruct Eg1 as [-> Hl1].
  rewrite length_app in Hshort.
  destruct (create_vector_from_seed fuel set alg seed1) as [[f|]| |];
    try discriminate; cbn in Hc; [|inversion Hc; subst; auto].
  destruct (rng_get_bytes rng1 seed_len) as [[seed2 rng2]|] eqn:Eg2;
    [|inversion Hc; subst; auto].
  apply Determinism.rng_get_bytes_some in Eg2. destruct Eg2 as [-> Hl2].
  rewrite length_app in Hshort. lia.
Qed.

(** The start of [bliss_private_key_gen], up to its loop. *)
Lemma gen_start fuel args rng id set :
  gen_args args 1 = Ret (Some id) ->
  bliss_param_set_get_by_id id = Some set ->
  FFTParams.n (ParamSet.fft_params set) = ParamSet.n set ->
  FFTParams.q (ParamSet.fft_params set) = ParamSet.q set ->
  bliss_private_key_gen fuel args rng =
  (d ← gen_loop fuel (Z.to_nat SECRET_KEY_TRIALS_MAX) set rng 0
         (replicate (ParamSet.n set) 0) (replicate (ParamSet.n set) 0)
         (replicate (ParamSet.n set) 0);
   if d_success d then
     Ret {| gen_key := Some {| Key.set := set; Key.s1 := d_s1 d; Key.s2 := d_s2 d;
                               Key.a := fft_transform (ParamSet.fft_params set)
                                          (d_A d) true |};
            gen_trials := d_trials d; gen_rng := d_rng d |}
   else Ret {| gen_key := None; gen_trials := d_trials d; gen_rng := d_rng d |}).
Proof.
  intros Ha Hs Hn Hq. unfold bliss_private_key_gen.
  rewrite Ha. cbn [mbind outcome_bind]. rewrite Hs, Hn, Hq.
  rewrite Nat.eqb_refl, Z.eqb_refl. reflexivity.
Qed.

(** A key comes from a successful run of the loop, for a parameter set
    found by its number and matched by the parameters of the transform. *)
Lemma gen_key_from_loop fuel args rng r key :
  bliss_private_key_gen fuel args rng = Ret r -> gen_key r = Some key ->
  exists id d,
    gen_args args 1 = Ret (Some id) /\
    bliss_param_set_get_by_id id = Some (Key.set key) /\
    FFTParams.n (ParamSet.fft_params (Key.set key)) = ParamSet.n (Key.set key) /\
    FFTParams.q (ParamSet.fft_params (Key.set key)) = ParamSet.q (Key.set key) /\
    gen_loop fuel (Z.to_nat SECRET_KEY_TRIALS_MAX) (Key.set key) rng 0
      (replicate (ParamSet.n (Key.set key)) 0) (replicate (ParamSet.n (Key.set key)) 0)
      (replicate (ParamSet.n (Key.set key)) 0) = Ret d /\
    d_success d = true /\
    Key.s1 key = d_s1 d /\ Key.s2 key = d_s2 d /\
    Key.a key = fft_transform (ParamSet.fft_params (Key.set key)) (d_A d) true.
Proof.
  unfold bliss_private_key_gen. intros Hg Hk.
  destruct (gen_args args 1) as [[id|]| |]; cbn in Hg;
    try discriminate; [|inversion Hg; subst; discriminate].
  destruct (bliss_param_set_get_by_id id) as [set|] eqn:Es;
    [|inversion Hg; subst; discriminate].
  destruct (Nat.eqb_spec (FFTParams.n (ParamSet.fft_params set)) (ParamSet.n set))
    as [Hn|Hn]; cbn [negb orb] in Hg; [|inversion Hg; subst; discriminate].
  destruct (Z.eqb_spec (FFTParams.q (ParamSet.fft_params set)) (ParamSet.q set))
    as [Hq|Hq]; cbn [negb] in Hg; [|inversion Hg; subst; discriminate].
  match type of Hg with
  | context [gen_loop ?f ?k ?s ?r0 ?t ?a ?b ?c] =>
      destruct (gen_loop f k s r0 t a b c) as [d| |] eqn:El; try discriminate
  end.
  cbn in Hg. destruct (d_success d) eqn:Ed; inversion Hg; subst; clear Hg;
    cbn in Hk; [|discriminate].
  inversion Hk; subst; clear Hk. cbn.
  exists id, d. auto 10.
Qed.

End WithLib.
End KeyGenRun.

Section KeyGenRunTheorems.
Context `{Lib}.

(** X15. Of the parts [bliss_private_key_gen] is called with, the last
    [BUILD_KEY_SIZE] before [BUILD_END] names the parameter set (1 when
    there is none) and what follows [BUILD_END] is not read; any other
    part before [BUILD_END] makes the call return NULL at once, with no
    trial run and nothing drawn from the generator. *)
Theorem gen_reads_arguments (fuel : nat) (ks : list Z) (rest : list builder_part_t)
    (rng : option rng_t) :
  bliss_private_key_gen fuel (map BUILD_KEY_SIZE ks ++ BUILD_END :: rest) rng
  = bliss_private_key_gen fuel [BUILD_KEY_SIZE (List.last ks 1); BUILD_END] rng /\
  bliss_private_key_gen fuel (map BUILD_KEY_SIZE ks ++ BUILD_OTHER :: rest) rng
  = Ret {| gen_key := None; gen_trials := 0; gen_rng := rng |}.
Proof.
  unfold bliss_private_key_gen. rewrite !KeyGenRun.gen_args_sizes. split; reflexivity.
Qed.

(** X16. For a number that names no parameter set, or a set whose transform
    has another [n] or [q], key generation returns NULL before its loop:
    no trial is run and nothing is drawn from the generator. *)
Theorem gen_rejects_parameters (fuel : nat) (args : list builder_part_t)
    (rng : option rng_t) (id : Z) :
  gen_args args 1 = Ret (Some id) ->
  (bliss_param_set_get_by_id id = None \/
   exists set, bliss_param_set_get_by_id id = Some set /\
     (FFTParams.n (ParamSet.fft_params set) <> ParamSet.n set \/
      FFTParams.q (ParamSet.fft_params set) <> ParamSet.q set)) ->
  bliss_private_key_gen fuel args rng
  = Ret {| gen_key := None; gen_trials := 0; gen_rng := rng |}.
Proof.
  intros Ha Hbad. unfold bliss_private_key_gen. rewrite Ha. cbn [mbind outcome_bind].
  destruct Hbad as [Hn|(set & Hs & Hbad)].
  - rewrite Hn. reflexivity.
  - rewrite Hs.
    destruct (Nat.eqb_spec (FFTParams.n (ParamSet.fft_params set)) (ParamSet.n set));
      cbn [negb orb]; [|reflexivity].
    destruct (Z.eqb_spec (FFTParams.q (ParamSet.fft_params set)) (ParamSet.q set));
      cbn [negb]; [|reflexivity].
    destruct Hbad; contradiction.
Qed.

(** X17. [bliss_private_key_gen] uses what [create_rng] returns unchecked: for
    a supported parameter set and no generator, the first trial calls
    [rng->get_bytes] through NULL and the call does not return. *)
Theorem gen_null_rng_faults (fuel : nat) (args : list builder_part_t) (id : Z)
    (set : bliss_param_set_t) :
  gen_args args 1 = Ret (Some id) ->
  bliss_param_set_get_by_id id = Some set ->
  FFTParams.n (ParamSet.fft_params set) = ParamSet.n set ->
  FFTParams.q (ParamSet.fft_params set) = ParamSet.q set ->
  bliss_private_key_gen fuel args None = Fault.
Proof.
  intros Ha Hs Hn Hq.
  rewrite (KeyGenRun.gen_start fuel args None id set Ha Hs Hn Hq).
  change (Z.to_nat SECRET_KEY_TRIALS_MAX) with 50%nat. cbn [gen_loop].
  unfold create_secret. change (Z.to_nat (SECRET_KEY_TRIALS_MAX - 0)) with 50%nat.
  rewrite KeyGenRun.create_secret_loop_null_rng by (unfold SECRET_KEY_TRIALS_MAX; lia).
  reflexivity.
Qed.

(** X18. Every trial draws two seeds.  With a generator that holds fewer bytes
    than two seeds take, a returning call has run one trial and returns
    NULL. *)
Theorem gen_short_generator (fuel : nat) (args : list builder_part_t) (id : Z)
    (set : bliss_param_set_t) (rng : rng_t) (r : gen_result) :
  gen_args args 1 = Ret (Some id) ->
  bliss_param_set_get_by_id id = Some set ->
  FFTParams.n (ParamSet.fft_params set) = ParamSet.n set ->
  FFTParams.q (ParamSet.fft_params set) = ParamSet.q set ->
  (length rng < 2 * snd (mgf1_alg set))%nat ->
  bliss_private_key_gen fuel args (Some rng) = Ret r ->
  gen_key r = None /\ gen_trials r = 1.
Proof.
  intros Ha Hs Hn Hq Hshort.
  rewrite (KeyGenRun.gen_start fuel args (Some rng) id set Ha Hs Hn Hq).
  change (Z.to_nat SECRET_KEY_TRIALS_MAX) with 50%nat. cbn [gen_loop].
  unfold create_secret. change (Z.to_nat (SECRET_KEY_TRIALS_MAX - 0)) with 50%nat.
  destruct (create_secret_loop fuel 50 set (Some rng) 0) as [r0| |] eqn:Ec;
    try discriminate.
  apply KeyGenRun.create_secret_loop_short in Ec;
    [|unfold SECRET_KEY_TRIALS_MAX; lia | exact Hshort].
  destruct Ec as [Eok Et]. cbn [mbind outcome_bind]. rewrite Eok. cbn.
  intros Hr. inversion Hr; subst; clear Hr. cbn. split; [reflexivity | exact Et].
Qed.

(** X19. The key [bliss_private_key_gen] returns belongs to the parameter set
    named by its arguments, whose transform has the same [n] and [q]; its
    three arrays have [n] entries; [s1] is a vector [f] with [non_zero1]
    entries of magnitude 1 and [non_zero2] of magnitude 2, and [s2] is
    [2g + 1] for such a vector [g]. *)
Theorem gen_key_shape (fuel : nat) (args : list builder_part_t) (rng : option rng_t)
    (r : gen_result) (key : private_bliss_private_key_t) :
  bliss_private_key_gen fuel args rng = Ret r -> gen_key r = Some key ->
  let set := Key.set key in
  (exists id, gen_args args 1 = Ret (Some id) /\
              bliss_param_set_get_by_id id = Some set) /\
  FFTParams.n (ParamSet.fft_params set) = ParamSet.n set /\
  FFTParams.q (ParamSet.fft_params set) = ParamSet.q set /\
  length (Key.s1 key) = ParamSet.n set /\
  length (Key.s2 key) = ParamSet.n set /\
  length (Key.a key) = ParamSet.n set /\
  SecretSpec.secret_shape set (Key.s1 key) (Key.s2 key).
Proof.
  intros Hg Hk. cbv zeta.
  destruct (KeyGenRun.gen_key_from_loop fuel args rng r key Hg Hk)
    as (id & d & Ha & Hs & Hn & Hq & El & Ed & E1 & E2 & Ea).
  pose proof (KeyGenRun.gen_loop_shape _ _ _ _ _ _ _ _ _ El Ed) as Hshape.
  apply KeyGenFacts.gen_loop_spec in El; try apply length_replicate;
    [|unfold SECRET_KEY_TRIALS_MAX; lia].
  destruct El as (_ & _ & Hok). destruct (Hok Ed) as [_ Hd].
  destruct Hd as ((Hl1 & Hl2 & _) & HlA & _).
  split; [exists id; auto|]. split; [exact Hn|]. split; [exact Hq|].
  rewrite E1, E2, Ea, fft_transform_length. auto.
Qed.

End KeyGenRunTheorems.

Lemma gen_rejects_parameters_witness :
  bliss_private_key_gen 10 [BUILD_KEY_SIZE 2; BUILD_END]
    (Some (Toy.constant_rng Byte.x03 200))
  = Ret {| gen_key := None; gen_trials := 0;
           gen_rng := Some (Toy.constant_rng Byte.x03 200) |}.
Proof.
  apply (@gen_rejects_parameters Toy.lib 10 [BUILD_KEY_SIZE 2; BUILD_END]
           (Some (Toy.constant_rng Byte.x03 200)) 2).
  - reflexivity.
  - left. reflexivity.
Defined.

Lemma gen_null_rng_faults_witness :
  bliss_private_key_gen 10 [BUILD_END] None = Fault.
Proof.
  apply (@gen_null_rng_faults Toy.lib 10 [BUILD_END] 1 Toy.set); reflexivity.
Defined.

Lemma gen_short_generator_witness :
  exists r,
    bliss_private_key_gen 10 [BUILD_END] (Some (Toy.constant_rng Byte.x03 39)) = Ret r /\
    gen_key r = None /\ gen_trials r = 1.
Proof.
  eexists. split; [vm_compute; reflexivity|].
  apply (@gen_short_generator Toy.lib 10 [BUILD_END] 1 Toy.set
           (Toy.constant_rng Byte.x03 39)); try reflexivity.
  vm_compute. lia.
Defined.

Lemma gen_key_shape_witness :
  length (Key.s1 Toy.generated_key) = ParamSet.n Toy.set /\
  length (Key.s2 Toy.generated_key) = ParamSet.n Toy.set /\
  length (Key.a Toy.generated_key) = ParamSet.n Toy.set /\
  SecretSpec.secret_shape Toy.set (Key.s1 Toy.generated_key) (Key.s2 Toy.generated_key).
Proof.
  apply (@gen_key_shape Toy.lib 10 [BUILD_KEY_SIZE 1; BUILD_END]
           (Some (Toy.constant_rng Byte.x03 200)) Toy.generated Toy.generated_key).
  - vm_compute. reflexivity.
  - reflexivity.
Defined.

(** ** Loading a key *)

Module LoadFacts.
Import Load.

Lemma load_args_blobs (blobs : list chunk_t) (tail : list part_t) (key : chunk_t) :
  load_args (map BUILD_BLOB_ASN1_DER blobs ++ tail) key
  = load_args tail (List.last blobs key).
Proof.
  revert key. induction blobs as [|b blobs IH]; intros key; [reflexivity|].
  cbn [map app load_args]. rewrite IH. f_equal.
  destruct blobs as [|c blobs]; [reflexivity|].
  change (List.last (b :: c :: blobs) key) with (List.last (c :: blobs) key).
  clear. revert c. induction blobs as [|d blobs IH]; intros c; [reflexivity|].
  change (List.last (d :: blobs) b = List.last (d :: blobs) key). apply IH.
Qed.

Section WithAsn1.
Context `{Asn1}.

(** The loop passes over every object with another number. *)
Lemma load_objects_acted_on (objects : list (Z * chunk_t)) (this : object_t) :
  load_objects objects this = load_objects (acted_on objects) this.
Proof.
  revert this. induction objects as [|[objectID object] objects IH]; intros this;
    [reflexivity|].
  unfold acted_on. cbn [List.filter fst]. fold (acted_on objects).
  unfold PRIV_KEY_TYPE, PRIV_KEY_PUBLIC, PRIV_KEY_SECRET1, PRIV_KEY_SECRET2.
  destruct (Z.leb_spec 1 objectID) as [H1|H1];
    destruct (Z.leb_spec objectID 4) as [H4|H4]; cbn [andb].
  - cbn [load_objects].
    unfold PRIV_KEY_TYPE, PRIV_KEY_PUBLIC, PRIV_KEY_SECRET1, PRIV_KEY_SECRET2.
    repeat match goal with
           | |- context [match ?x with _ => _ end] => destruct x
           end; try reflexivity; apply IH.
  - cbn [load_objects].
    unfold PRIV_KEY_TYPE, PRIV_KEY_PUBLIC, PRIV_KEY_SECRET1, PRIV_KEY_SECRET2.
    destruct (Z.eqb_spec objectID 1); [lia|]. destruct (Z.eqb_spec objectID 2); [lia|].
    destruct (Z.eqb_spec objectID 3); [lia|]. destruct (Z.eqb_spec objectID 4); [lia|].
    apply IH.
  - cbn [load_objects].
    unfold PRIV_KEY_TYPE, PRIV_KEY_PUBLIC, PRIV_KEY_SECRET1, PRIV_KEY_SECRET2.
    destruct (Z.eqb_spec objectID 1); [lia|]. destruct (Z.eqb_spec objectID 2); [lia|].
    destruct (Z.eqb_spec objectID 3); [lia|]. destruct (Z.eqb_spec objectID 4); [lia|].
    apply IH.
  - lia.
Qed.

Lemma load_objects_four (o1 o2 o3 o4 : chunk_t) :
  (load_objects [(PRIV_KEY_TYPE, o1); (PRIV_KEY_PUBLIC, o2);
                 (PRIV_KEY_SECRET1, o3); (PRIV_KEY_SECRET2, o4)]
     bliss_private_key_create_empty = Ret None /\
   forall this, ~ described o1 o2 o3 o4 this) \/
  exists this,
    load_objects [(PRIV_KEY_TYPE, o1); (PRIV_KEY_PUBLIC, o2);
                  (PRIV_KEY_SECRET1, o3); (PRIV_KEY_SECRET2, o4)]
      bliss_private_key_create_empty = Ret (Some this) /\
    described o1 o2 o3 o4 this /\
    forall this', described o1 o2 o3 o4 this' -> this' = this.
Proof.
  cbn [load_objects]. unfold described.
  change (PRIV_KEY_TYPE =? PRIV_KEY_TYPE) with true.
  change (PRIV_KEY_PUBLIC =? PRIV_KEY_TYPE) with false.
  change (PRIV_KEY_PUBLIC =? PRIV_KEY_PUBLIC) with true.
  change (PRIV_KEY_SECRET1 =? PRIV_KEY_TYPE) with false.
  change (PRIV_KEY_SECRET1 =? PRIV_KEY_PUBLIC) with false.
  change (PRIV_KEY_SECRET1 =? PRIV_KEY_SECRET1) with true.
  change (PRIV_KEY_SECRET2 =? PRIV_KEY_TYPE) with false.
  change (PRIV_KEY_SECRET2 =? PRIV_KEY_PUBLIC) with false.
  change (PRIV_KEY_SECRET2 =? PRIV_KEY_SECRET1) with false.
  change (PRIV_KEY_SECRET2 =? PRIV_KEY_SECRET2) with true.
  cbv iota.
  destruct (Z.eqb_spec (asn1_known_oid o1) OID_UNKNOWN) as [Hu|Hu].
  { left. split; [reflexivity|]. intros this [Hk _]. contradiction. }
  destruct (bliss_param_set_get_by_oid (asn1_known_oid o1)) as [set'|] eqn:Es.
  2:{ left. split; [reflexivity|]. intros this (_ & s & Hs & _). discriminate. }
  cbn [set s1 s2 a].
  destruct (Nat.eqb_spec (length o2) (2 * ParamSet.n set')) as [H2|H2]; cbn [negb].
  2:{ left. split; [reflexivity|]. intros this (_ & s & Hs & Hl & _).
      inversion Hs; subst. contradiction. }
  destruct (Nat.eqb_spec (length o3) (ParamSet.n set')) as [H3|H3]; cbn [negb].
  2:{ left. split; [reflexivity|]. intros this (_ & s & Hs & _ & Hl & _).
      inversion Hs; subst. contradiction. }
  destruct (Nat.eqb_spec (length o4) (ParamSet.n set')) as [H4|H4]; cbn [negb].
  2:{ left. split; [reflexivity|]. intros this (_ & s & Hs & _ & _ & Hl & _).
      inversion Hs; subst. contradiction. }
  right. eexists. split; [reflexivity|]. split.
  - split; [exact Hu|]. exists set'. auto 10.
  - intros this' (_ & s & Hs & _ & _ & _ & ->). inversion Hs; subst. reflexivity.
Qed.

End WithAsn1.
End LoadFacts.

Section LoadTheorems.
Context `{Load.Asn1}.
Import Load.

(** X20. Of the parts [bliss_private_key_load] is called with, the last
    [BUILD_BLOB_ASN1_DER] before [BUILD_END] is the blob that is parsed and
    what follows [BUILD_END] is not read; any other part before
    [BUILD_END] makes the call return NULL at once. *)
Theorem load_reads_arguments (blobs : list chunk_t) (rest : list part_t) :
  bliss_private_key_load (map BUILD_BLOB_ASN1_DER blobs ++ BUILD_END :: rest)
  = bliss_private_key_load
      [BUILD_BLOB_ASN1_DER (List.last blobs chunk_empty); BUILD_END] /\
  bliss_private_key_load (map BUILD_BLOB_ASN1_DER blobs ++ BUILD_OTHER :: rest)
  = Ret None.
Proof.
  unfold bliss_private_key_load. rewrite !LoadFacts.load_args_blobs.
  split; reflexivity.
Qed.

(** X21. Without a blob, or with an empty one, [bliss_private_key_load]
    returns NULL. *)
Theorem load_empty_blob (blobs : list chunk_t) (rest : list part_t) :
  List.last blobs chunk_empty = chunk_empty ->
  bliss_private_key_load (map BUILD_BLOB_ASN1_DER blobs ++ BUILD_END :: rest)
  = Ret None.
Proof.
  intros He. unfold bliss_private_key_load.
  rewrite LoadFacts.load_args_blobs. cbn [load_args mbind outcome_bind].
  rewrite He. reflexivity.
Qed.

(** X22. When the parser yields the four objects of a [BLISSPrivateKey] in
    their order (and any others, which the loop passes over),
    [bliss_private_key_load] returns either NULL or a key; it returns a
    key exactly when the parser reports success, the key type is a known
    OID of a parameter set, the public key has [2n] bytes and each secret
    [n] bytes; the key then holds that set, the bytes of the secrets read
    as [int8_t], and the public key decoded. *)
Theorem load_accepts (args : list part_t) (key : chunk_t)
    (objects : list (Z * chunk_t)) (parser_success : bool) (o1 o2 o3 o4 : chunk_t) :
  load_args args chunk_empty = Ret (Some key) -> key <> chunk_empty ->
  asn1_parse key = (objects, parser_success) ->
  acted_on objects = [(PRIV_KEY_TYPE, o1); (PRIV_KEY_PUBLIC, o2);
                      (PRIV_KEY_SECRET1, o3); (PRIV_KEY_SECRET2, o4)] ->
  (bliss_private_key_load args = Ret None \/
   exists this, bliss_private_key_load args = Ret (Some this)) /\
  forall this,
    bliss_private_key_load args = Ret (Some this) <->
    parser_success = true /\ Load.described o1 o2 o3 o4 this.
Proof.
  intros Ha Hk Hp Ho. unfold bliss_private_key_load.
  rewrite Ha. cbn [mbind outcome_bind].
  destruct key as [|b key]; [exfalso; apply Hk; reflexivity|]. cbn [length Nat.eqb].
  rewrite Hp, LoadFacts.load_objects_acted_on, Ho.
  destruct (LoadFacts.load_objects_four o1 o2 o3 o4)
    as [[-> Hnone]|(this0 & -> & Hd & Huniq)]; cbn [mbind outcome_bind].
  - split; [left; reflexivity|]. intros this. split.
    + discriminate.
    + intros [_ Hd]. exfalso. exact (Hnone this Hd).
  - destruct parser_success.
    + split; [right; exists this0; reflexivity|]. intros this. split.
      * intros E. inversion E; subst. auto.
      * intros [_ Hd']. rewrite (Huniq this Hd'). reflexivity.
    + split; [left; reflexivity|]. intros this. split.
      * discriminate.
      * intros [E _]. discriminate.
Qed.

End LoadTheorems.

Lemma load_empty_blob_witness :
  Load.bliss_private_key_load
    [Load.BUILD_BLOB_ASN1_DER Load.ToyAsn1.blob; Load.BUILD_BLOB_ASN1_DER []; Load.BUILD_END]
  = Ret None.
Proof.
  apply (@load_empty_blob Load.ToyAsn1.asn1 [Load.ToyAsn1.blob; []] []).
  reflexivity.
Defined.

Lemma load_accepts_witness :
  Load.bliss_private_key_load [Load.BUILD_BLOB_ASN1_DER Load.ToyAsn1.blob; Load.BUILD_END]
  = Ret (Some Load.ToyAsn1.loaded).
Proof.
  apply (proj2 (@load_accepts Load.ToyAsn1.asn1
                  [Load.BUILD_BLOB_ASN1_DER Load.ToyAsn1.blob; Load.BUILD_END]
                  Load.ToyAsn1.blob _ _ _ _ _ _ eq_refl ltac:(discriminate)
                  eq_refl eq_refl)).
  split; [reflexivity|]. split; [discriminate|].
  exists Toy.set. split; [reflexivity|]. split; [reflexivity|].
  split; [reflexivity|]. split; reflexivity.
Defined.

(** ** Bounds of the vector sampler, residues, and the bytes a key costs *)

Module MoreKeyGenFacts.
Import KeySpec KeyGenSpec KeyGenFacts.

Section WithLib.
Context `{Lib}.

(** With indices below the length of the vector, the loop of the sampler
    stays inside it. *)
Lemma fill_non_zero_in_bounds fuel n_bits value non_zero bitspender vector :
  (forall b k x b', get_bits b k = Some (x, b') -> 0 <= x < 2 ^ Z.of_nat k) ->
  2 ^ Z.of_nat n_bits <= Z.of_nat (length vector) ->
  fill_non_zero fuel n_bits value non_zero bitspender vector <> Fault.
Proof.
  intros Hbits. revert non_zero bitspender vector.
  induction fuel as [|fuel IH]; intros non_zero bitspender vector Hn.
  - destruct non_zero; discriminate.
  - destruct non_zero as [|non_zero]; [discriminate|].
    cbn [fill_non_zero].
    destruct (get_bits bitspender n_bits) as [[index b1]|] eqn:Eg; [|discriminate].
    apply Hbits in Eg.
    destruct (Nat.leb_spec (length vector) (Z.to_nat index)); [lia|].
    destruct (Z.ltb_spec index 0); [lia|]. cbn [orb].
    destruct (negb (rd vector (Z.to_nat index) =? 0)); [apply IH, Hn|].
    destruct (get_bits b1 1%nat) as [[sign b2]|]; [|discriminate].
    apply IH. rewrite length_insert. exact Hn.
Qed.

(** A secret that is accepted has cost two seeds for each trial since
    the loop was entered. *)
Lemma create_secret_loop_exact fuel k set rng trials r :
  create_secret_loop fuel k set (Some rng) trials = Ret r ->
  secret_ok r = true ->
  exists rest,
    secret_rng r = Some rest /\
    Z.of_nat (length rng)
    = Z.of_nat (length rest)
      + 2 * Z.of_nat (snd (mgf1_alg set)) * (secret_trials r - trials).
Proof.
  revert rng trials. induction k as [|k IH]; intros rng trials Hc Hok.
  - cbn [create_secret_loop] in Hc.
    destruct (mgf1_alg set) as [alg seed_len].
    destruct (trials <? SECRET_KEY_TRIALS_MAX); [discriminate|].
    inversion Hc; subst; discriminate.
  - cbn [create_secret_loop] in Hc.
    destruct (mgf1_alg set) as [alg seed_len] eqn:Ealg. cbn [snd].
    destruct (trials <? SECRET_KEY_TRIALS_MAX);
      [|inversion Hc; subst; discriminate].
    destruct (rng_get_bytes rng seed_len) as [[seed1 rng1]|] eqn:Eg1;
      [|inversion Hc; subst; discriminate].
    apply rng_get_bytes_length in Eg1.
    destruct (create_vector_from_seed fuel set alg seed1) as [[f|]| |];
      try discriminate; cbn in Hc; [|inversion Hc; subst; discriminate].
    destruct (rng_get_bytes rng1 seed_len) as [[seed2 rng2]|] eqn:Eg2;
      [|inversion Hc; subst; discriminate].
    apply rng_get_bytes_length in Eg2.
    destruct (create_vector_from_seed fuel set alg seed2) as [[g|]| |];
      try discriminate; cbn in Hc; [|inversion Hc; subst; discriminate].
    match type of Hc with
    | context [nks_norm ?a ?b ?c ?d <? ?e] => destruct (nks_norm a b c d <? e)
    end.
    + inversion Hc; subst; clear Hc. cbn. exists rng2. split; [reflexivity | lia].
    + apply IH in Hc; [|exact Hok]. rewrite ?Ealg in Hc. cbn [snd] in Hc.
      destruct Hc as (rest & Hr & Hlen). exists rest. split; [exact Hr | lia].
Qed.

Lemma gen_loop_exact fuel k set rng trials S1 S2 A d :
  gen_loop fuel k set (Some rng) trials S1 S2 A = Ret d ->
  d_success d = true ->
  exists rest,
    d_rng d = Some rest /\
    Z.of_nat (length rng)
    = Z.of_nat (length rest)
      + 2 * Z.of_nat (snd (mgf1_alg set)) * (d_trials d - trials).
Proof.
  revert rng trials S1 S2 A.
  induction k as [|k IH]; intros rng trials S1 S2 A Hg Hs; [discriminate|].
  cbn [gen_loop] in Hg. unfold create_secret in Hg.
  match type of Hg with
  | context [create_secret_loop ?f ?kk ?s ?r ?t] =>
      destruct (create_secret_loop f kk s r t) as [r0| |] eqn:Ec; try discriminate
  end.
  cbn in Hg. destruct (secret_ok r0) eqn:Eok; cbn [negb] in Hg;
    [|inversion Hg; subst; discriminate].
  apply create_secret_loop_exact in Ec; [|exact Eok].
  destruct Ec as (rest0 & Hr0 & Hlen0).
  destruct (to_unsigned_arrays _ _ _ _ _) as [T1 T2].
  destruct (derive_A _ _ _ _ _ _) as [[success A']| |]; try discriminate.
  cbn in Hg. destruct success; cbn [negb andb] in Hg.
  - inversion Hg; subst; clear Hg. cbn. exists rest0. split; [exact Hr0 | exact Hlen0].
  - destruct (secret_trials r0 <? SECRET_KEY_TRIALS_MAX).
    + rewrite Hr0 in Hg. apply IH in Hg; [|exact Hs].
      destruct Hg as (rest & Hr & Hlen). exists rest. split; [exact Hr | lia].
    + inversion Hg; subst; discriminate.
Qed.

End WithLib.

Lemma number_of_bits_range (bits : list bool) :
  0 <= Toy.number_of_bits bits < 2 ^ Z.of_nat (length bits).
Proof.
  induction bits as [|b bits IH]; [cbn; lia|].
  cbn [Toy.number_of_bits length].
  rewrite Nat2Z.inj_succ, Z.pow_succ_r by lia.
  destruct b; cbn [Z.b2z]; lia.
Qed.

Lemma toy_get_bits_range (b : list bool) (k : nat) (x : Z) (b' : list bool) :
  Toy.spend b k = Some (x, b') -> 0 <= x < 2 ^ Z.of_nat k.
Proof.
  unfold Toy.spend. destruct (Nat.leb_spec k (length b)) as [Hk|Hk]; [|discriminate].
  intros E. inversion E; subst; clear E.
  pose proof (number_of_bits_range (take k b)) as Hr.
  rewrite length_take in Hr. replace (k `min` length b)%nat with k in Hr by lia.
  exact Hr.
Qed.

End MoreKeyGenFacts.

Section MoreKeyGenTheorems.
Context `{Lib}.

(** X23. [create_vector_from_seed] writes [vector[index]] with no check of
    [index]: it stays within the [n] cells of the vector whenever a draw of
    [k] bits yields a number below [2^k] and [2^n_bits <= n]. *)
Theorem create_vector_in_bounds (fuel : nat) (set : bliss_param_set_t)
    (alg : hash_algorithm_t) (seed : chunk_t) :
  (forall b k x b', get_bits b k = Some (x, b') -> 0 <= x < 2 ^ Z.of_nat k) ->
  2 ^ Z.of_nat (ParamSet.n_bits set) <= Z.of_nat (ParamSet.n set) ->
  create_vector_from_seed fuel set alg seed <> Fault.
Proof.
  intros Hbits Hn. unfold create_vector_from_seed.
  destruct (mgf1_bitspender_create alg seed) as [b0|]; [|discriminate].
  pose proof (MoreKeyGenFacts.fill_non_zero_in_bounds fuel (ParamSet.n_bits set) 1
                (ParamSet.non_zero1 set) b0 (replicate (ParamSet.n set) 0) Hbits
                ltac:(rewrite length_replicate; exact Hn)) as Hf1.
  destruct (fill_non_zero fuel (ParamSet.n_bits set) 1 (ParamSet.non_zero1 set) b0
              (replicate (ParamSet.n set) 0)) as [[[b1 v1]|]| |] eqn:E1;
    cbn; try discriminate; [|congruence].
  apply VectorFacts.fill_non_zero_spec in E1; [|lia].
  destruct E1 as (_ & Hl1 & _). rewrite length_replicate in Hl1.
  pose proof (MoreKeyGenFacts.fill_non_zero_in_bounds fuel (ParamSet.n_bits set) 2
                (ParamSet.non_zero2 set) b1 v1 Hbits
                ltac:(rewrite Hl1; exact Hn)) as Hf2.
  destruct (fill_non_zero fuel (ParamSet.n_bits set) 2 (ParamSet.non_zero2 set) b1 v1)
    as [[[b2 v2]|]| |]; cbn; try discriminate. congruence.
Qed.

(** X24. "Convert signed arrays to unsigned arrays before FFT": for
    coefficients of magnitude below [q], [S1] receives the residues of
    [s1] modulo [q] and [S2] the residues of [-s2]. *)
Theorem to_unsigned_arrays_residues (q : Z) (n : nat) (s1 s2 S1 S2 : list Z) :
  0 < q < 2 ^ 16 ->
  length s1 = n -> length s2 = n -> length S1 = n -> length S2 = n ->
  Forall (fun x => - q < x < q) s1 -> Forall (fun x => - q < x < q) s2 ->
  to_unsigned_arrays q n s1 s2 (S1, S2)
  = (map (fun x => x mod q) s1, map (fun x => (- x) mod q) s2).
Proof.
  intros Hq H1 H2 H3 H4 Hb1 Hb2.
  rewrite KeyGenFacts.to_unsigned_arrays_maps by assumption.
  change (2 ^ 16) with 65536 in Hq.
  unfold KeyGenSpec.unsigned_s1, KeyGenSpec.unsigned_s2. f_equal.
  - apply map_ext_in. intros x Hx.
    rewrite Forall_forall in Hb1. apply list_elem_of_In in Hx.
    specialize (Hb1 x Hx). cbn in Hb1.
    destruct (Z.ltb_spec x 0).
    + rewrite to_uint32_small by (change (2 ^ 32) with 4294967296; lia).
      apply (Z.mod_unique_pos x q (- 1)); lia.
    + rewrite to_uint32_small by (change (2 ^ 32) with 4294967296; lia).
      symmetry. apply Z.mod_small. lia.
  - apply map_ext_in. intros x Hx.
    rewrite Forall_forall in Hb2. apply list_elem_of_In in Hx.
    specialize (Hb2 x Hx). cbn in Hb2.
    destruct (Z.ltb_spec 0 x).
    + rewrite to_uint32_small by (change (2 ^ 32) with 4294967296; lia).
      apply (Z.mod_unique_pos (- x) q (- 1)); lia.
    + rewrite to_uint32_small by (change (2 ^ 32) with 4294967296; lia).
      symmetry. apply Z.mod_small. lia.
Qed.

(** X25. A call of [bliss_private_key_gen] that returns a key has drawn from
    the generator exactly two seeds, of 20 or 32 bytes by the strength of
    the set, for each trial it counts. *)
Theorem gen_draws_two_seeds_per_trial (fuel : nat) (args : list builder_part_t)
    (rng : rng_t) (r : gen_result) (key : private_bliss_private_key_t) :
  bliss_private_key_gen fuel args (Some rng) = Ret r -> gen_key r = Some key ->
  exists rest,
    gen_rng r = Some rest /\
    Z.of_nat (length rng)
    = Z.of_nat (length rest)
      + 2 * Z.of_nat (snd (mgf1_alg (Key.set key))) * gen_trials r.
Proof.
  intros Hg Hk.
  destruct (KeyGenRun.gen_key_from_loop fuel args (Some rng) r key Hg Hk)
    as (id & d & Ha & Hs & Hn & Hq & El & Ed & _).
  rewrite (KeyGenRun.gen_start fuel args (Some rng) id (Key.set key) Ha Hs Hn Hq) in Hg.
  rewrite El in Hg. cbn [mbind outcome_bind] in Hg. rewrite Ed in Hg.
  inversion Hg; subst; clear Hg. cbn [gen_rng gen_trials].
  apply MoreKeyGenFacts.gen_loop_exact in El; [|exact Ed].
  destruct El as (rest & Hr & Hlen). exists rest. split; [exact Hr | lia].
Qed.

End MoreKeyGenTheorems.

Lemma create_vector_in_bounds_witness :
  create_vector_from_seed 10 Toy.set HASH_SHA1 [Byte.x01] <> Fault.
Proof.
  apply (@create_vector_in_bounds Toy.lib 10 Toy.set HASH_SHA1 [Byte.x01]).
  - exact MoreKeyGenFacts.toy_get_bits_range.
  - vm_compute. discriminate.
Defined.

Lemma to_unsigned_arrays_residues_witness :
  to_unsigned_arrays 5 2 [0; -1] [1; -2] ([0; 0], [0; 0])
  = (map (fun x => x mod 5) [0; -1], map (fun x => (- x) mod 5) [1; -2]).
Proof.
  apply (to_unsigned_arrays_residues 5 2 [0; -1] [1; -2] [0; 0] [0; 0]);
    try reflexivity.
  - vm_compute. split; reflexivity.
  - repeat constructor; vm_compute; discriminate || reflexivity.
  - repeat constructor; vm_compute; discriminate || reflexivity.
Defined.

Lemma gen_draws_two_seeds_per_trial_witness :
  exists rest,
    gen_rng Toy.generated = Some rest /\
    Z.of_nat (length (Toy.constant_rng Byte.x03 200))
    = Z.of_nat (length rest)
      + 2 * Z.of_nat (snd (mgf1_alg (Key.set Toy.generated_key)))
        * gen_trials Toy.generated.
Proof.
  apply (@gen_draws_two_seeds_per_trial Toy.lib 10 [BUILD_KEY_SIZE 1; BUILD_END]
           (Toy.constant_rng Byte.x03 200) Toy.generated Toy.generated_key).
  - vm_compute. reflexivity.
  - reflexivity.
Defined.

(** ** Key generation: the trials, their bound and what a key has passed *)

Module KeyGenTrials.
Import KeySpec KeyGenSpec KeyGenFacts SecretSpec.






Section WithLib.
Context `{Lib}.








End WithLib.



End KeyGenTrials.

Section KeyGenTrialsTheorem.
Context `{Lib}.
Import KeyGenSpec KeyGenFacts KeyGenRelation.


End KeyGenTrialsTheorem.


